(** * Arch Soundpad: audio routing and global hotkeys

    A shallow embedding of [soundpad_app.py]: the [AudioRouter] that drives
    the sound server through [pactl], the [GlobalHotkeyManager] that grabs
    keys at the X server, and the parts of [SoundpadApp] that own the
    push-to-talk state and the clip hotkeys.

    Python [str] values are lists of characters; a character is a code
    point below 256 (the ASCII range and its Latin-1 extension). *)

From Stdlib Require Import List Ascii String ZArith NArith Lia Bool Decimal DecimalPos DecimalN.
From stdpp Require Import gmap strings.
Import ListNotations.

Local Open Scope Z_scope.
Local Open Scope list_scope.

(** ** Python strings *)

Module Py.

Abbreviation str := (list ascii).

(** A string literal of the source. *)
Definition lit (s : string) : str := list_ascii_of_string s.

Definition code (c : ascii) : N := N_of_ascii c.

Definition in_range (lo hi : N) (c : ascii) : bool :=
  ((lo <=? code c) && (code c <=? hi))%N.

(** [c.isspace()]: TAB..CR, FS..US, SPACE, NEL and NBSP. *)
Definition isspace (c : ascii) : bool :=
  in_range 9 13 c || in_range 28 32 c || (code c =? 133)%N || (code c =? 160)%N.

(** The line boundaries of [str.splitlines]. *)
Definition is_linebreak (c : ascii) : bool :=
  in_range 10 13 c || in_range 28 30 c || (code c =? 133)%N.

Definition is_cr (c : ascii) : bool := (code c =? 13)%N.
Definition is_lf (c : ascii) : bool := (code c =? 10)%N.

(** [c.isdigit()]: the decimal digits and the superscripts 1, 2, 3. *)
Definition isdigit_char (c : ascii) : bool :=
  in_range 48 57 c || (code c =? 178)%N || (code c =? 179)%N || (code c =? 185)%N.

Definition is_upper (c : ascii) : bool :=
  in_range 65 90 c || in_range 192 214 c || in_range 216 222 c.

Definition lower_char (c : ascii) : ascii :=
  if is_upper c then ascii_of_N (code c + 32) else c.

(** [s.lower()] *)
Definition lower (s : str) : str := map lower_char s.

(** [s.upper()] on the ASCII letters; the source applies it only to an
    [f] followed by digits. *)
Definition upper_char (c : ascii) : ascii :=
  if in_range 97 122 c then ascii_of_N (code c - 32) else c.

Definition upper (s : str) : str := map upper_char s.

Fixpoint lstrip (s : str) : str :=
  match s with
  | c :: s' => if isspace c then lstrip s' else s
  | [] => []
  end.

Fixpoint rstrip (s : str) : str :=
  match s with
  | [] => []
  | c :: s' =>
      match rstrip s' with
      | [] => if isspace c then [] else [c]
      | r => c :: r
      end
  end.

(** [s.strip()] *)
Definition strip (s : str) : str := rstrip (lstrip s).

(** [s.isdigit()]: non-empty and digits only. *)
Definition isdigit (s : str) : bool :=
  match s with
  | [] => false
  | _ => forallb isdigit_char s
  end.

(** [s[1:]] *)
Definition tail1 (s : str) : str := tl s.

(** [s.startswith(p)] *)
Fixpoint startswith (p s : str) : bool :=
  match p, s with
  | [], _ => true
  | a :: p', b :: s' => bool_decide (a = b) && startswith p' s'
  | _ :: _, [] => false
  end.

(** [s.endswith(p)] *)
Definition endswith (p s : str) : bool := startswith (rev p) (rev s).

(** [needle in hay] *)
Fixpoint contains (needle hay : str) : bool :=
  startswith needle hay ||
  match hay with
  | [] => false
  | _ :: hay' => contains needle hay'
  end.

(** [s.split(sep)] for a one-character separator. *)
Fixpoint split (sep : ascii) (s : str) : list str :=
  match s with
  | [] => [[]]
  | c :: s' =>
      if bool_decide (c = sep) then [] :: split sep s'
      else match split sep s' with
           | p :: ps => (c :: p) :: ps
           | [] => [[c]]
           end
  end.

(** [s.split(sep, 1)] *)
Fixpoint split1 (sep : ascii) (s : str) : list str :=
  match s with
  | [] => [[]]
  | c :: s' =>
      if bool_decide (c = sep) then [[]; s']
      else match split1 sep s' with
           | p :: ps => (c :: p) :: ps
           | [] => [[c]]
           end
  end.

(** [s.splitlines()]; [after_cr] remembers that the previous character was
    a carriage return, whose following line feed belongs to the same
    boundary. *)
Fixpoint splitlines_from (after_cr : bool) (s : str) : list str :=
  match s with
  | [] => []
  | c :: s' =>
      if after_cr && is_lf c then splitlines_from false s'
      else if is_linebreak c then [] :: splitlines_from (is_cr c) s'
      else match splitlines_from false s' with
           | l :: ls => (c :: l) :: ls
           | [] => [[c]]
           end
  end.

Definition splitlines (s : str) : list str := splitlines_from false s.

(** [sep.join(parts)] *)
Fixpoint join (sep : str) (parts : list str) : str :=
  match parts with
  | [] => []
  | [p] => p
  | p :: ps => p ++ sep ++ join sep ps
  end.

(** Truth value of a string: non-empty. *)
Definition truthy (s : str) : bool :=
  match s with [] => false | _ => true end.

(** [a or b] on strings. *)
Definition or_else (a b : str) : str := if truthy a then a else b.

Definition eqb (a b : str) : bool := bool_decide (a = b).

(** [str(n)] for a non-negative integer. *)
Definition digit_char (d : N) : ascii := ascii_of_N (48 + d).

Fixpoint uint_str (d : Decimal.uint) : str :=
  match d with
  | Decimal.Nil => []
  | Decimal.D0 d => digit_char 0 :: uint_str d
  | Decimal.D1 d => digit_char 1 :: uint_str d
  | Decimal.D2 d => digit_char 2 :: uint_str d
  | Decimal.D3 d => digit_char 3 :: uint_str d
  | Decimal.D4 d => digit_char 4 :: uint_str d
  | Decimal.D5 d => digit_char 5 :: uint_str d
  | Decimal.D6 d => digit_char 6 :: uint_str d
  | Decimal.D7 d => digit_char 7 :: uint_str d
  | Decimal.D8 d => digit_char 8 :: uint_str d
  | Decimal.D9 d => digit_char 9 :: uint_str d
  end.

Definition str_of_N (n : N) : str := uint_str (N.to_uint n).

End Py.

Import Py.

(** ** Outcomes and state *)

(** The exceptions that the modelled code can meet. *)
Inductive exn : Type :=
  | FileNotFoundError   (* subprocess.run: the executable is not on PATH *)
  | ValueError          (* subprocess.run: an argument holds a NUL character *)
  | UnicodeDecodeError  (* subprocess.run: the output is not text *)
  | OSError             (* a process cannot be started, a file cannot be written *)
  | TypeError           (* an operand of the wrong type *)
  | IndexError          (* list index out of range *)
  | BadAccess           (* Xlib.error.BadAccess *)
  | DisplayError        (* any other Xlib failure *)
  | RuntimeError.       (* threading *)

Inductive outcome (A : Type) : Type :=
  | Return (a : A)
  | Raise (e : exn).
Arguments Return {A} a.
Arguments Raise {A} e.

Definition returned {A} (o : outcome A) : bool :=
  match o with Return _ => true | Raise _ => false end.

(** A computation over a mutable state [S] that returns or raises; the
    state reached is kept in both cases, as Python keeps the mutations made
    before an exception. *)
Definition M (S A : Type) : Type := S -> outcome A * S.

Definition ret {S A} (a : A) : M S A := fun s => (Return a, s).
Definition raise {S A} (e : exn) : M S A := fun s => (Raise e, s).
Definition bind {S A B} (m : M S A) (k : A -> M S B) : M S B :=
  fun s => match m s with
           | (Return a, s') => k a s'
           | (Raise e, s') => (Raise e, s')
           end.
Definition gets {S A} (f : S -> A) : M S A := fun s => (Return (f s), s).
Definition modify {S} (f : S -> S) : M S unit := fun s => (Return tt, f s).

(** [try: body  except Exception: handler] *)
Definition try_except {S A} (body : M S A) (handler : M S A) : M S A :=
  fun s => match body s with
           | (Return a, s') => (Return a, s')
           | (Raise _, s') => handler s'
           end.

Notation "x <- m ;; k" := (bind m (fun x => k))
  (at level 100, m at next level, right associativity).
Notation "m ;;; k" := (bind m (fun _ => k))
  (at level 100, right associativity).

(** ** The sound server behind [pactl] *)

(** The server is not part of the repository: what follows is the
    environment in which the router is verified. It keeps the list of
    loaded modules with the indices it assigned, prints the listing that
    the router parses (one line per module, three columns separated by
    tabs), and runs a command either to its end or not at all. *)

Module Pulse.

(** [subprocess.CompletedProcess] with [capture_output=True, text=True]. *)
Record CompletedProcess : Type := {
  returncode : Z;
  stdout : str;
  stderr : str
}.

(** A loaded server module. *)
Record Module_ : Type := {
  m_index : N;
  m_name : str;
  m_argument : str
}.

(** A failing run of the control tool: it exits with a non-zero status (or
    is killed by a signal, which [subprocess] reports as a negative
    status) and leaves the server as it was. *)
Record Fault : Type := {
  f_status : positive;
  f_signalled : bool;
  f_stdout : str;
  f_stderr : str
}.

Definition failed (f : Fault) : CompletedProcess :=
  {| returncode := if f_signalled f then Z.neg (f_status f) else Z.pos (f_status f);
     stdout := f_stdout f;
     stderr := f_stderr f |}.

(** What befalls one call of [subprocess.run(cmd, capture_output=True,
    text=True)]. The call raises before the tool is started when an
    argument holds a NUL character ([ValueError]) or when no process can be
    made ([OSError]); it raises after the tool has run when what the tool
    printed is not text in the encoding of the locale
    ([UnicodeDecodeError]). Which of these happens is decided outside the
    router, so the model takes it from the environment. *)
Inductive Fate : Type :=
  | Served                  (* the tool runs to its end and its output is read *)
  | Exits (f : Fault)       (* the tool fails with a non-zero status *)
  | Unspawned (e : exn)     (* [subprocess.run] raises [e], the tool does not run *)
  | Undecodable.            (* the tool runs, reading its output raises *)

(** The environment of [AudioRouter._run]: whether [pactl] can be spawned,
    the module graph of the server, the text it prints for the source list
    and for [pactl info], the faults that hit the coming runs (one entry
    per run, [Served] for a run that goes through), and the argument
    vectors handed to [subprocess.run] so far. *)
Record Server : Type := {
  pactl_present : bool;
  modules : list Module_;
  next_index : N;
  sources_text : str;
  info_text : str;
  faults : list Fate;
  issued : list (list str)
}.

Definition tab : ascii := ascii_of_N 9.
Definition newline : ascii := ascii_of_N 10.

(** One line of [pactl list short modules]: index, name and argument
    separated by tabs. *)
Definition render_module (m : Module_) : str :=
  str_of_N (m_index m) ++ tab :: m_name m ++ tab :: m_argument m.

Definition render_modules (ms : list Module_) : str :=
  concat (map (fun m => render_module m ++ [newline]) ms).

Inductive Command : Type :=
  | ListModules
  | ListSources
  | Info
  | LoadModule (name : str) (args : list str)
  | UnloadModule (index : str)
  | SetSourceMute (source value : str)
  | Unknown.

Definition parse_argv (argv : list str) : Command :=
  match argv with
  | tool :: verb :: rest =>
      if negb (eqb tool (lit "pactl")) then Unknown
      else if eqb verb (lit "list") then
        if bool_decide (rest = [lit "short"; lit "modules"]) then ListModules
        else if bool_decide (rest = [lit "short"; lit "sources"]) then ListSources
        else Unknown
      else if eqb verb (lit "info") then
        match rest with [] => Info | _ => Unknown end
      else if eqb verb (lit "load-module") then
        match rest with name :: args => LoadModule name args | [] => Unknown end
      else if eqb verb (lit "unload-module") then
        match rest with [index] => UnloadModule index | _ => Unknown end
      else if eqb verb (lit "set-source-mute") then
        match rest with [source; value] => SetSourceMute source value | _ => Unknown end
      else Unknown
  | _ => Unknown
  end.

Definition ok (out : str) : CompletedProcess :=
  {| returncode := 0; stdout := out; stderr := [] |}.

Definition failure (msg : string) : CompletedProcess :=
  {| returncode := 1; stdout := []; stderr := lit msg ++ [newline] |}.

Definition has_index (index : str) (m : Module_) : bool :=
  eqb (str_of_N (m_index m)) index.

Definition set_modules (ms : list Module_) (n : N) (sv : Server) : Server :=
  {| pactl_present := pactl_present sv; modules := ms; next_index := n;
     sources_text := sources_text sv; info_text := info_text sv;
     faults := faults sv; issued := issued sv |}.

(** What the server does with a command that goes through. *)
Definition serve (c : Command) (sv : Server) : CompletedProcess * Server :=
  match c with
  | ListModules => (ok (render_modules (modules sv)), sv)
  | ListSources => (ok (sources_text sv), sv)
  | Info => (ok (info_text sv), sv)
  | LoadModule name args =>
      let m := {| m_index := next_index sv; m_name := name;
                  m_argument := join (lit " ") args |} in
      (ok (str_of_N (next_index sv) ++ [newline]),
       set_modules (modules sv ++ [m]) (N.succ (next_index sv)) sv)
  | UnloadModule index =>
      if existsb (has_index index) (modules sv)
      then (ok [],
            set_modules (List.filter (fun m => negb (has_index index m)) (modules sv))
                        (next_index sv) sv)
      else (failure "Failure: No such entity", sv)
  | SetSourceMute _ _ => (ok [], sv)
  | Unknown => (failure "Invalid command", sv)
  end.

Definition record_run (argv : list str) (rest : list Fate) (sv : Server) : Server :=
  {| pactl_present := pactl_present sv; modules := modules sv;
     next_index := next_index sv;
     sources_text := sources_text sv; info_text := info_text sv;
     faults := rest; issued := issued sv ++ [argv] |}.

(** [subprocess.run(cmd, capture_output=True, text=True)]: the arguments
    are converted and the pipes made first, then the executable is looked
    up on [PATH], then the tool runs and its output is decoded. *)
Definition subprocess_run (argv : list str) : M Server CompletedProcess :=
  fun sv =>
    match faults sv with
    | Unspawned e :: rest => (Raise e, record_run argv rest sv)
    | fates =>
        if negb (pactl_present sv) then (Raise FileNotFoundError, record_run argv fates sv)
        else match fates with
             | Exits f :: rest => (Return (failed f), record_run argv rest sv)
             | Undecodable :: rest =>
                 (Raise UnicodeDecodeError,
                  snd (serve (parse_argv argv) (record_run argv rest sv)))
             | _ =>
                 let '(cp, sv') := serve (parse_argv argv) (record_run argv (tl fates) sv) in
                 (Return cp, sv')
             end
    end.

End Pulse.

Import Pulse.

(** ** AudioRouter *)

Definition SINK_NAME : str := lit "soundpad_sink".
Definition SOURCE_NAME : str := lit "soundpad_mic".

(** The fields of an [AudioRouter] object: identifiers remembered from
    earlier calls, [None] until set. *)
Record AudioRouter : Type := {
  sink_module_id : option str;
  source_module_id : option str;
  monitor_module_id : option str;
  mic_loop_module_id : option str
}.

(** [AudioRouter.__init__] *)
Definition AudioRouter_init : AudioRouter :=
  {| sink_module_id := None; source_module_id := None;
     monitor_module_id := None; mic_loop_module_id := None |}.

(** The router together with the server it talks to. *)
Record Audio : Type := {
  router : AudioRouter;
  server : Server
}.

Definition set_sink_module_id (v : option str) : M Audio unit :=
  modify (fun a =>
    {| router := {| sink_module_id := v;
                    source_module_id := source_module_id (router a);
                    monitor_module_id := monitor_module_id (router a);
                    mic_loop_module_id := mic_loop_module_id (router a) |};
       server := server a |}).

Definition set_source_module_id (v : option str) : M Audio unit :=
  modify (fun a =>
    {| router := {| sink_module_id := sink_module_id (router a);
                    source_module_id := v;
                    monitor_module_id := monitor_module_id (router a);
                    mic_loop_module_id := mic_loop_module_id (router a) |};
       server := server a |}).

Definition set_monitor_module_id (v : option str) : M Audio unit :=
  modify (fun a =>
    {| router := {| sink_module_id := sink_module_id (router a);
                    source_module_id := source_module_id (router a);
                    monitor_module_id := v;
                    mic_loop_module_id := mic_loop_module_id (router a) |};
       server := server a |}).

Definition set_mic_loop_module_id (v : option str) : M Audio unit :=
  modify (fun a =>
    {| router := {| sink_module_id := sink_module_id (router a);
                    source_module_id := source_module_id (router a);
                    monitor_module_id := monitor_module_id (router a);
                    mic_loop_module_id := v |};
       server := server a |}).

(** Truth value of an identifier that is [None] or a string. *)
Definition id_truthy (v : option str) : bool :=
  match v with
  | Some s => truthy s
  | None => false
  end.

(** [AudioRouter._run] *)
Definition _run (cmd : list str) : M Audio CompletedProcess :=
  fun a =>
    let '(r, sv) := subprocess_run cmd (server a) in
    (r, {| router := router a; server := sv |}).

Definition list_modules_cmd : list str :=
  [lit "pactl"; lit "list"; lit "short"; lit "modules"].

(** The [for line in result.stdout.splitlines()] loop of
    [_module_id_by_name]. *)
Fixpoint _module_id_by_name_loop (module_name : str) (arg_token : option str)
    (lines : list str) : option str :=
  match lines with
  | [] => None
  | line :: rest =>
      match split tab line with
      | mod_id :: mod_name :: mod_args :: _ =>
          if negb (eqb mod_name module_name) then
            _module_id_by_name_loop module_name arg_token rest
          else match arg_token with
               | None => Some mod_id
               | Some token =>
                   if contains token mod_args then Some mod_id
                   else _module_id_by_name_loop module_name arg_token rest
               end
      | _ => _module_id_by_name_loop module_name arg_token rest
      end
  end.

(** [AudioRouter._module_id_by_name] *)
Definition _module_id_by_name (module_name : str) (arg_token : option str)
    : M Audio (option str) :=
  result <- _run list_modules_cmd ;;
  if negb (returncode result =? 0) then ret None
  else ret (_module_id_by_name_loop module_name arg_token (splitlines (stdout result))).

Definition load_sink_cmd : list str :=
  [lit "pactl"; lit "load-module"; lit "module-null-sink";
   lit "sink_name=" ++ SINK_NAME;
   lit "sink_properties=device.description=SoundpadSink"].

Definition load_source_cmd : list str :=
  [lit "pactl"; lit "load-module"; lit "module-remap-source";
   lit "master=" ++ SINK_NAME ++ lit ".monitor";
   lit "source_name=" ++ SOURCE_NAME;
   lit "source_properties=device.description=SoundpadMic"].

(** [result.stderr.strip() or result.stdout.strip()] *)
Definition error_text (result : CompletedProcess) : str :=
  or_else (strip (stderr result)) (strip (stdout result)).

(** The second half of [ensure_virtual_mic], from the discovery of the
    virtual source on. *)
Definition ensure_virtual_source : M Audio (bool * str) :=
  found <- _module_id_by_name (lit "module-remap-source")
             (Some (lit "source_name=" ++ SOURCE_NAME)) ;;
  set_source_module_id found ;;;
  let ready := ret (true, lit "Ready: sink=" ++ SINK_NAME ++ lit ", mic=" ++ SOURCE_NAME) in
  if negb (id_truthy found) then
    source_result <- _run load_source_cmd ;;
    if negb (returncode source_result =? 0) then ret (false, error_text source_result)
    else set_source_module_id (Some (strip (stdout source_result))) ;;; ready
  else ready.

(** [AudioRouter.ensure_virtual_mic] *)
Definition ensure_virtual_mic : M Audio (bool * str) :=
  found <- _module_id_by_name (lit "module-null-sink")
             (Some (lit "sink_name=" ++ SINK_NAME)) ;;
  set_sink_module_id found ;;;
  if negb (id_truthy found) then
    sink_result <- _run load_sink_cmd ;;
    if negb (returncode sink_result =? 0) then ret (false, error_text sink_result)
    else set_sink_module_id (Some (strip (stdout sink_result))) ;;; ensure_virtual_source
  else ensure_virtual_source.

Definition load_monitor_cmd : list str :=
  [lit "pactl"; lit "load-module"; lit "module-loopback";
   lit "source=" ++ SINK_NAME ++ lit ".monitor";
   lit "sink=@DEFAULT_SINK@"; lit "latency_msec=30"].

(** [AudioRouter.ensure_local_monitor] *)
Definition ensure_local_monitor : M Audio (bool * str) :=
  found <- _module_id_by_name (lit "module-loopback")
             (Some (lit "source=" ++ SINK_NAME ++ lit ".monitor")) ;;
  set_monitor_module_id found ;;;
  if id_truthy found then ret (true, lit "Local monitor ready")
  else
    monitor_result <- _run load_monitor_cmd ;;
    if negb (returncode monitor_result =? 0) then ret (false, error_text monitor_result)
    else set_monitor_module_id (Some (strip (stdout monitor_result))) ;;;
         ret (true, lit "Local monitor enabled").

Definition unload_cmd (module_id : str) : list str :=
  [lit "pactl"; lit "unload-module"; module_id].

(** [AudioRouter.unload_monitor] *)
Definition unload_monitor : M Audio (bool * str) :=
  remembered <- gets (fun a => monitor_module_id (router a)) ;;
  match remembered with
  | Some (c :: module_id) =>
      unload_result <- _run (unload_cmd (c :: module_id)) ;;
      if negb (returncode unload_result =? 0) then ret (false, error_text unload_result)
      else set_monitor_module_id None ;;; ret (true, lit "Speaker monitor muted")
  | _ => ret (true, lit "Speaker monitor already disabled")
  end.

(** [AudioRouter.set_mic_mute] *)
Definition set_mic_mute (muted : bool) : M Audio (bool * str) :=
  let mute_value := if muted then lit "1" else lit "0" in
  result <- _run [lit "pactl"; lit "set-source-mute"; SOURCE_NAME; mute_value] ;;
  if negb (returncode result =? 0) then ret (false, error_text result)
  else ret (true, if muted then lit "Mic muted" else lit "Mic unmuted").

(** The loop of [list_input_sources]. *)
Fixpoint list_input_sources_loop (lines : list str) : list str :=
  match lines with
  | [] => []
  | line :: rest =>
      match split tab line with
      | _ :: name :: _ =>
          let source_name := strip name in
          if eqb source_name SOURCE_NAME || endswith (lit ".monitor") source_name
          then list_input_sources_loop rest
          else source_name :: list_input_sources_loop rest
      | _ => list_input_sources_loop rest
      end
  end.

(** [AudioRouter.list_input_sources] *)
Definition list_input_sources : M Audio (list str) :=
  result <- _run [lit "pactl"; lit "list"; lit "short"; lit "sources"] ;;
  if negb (returncode result =? 0) then ret []
  else ret (list_input_sources_loop (splitlines (stdout result))).

(** [xs[1]], which raises when there is no such item. *)
Definition item1 {S} (xs : list str) : M S str :=
  match xs with
  | _ :: x :: _ => ret x
  | _ => raise IndexError
  end.

(** The loop of [get_default_source]. *)
Fixpoint get_default_source_loop (lines : list str) : M Audio str :=
  match lines with
  | [] => ret []
  | line :: rest =>
      if startswith (lit "Default Source:") line then
        value <- item1 (split1 ":"%char line) ;;
        ret (strip value)
      else get_default_source_loop rest
  end.

(** [AudioRouter.get_default_source] *)
Definition get_default_source : M Audio str :=
  result <- _run [lit "pactl"; lit "info"] ;;
  if negb (returncode result =? 0) then ret []
  else get_default_source_loop (splitlines (stdout result)).

(** The test of [_find_mic_loop_module] on the argument column. *)
Definition is_mic_loop_args (mod_args : str) : bool :=
  contains (lit "sink=" ++ SINK_NAME) mod_args &&
  negb (contains (lit "source=soundpad_sink.monitor") mod_args).

(** The loop of [_find_mic_loop_module]. *)
Fixpoint _find_mic_loop_module_loop (lines : list str) : option str :=
  match lines with
  | [] => None
  | line :: rest =>
      match split tab line with
      | mod_id :: mod_name :: mod_args :: _ =>
          if negb (eqb mod_name (lit "module-loopback")) then
            _find_mic_loop_module_loop rest
          else if is_mic_loop_args mod_args then Some mod_id
          else _find_mic_loop_module_loop rest
      | _ => _find_mic_loop_module_loop rest
      end
  end.

(** [AudioRouter._find_mic_loop_module] *)
Definition _find_mic_loop_module : M Audio (option str) :=
  result <- _run list_modules_cmd ;;
  if negb (returncode result =? 0) then ret None
  else ret (_find_mic_loop_module_loop (splitlines (stdout result))).

Definition loopback_args (source_name : str) : list str :=
  [lit "source=" ++ source_name; lit "sink=" ++ SINK_NAME; lit "latency_msec=20"].

Definition load_loopback_cmd (source_name : str) : list str :=
  lit "pactl" :: lit "load-module" :: lit "module-loopback" :: loopback_args source_name.

(** The second half of [connect_input_source_to_soundpad]: load the new
    loopback. *)
Definition connect_load (source_name : str) : M Audio (bool * str) :=
  result <- _run (load_loopback_cmd source_name) ;;
  if negb (returncode result =? 0) then ret (false, error_text result)
  else set_mic_loop_module_id (Some (strip (stdout result))) ;;;
       ret (true, lit "Mic source connected: " ++ source_name).

(** [AudioRouter.connect_input_source_to_soundpad] *)
Definition connect_input_source_to_soundpad (source_name : str) : M Audio (bool * str) :=
  current <- _find_mic_loop_module ;;
  match current with
  | Some (c :: module_id) =>
      unload <- _run (unload_cmd (c :: module_id)) ;;
      if negb (returncode unload =? 0) then ret (false, error_text unload)
      else set_mic_loop_module_id None ;;; connect_load source_name
  | _ => connect_load source_name
  end.

(** [AudioRouter.disconnect_input_source_from_soundpad] *)
Definition disconnect_input_source_from_soundpad : M Audio (bool * str) :=
  module_id <- _find_mic_loop_module ;;
  match module_id with
  | Some (c :: module_id) =>
      result <- _run (unload_cmd (c :: module_id)) ;;
      if negb (returncode result =? 0) then ret (false, error_text result)
      else set_mic_loop_module_id None ;;; ret (true, lit "Mic source disconnected")
  | _ => ret (true, lit "Mic source already disconnected")
  end.

(** A server with two foreign modules and nothing of the soundpad. *)
Definition demo_server : Server :=
  {| pactl_present := true;
     modules := [ {| m_index := 0; m_name := lit "module-device-restore"; m_argument := [] |};
                  {| m_index := 1; m_name := lit "module-loopback";
                     m_argument := lit "source=soundpad_sink.monitor sink=@DEFAULT_SINK@ latency_msec=30" |} ];
     next_index := 2;
     sources_text := lit "55" ++ tab :: lit "alsa_input.usb" ++ tab :: lit "PipeWire" ++ [newline]
                  ++ lit "56" ++ tab :: lit "soundpad_sink.monitor" ++ tab :: lit "PipeWire" ++ [newline]
                  ++ lit "57" ++ tab :: lit "soundpad_mic" ++ tab :: lit "PipeWire" ++ [newline];
     info_text := lit "Server Name: PulseAudio" ++ [newline]
                  ++ lit "Default Sink: alsa_output" ++ [newline]
                  ++ lit "Default Source: alsa_input.usb" ++ [newline];
     faults := [];
     issued := [] |}.

Definition demo_audio : Audio := {| router := AudioRouter_init; server := demo_server |}.


(** ** Vocabulary of the statements about the router *)

(** A character that can stand inside one column of a listing line. *)
Definition field_char (c : ascii) : bool :=
  negb (is_linebreak c) && negb (bool_decide (c = tab)).

(** A text without tab and line-break characters. *)
Definition clean (s : str) : bool := forallb field_char s.

(** The listing of the module graph can be read back column by column. *)
Definition wf_modules (ms : list Module_) : bool :=
  forallb (fun m => clean (m_name m) && clean (m_argument m)) ms.

(** A mic-passthrough loopback: a [module-loopback] whose arguments contain
    [sink=soundpad_sink] and not [source=soundpad_sink.monitor]. *)
Definition is_mic_loop (m : Module_) : bool :=
  eqb (m_name m) (lit "module-loopback") && is_mic_loop_args (m_argument m).

Definition mic_loops (ms : list Module_) : list Module_ := List.filter is_mic_loop ms.

(** A module of the given type whose arguments contain the token. *)
Definition is_module (module_name token : str) (m : Module_) : bool :=
  eqb (m_name m) module_name && contains token (m_argument m).


(** The module-list query, run now, exits with status 0. *)
Definition modules_query_ok (a : Audio) : bool :=
  match fst (_run list_modules_cmd a) with
  | Return cp => returncode cp =? 0
  | Raise _ => false
  end.

(** The call returned [(True, message)]. *)
Definition succeeded (r : outcome (bool * str)) : bool :=
  match r with
  | Return (true, _) => true
  | _ => false
  end.

(** The identifier that the listing shows for a module. *)
Definition listed_id (m : Module_) : str := str_of_N (m_index m).

(** The commands of one successful connect call, given what its discovery
    query returned. *)
Definition connect_commands (discovered : outcome (option str)) (source_name : str)
    : list (list str) :=
  list_modules_cmd ::
  match discovered with
  | Return (Some (c :: module_id)) => [unload_cmd (c :: module_id)]
  | _ => []
  end ++ [load_loopback_cmd source_name].

(** The loopback module that a successful connect call loads. *)
Definition loopback_module (index : N) (source_name : str) : Module_ :=
  {| m_index := index; m_name := lit "module-loopback";
     m_argument := join (lit " ") (loopback_args source_name) |}.

(** [demo_server] with a failing run scheduled third: the discovery query
    of the second call. *)
Definition flaky_server : Server :=
  {| pactl_present := true;
     modules := modules demo_server;
     next_index := next_index demo_server;
     sources_text := sources_text demo_server;
     info_text := info_text demo_server;
     faults := [Served; Served;
                Exits {| f_status := 1; f_signalled := false; f_stdout := [];
                         f_stderr := lit "Connection failure: Connection refused" ++ [newline] |}];
     issued := [] |}.

Definition flaky_audio : Audio := {| router := AudioRouter_init; server := flaky_server |}.

(** The control tool is installed and none of the next [n] runs is hit by
    a fault. *)
Definition goes_through (n : nat) (a : Audio) : bool :=
  pactl_present (server a) &&
  forallb (fun f => match f with Served => true | _ => false end)
          (firstn n (faults (server a))).






(** The run of a control command that the server refuses. *)
Definition refusal : Fault :=
  {| f_status := 1; f_signalled := false; f_stdout := [];
     f_stderr := lit "Failure: Module busy" ++ [newline] |}.

(** A server with a mic loopback loaded, on which the second coming run
    fails. *)
Definition routed_server : Server :=
  {| pactl_present := true;
     modules := modules demo_server ++ [loopback_module 2 (lit "alsa_input.usb")];
     next_index := 3;
     sources_text := sources_text demo_server;
     info_text := info_text demo_server;
     faults := [Served; Exits refusal];
     issued := [] |}.




(** A call of [subprocess.run] that raises. *)
Definition is_raising (f : Fate) : bool :=
  match f with
  | Unspawned _ | Undecodable => true
  | Served | Exits _ => false
  end.

(** None of the coming calls of [subprocess.run] raises: the control tool
    is installed, no argument vector is refused and every output is
    text. The runs may still fail with any exit status. *)
Definition runs_return (a : Audio) : bool :=
  pactl_present (server a) && forallb (fun f => negb (is_raising f)) (faults (server a)).

(** The exception is one that a coming call of [subprocess.run] raises on
    this server. *)
Definition raised_by_run (sv : Server) (e : exn) : Prop :=
  (pactl_present sv = false /\ e = FileNotFoundError) \/
  In (Unspawned e) (faults sv) \/
  (e = UnicodeDecodeError /\ In Undecodable (faults sv)).

(** The server after some runs: the control tool is where it was and the
    faults still to come are a tail of those that were to come. *)
Definition later (sv sv' : Server) : Prop :=
  pactl_present sv' = pactl_present sv /\
  exists k, faults sv' = skipn k (faults sv).

(** A computation on the router that raises nothing of its own: it leaves
    the server in a later state, and an exception that leaves it is one
    that [subprocess.run] raised. *)
Definition transparent {A} (m : M Audio A) : Prop :=
  forall a,
    later (server a) (server (snd (m a))) /\
    match fst (m a) with
    | Return _ => True
    | Raise e => raised_by_run (server a) e
    end.

(** A computation that returns and after which the runs still return. *)
Definition completes {A} (m : M Audio A) (a : Audio) : Prop :=
  exists x a', m a = (Return x, a') /\ runs_return a' = true.

(** ** Chord texts *)

Definition plus : ascii := "+"%char.

(** [[p.strip() for p in raw.split("+") if p.strip()]] *)
Definition chord_tokens (raw : str) : list str :=
  List.filter truthy (map strip (split plus raw)).

(** The [if]/[elif] chain on one modifier token: the name it stands for,
    or nothing for an unknown token. *)
Definition modifier_name (mod_ : str) : option str :=
  let lower := lower mod_ in
  if eqb lower (lit "ctrl") || eqb lower (lit "control") then Some (lit "control")
  else if eqb lower (lit "alt") then Some (lit "alt")
  else if eqb lower (lit "shift") then Some (lit "shift")
  else if eqb lower (lit "super") || eqb lower (lit "win") || eqb lower (lit "mod4")
  then Some (lit "super")
  else None.

(** The [for mod in parts[:-1]] loop of [_hotkey_to_parts]; an unknown
    token makes the whole function return [None]. *)
Fixpoint modifiers_loop (mods : gset str) (tokens : list str) : option (gset str) :=
  match tokens with
  | [] => Some mods
  | mod_ :: rest =>
      match modifier_name mod_ with
      | Some name => modifiers_loop (mods ∪ {[ name ]}) rest
      | None => None
      end
  end.

(** [GlobalHotkeyManager._hotkey_to_parts] *)
Definition _hotkey_to_parts (hotkey_text : str) : option (gset str * str) :=
  let raw := strip hotkey_text in
  if negb (truthy raw) then None
  else
    let parts := chord_tokens raw in
    match parts with
    | [] => None
    | _ =>
        let key_name := lower (List.last parts []) in
        match modifiers_loop ∅ (removelast parts) with
        | Some mods => Some (mods, key_name)
        | None => None
        end
    end.

(** Modelled from the spec: the serializer of the chord codec, which the
    source does not have. "Serialization is simply the reverse (join
    modifiers in canonical order + base key with [+])"; the canonical order
    is taken to be control, alt, shift, super, and a modifier is written
    with the name it has in the parsed set. *)
Definition canonical_modifiers : list str :=
  [lit "control"; lit "alt"; lit "shift"; lit "super"].

Definition serialize_chord (mods : gset str) (key_name : str) : str :=
  join [plus]
    (List.filter (fun name => bool_decide (name ∈ mods)) canonical_modifiers ++ [key_name]).

(** *** Vocabulary of the statements about chords *)

(** A character that is not white space, used as the default of [hd] and
    [last]. *)
Definition visible : ascii := "x"%char.

(** Neither the first nor the last character is white space. *)
Definition trimmed (s : str) : bool :=
  negb (isspace (hd visible s)) && negb (isspace (List.last s visible)).

Definition plus_free (s : str) : bool :=
  forallb (fun c => negb (bool_decide (c = plus))) s.

(** What [chord_tokens] produces: non-empty, trimmed, without [+]. *)
Definition is_token (s : str) : bool := truthy s && trimmed s && plus_free s.

(** ** The X server behind the hotkey manager *)

(** The modifier masks and modes of the X protocol, as [Xlib.X] names
    them. *)
Module X.
Definition ShiftMask : Z := 1.
Definition LockMask : Z := 2.
Definition ControlMask : Z := 4.
Definition Mod1Mask : Z := 8.
Definition Mod2Mask : Z := 16.
Definition Mod4Mask : Z := 64.
Definition GrabModeAsync : Z := 1.
End X.

(** Handles of the objects that [start] creates. *)
Inductive Display : Type := Display_ (connection : nat).
Inductive Window : Type := RootWindow (connection : nat).
Inductive Thread : Type := Thread_ (ident : nat).

(** What a hotkey triggers: the index of a clip, or a reserved name such as
    [__stop__] and [__ptt__]. *)
Inductive Action : Type :=
  | Clip (index : nat)
  | Named (name : str).

Inductive XRequest : Type :=
  | GrabKey (keycode mask : Z)
  | UngrabKey (keycode mask : Z).

(** How a grab request fares. python-xlib sends [grab_key] as a request
    without a reply: when the server denies the grab (another client holds
    the key under that mask) the [BadAccess] error comes back as an event,
    which [display.sync()] hands to the error handler of the display;
    neither [grab_key] nor [sync] raises it. The calls raise only when the
    library itself fails, as when the connection is lost. *)
Inductive GrabAnswer : Type :=
  | Granted             (* the server establishes the grab *)
  | Denied              (* the server answers [BadAccess]; the calls return *)
  | Lost (e : exn).     (* [grab_key] or [sync] raises [e] *)

(** The environment of the hotkey manager: whether python-xlib could be
    imported, whether the coming calls of the library raise, its symbol
    tables, the key grabs that this client holds and the grab requests it
    has sent. How a grab fares depends on the key and the mask only. *)
Record XServer : Type := {
  XLIB_AVAILABLE : bool;
  display_opens : bool;
  screen_answers : bool;
  thread_starts : bool;
  string_to_keysym : str -> Z;
  keysym_to_keycode : Z -> Z;
  grab_answer : Z -> Z -> GrabAnswer;
  ungrab_fails : Z -> Z -> bool;
  flush_fails : bool;
  close_fails : bool;
  connections : nat;
  grabs : list (Z * Z);
  requests : list XRequest
}.

(** The fields of a [GlobalHotkeyManager] object. *)
Record GlobalHotkeyManager : Type := {
  display : option Display;
  root : option Window;
  running : bool;
  thread : option Thread;
  bindings : gmap (Z * Z) Action;
  registered : list (Z * Z)
}.

(** [GlobalHotkeyManager.__init__] *)
Definition GlobalHotkeyManager_init : GlobalHotkeyManager :=
  {| display := None; root := None; running := false; thread := None;
     bindings := ∅; registered := [] |}.

(** The manager together with the X server. *)
Record Hotkeys : Type := {
  manager : GlobalHotkeyManager;
  xserver : XServer
}.

Definition set_manager (f : GlobalHotkeyManager -> GlobalHotkeyManager) : M Hotkeys unit :=
  modify (fun h => {| manager := f (manager h); xserver := xserver h |}).

Definition set_display (v : option Display) : M Hotkeys unit :=
  set_manager (fun m =>
    {| display := v; root := root m; running := running m; thread := thread m;
       bindings := bindings m; registered := registered m |}).

Definition set_root (v : option Window) : M Hotkeys unit :=
  set_manager (fun m =>
    {| display := display m; root := v; running := running m; thread := thread m;
       bindings := bindings m; registered := registered m |}).

Definition set_running (v : bool) : M Hotkeys unit :=
  set_manager (fun m =>
    {| display := display m; root := root m; running := v; thread := thread m;
       bindings := bindings m; registered := registered m |}).

Definition set_thread (v : option Thread) : M Hotkeys unit :=
  set_manager (fun m =>
    {| display := display m; root := root m; running := running m; thread := v;
       bindings := bindings m; registered := registered m |}).

Definition set_bindings (v : gmap (Z * Z) Action) : M Hotkeys unit :=
  set_manager (fun m =>
    {| display := display m; root := root m; running := running m; thread := thread m;
       bindings := v; registered := registered m |}).

Definition set_registered (v : list (Z * Z)) : M Hotkeys unit :=
  set_manager (fun m =>
    {| display := display m; root := root m; running := running m; thread := thread m;
       bindings := bindings m; registered := v |}).

Definition set_xserver (connections' : nat) (grabs' : list (Z * Z))
    (requests' : list XRequest) (xs : XServer) : XServer :=
  {| XLIB_AVAILABLE := XLIB_AVAILABLE xs; display_opens := display_opens xs;
     screen_answers := screen_answers xs; thread_starts := thread_starts xs;
     string_to_keysym := string_to_keysym xs; keysym_to_keycode := keysym_to_keycode xs;
     grab_answer := grab_answer xs; ungrab_fails := ungrab_fails xs;
     flush_fails := flush_fails xs; close_fails := close_fails xs;
     connections := connections'; grabs := grabs'; requests := requests' |}.

Definition modify_xserver (f : XServer -> XServer) : M Hotkeys unit :=
  modify (fun h => {| manager := manager h; xserver := f (xserver h) |}).

(** [xdisplay.Display()] *)
Definition Display_open : M Hotkeys Display :=
  opens <- gets (fun h => display_opens (xserver h)) ;;
  if negb opens then raise DisplayError
  else
    n <- gets (fun h => connections (xserver h)) ;;
    modify_xserver (fun xs => set_xserver (S n) (grabs xs) (requests xs) xs) ;;;
    ret (Display_ n).

(** [display.screen().root] *)
Definition screen_root (d : Display) : M Hotkeys Window :=
  answers <- gets (fun h => screen_answers (xserver h)) ;;
  if negb answers then raise DisplayError
  else match d with Display_ n => ret (RootWindow n) end.

(** [threading.Thread(target=self._loop, daemon=True)]; the loop itself runs
    in the background and is not part of this model. *)
Definition Thread_new : M Hotkeys Thread :=
  n <- gets (fun h => connections (xserver h)) ;;
  ret (Thread_ n).

(** [thread.start()] *)
Definition Thread_start (t : Thread) : M Hotkeys unit :=
  starts <- gets (fun h => thread_starts (xserver h)) ;;
  if negb starts then raise RuntimeError else ret tt.

(** [thread.join(timeout=0.5)] *)
Definition Thread_join (t : Thread) : M Hotkeys unit := ret tt.

Definition pair_eqb (p q : Z * Z) : bool := bool_decide (p = q).

(** [root.ungrab_key(keycode, mask)] *)
Definition ungrab_key (keycode mask : Z) : M Hotkeys unit :=
  modify_xserver (fun xs =>
    set_xserver (connections xs) (grabs xs) (requests xs ++ [UngrabKey keycode mask]) xs) ;;;
  fails <- gets (fun h => ungrab_fails (xserver h) keycode mask) ;;
  if fails then raise DisplayError
  else modify_xserver (fun xs =>
         set_xserver (connections xs)
           (List.filter (fun g => negb (pair_eqb g (keycode, mask))) (grabs xs))
           (requests xs) xs).

(** [root.grab_key(keycode, mask, True, X.GrabModeAsync, X.GrabModeAsync)]
    followed by [display.sync()]: the request goes out and the server has
    answered it when [sync] returns. A denied grab leaves no trace in the
    caller. *)
Definition grab_key_sync (keycode mask : Z) : M Hotkeys unit :=
  modify_xserver (fun xs =>
    set_xserver (connections xs) (grabs xs) (requests xs ++ [GrabKey keycode mask]) xs) ;;;
  answer <- gets (fun h => grab_answer (xserver h) keycode mask) ;;
  match answer with
  | Granted => modify_xserver (fun xs =>
                 set_xserver (connections xs) (grabs xs ++ [(keycode, mask)]) (requests xs) xs)
  | Denied => ret tt
  | Lost e => raise e
  end.

(** [display.flush()] *)
Definition flush : M Hotkeys unit :=
  fails <- gets (fun h => flush_fails (xserver h)) ;;
  if fails then raise DisplayError else ret tt.

(** [display.close()] *)
Definition Display_close : M Hotkeys unit :=
  fails <- gets (fun h => close_fails (xserver h)) ;;
  if fails then raise DisplayError
  else modify_xserver (fun xs => set_xserver (connections xs) [] (requests xs) xs).

(** ** GlobalHotkeyManager *)

(** [GlobalHotkeyManager._modifier_mask] *)
Definition _modifier_mask (mods : gset str) : Z :=
  let mask := 0 in
  let mask := if bool_decide (lit "control" ∈ mods) then Z.lor mask X.ControlMask else mask in
  let mask := if bool_decide (lit "alt" ∈ mods) then Z.lor mask X.Mod1Mask else mask in
  let mask := if bool_decide (lit "shift" ∈ mods) then Z.lor mask X.ShiftMask else mask in
  let mask := if bool_decide (lit "super" ∈ mods) then Z.lor mask X.Mod4Mask else mask in
  mask.

(** [special.get(key_name, key_name)] *)
Definition special (key_name : str) : str :=
  if eqb key_name (lit "\") then lit "backslash"
  else if eqb key_name (lit "/") then lit "slash"
  else if eqb key_name (lit "-") then lit "minus"
  else if eqb key_name (lit "=") then lit "equal"
  else if eqb key_name (lit "`") then lit "grave"
  else key_name.

(** [GlobalHotkeyManager._keysym_to_keycode]; [None] and [0] are both
    returned as [None]. *)
Definition _keysym_to_keycode (xs : XServer) (key_name : str) : option Z :=
  let key_name := special key_name in
  let key_name :=
    if startswith (lit "f") key_name && isdigit (tail1 key_name)
    then upper key_name else key_name in
  let keysym := string_to_keysym xs key_name in
  if keysym =? 0 then None
  else
    let keycode := keysym_to_keycode xs keysym in
    if keycode =? 0 then None else Some keycode.

(** [GlobalHotkeyManager.start] *)
Definition start : M Hotkeys bool :=
  available <- gets (fun h => XLIB_AVAILABLE (xserver h)) ;;
  is_running <- gets (fun h => running (manager h)) ;;
  if negb available || is_running then ret false
  else
    try_except
      (d <- Display_open ;;
       set_display (Some d) ;;;
       w <- screen_root d ;;
       set_root (Some w) ;;;
       set_running true ;;;
       t <- Thread_new ;;
       set_thread (Some t) ;;;
       Thread_start t ;;;
       ret true)
      (set_display None ;;;
       set_root None ;;;
       set_running false ;;;
       ret false).

(** The [for keycode, mask in self.registered] loop of [_unregister_all]. *)
Fixpoint _unregister_all_loop (pairs : list (Z * Z)) : M Hotkeys unit :=
  match pairs with
  | [] => ret tt
  | (keycode, mask) :: rest =>
      try_except (ungrab_key keycode mask) (ret tt) ;;;
      _unregister_all_loop rest
  end.

(** [GlobalHotkeyManager._unregister_all] *)
Definition _unregister_all : M Hotkeys unit :=
  d <- gets (fun h => display (manager h)) ;;
  w <- gets (fun h => root (manager h)) ;;
  match d, w with
  | Some _, Some _ =>
      pairs <- gets (fun h => registered (manager h)) ;;
      _unregister_all_loop pairs ;;;
      set_registered [] ;;;
      try_except flush (ret tt)
  | _, _ => ret tt
  end.

(** [GlobalHotkeyManager.stop] *)
Definition stop : M Hotkeys unit :=
  is_running <- gets (fun h => running (manager h)) ;;
  if negb is_running then ret tt
  else
    set_running false ;;;
    t <- gets (fun h => thread (manager h)) ;;
    match t with Some t => Thread_join t | None => ret tt end ;;;
    _unregister_all ;;;
    try_except
      (d <- gets (fun h => display (manager h)) ;;
       match d with Some _ => Display_close | None => ret tt end)
      (ret tt) ;;;
    set_display None ;;;
    set_root None.

(** The masks of the [for extra in (0, X.LockMask, X.Mod2Mask,
    X.LockMask | X.Mod2Mask)] loop. *)
Definition lock_variants : list Z :=
  [0; X.LockMask; X.Mod2Mask; Z.lor X.LockMask X.Mod2Mask].

(** That loop: one grab per variant, one whose calls raise skipped;
    returns [any_grab]. *)
Fixpoint grab_variants (keycode base_mask : Z) (extras : list Z) (any_grab : bool)
    : M Hotkeys bool :=
  match extras with
  | [] => ret any_grab
  | extra :: rest =>
      let mask := Z.lor base_mask extra in
      granted <- try_except
        (grab_key_sync keycode mask ;;;
         pairs <- gets (fun h => registered (manager h)) ;;
         set_registered (pairs ++ [(keycode, mask)]) ;;;
         ret true)
        (ret false) ;;
      grab_variants keycode base_mask rest (if granted then true else any_grab)
  end.

(** The [for action, hotkey in hotkey_actions] loop of [register]. *)
Fixpoint register_loop (hotkey_actions : list (Action * str)) (conflicts : list str)
    : M Hotkeys (list str) :=
  match hotkey_actions with
  | [] => ret conflicts
  | (action, hotkey) :: rest =>
      match _hotkey_to_parts hotkey with
      | None => register_loop rest conflicts
      | Some (mods, key_name) =>
          xs <- gets xserver ;;
          match _keysym_to_keycode xs key_name with
          | None => register_loop rest (conflicts ++ [hotkey])
          | Some keycode =>
              let base_mask := _modifier_mask mods in
              any_grab <- grab_variants keycode base_mask lock_variants false ;;
              if any_grab then
                table <- gets (fun h => bindings (manager h)) ;;
                set_bindings (<[ (keycode, base_mask) := action ]> table) ;;;
                register_loop rest conflicts
              else register_loop rest (conflicts ++ [hotkey])
          end
      end
  end.

(** [GlobalHotkeyManager.register] *)
Definition register (hotkey_actions : list (Action * str)) : M Hotkeys (list str) :=
  is_running <- gets (fun h => running (manager h)) ;;
  d <- gets (fun h => display (manager h)) ;;
  w <- gets (fun h => root (manager h)) ;;
  match is_running, d, w with
  | true, Some _, Some _ =>
      _unregister_all ;;;
      set_bindings ∅ ;;;
      conflicts <- register_loop hotkey_actions [] ;;
      try_except flush (ret tt) ;;;
      ret conflicts
  | _, _, _ => ret []
  end.

(** *** Vocabulary of the statements about the manager *)

(** The server grants the grab of this key under this mask. *)
Definition granted (xs : XServer) (keycode mask : Z) : bool :=
  match grab_answer xs keycode mask with
  | Granted => true
  | _ => false
  end.

(** The grab calls for this key under this mask return, so that [register]
    records the pair: the grab is granted, or denied by the server. *)
Definition recorded (xs : XServer) (keycode mask : Z) : bool :=
  match grab_answer xs keycode mask with
  | Lost _ => false
  | _ => true
  end.

(** The masks under which a chord is grabbed. *)
Definition variant_masks (base_mask : Z) : list Z := map (Z.lor base_mask) lock_variants.

Definition any_granted (xs : XServer) (keycode base_mask : Z) : bool :=
  existsb (granted xs keycode) (variant_masks base_mask).

Definition any_recorded (xs : XServer) (keycode base_mask : Z) : bool :=
  existsb (recorded xs keycode) (variant_masks base_mask).

(** What [register] makes of a chord text: nothing when it does not parse,
    else the keycode of its base key, if it has one, and its base mask. *)
Definition resolve (xs : XServer) (hotkey : str) : option (option Z * Z) :=
  match _hotkey_to_parts hotkey with
  | None => None
  | Some (mods, key_name) => Some (_keysym_to_keycode xs key_name, _modifier_mask mods)
  end.

(** The grab requests that one binding gives rise to. *)
Definition grab_requests (xs : XServer) (entry : Action * str) : list XRequest :=
  match resolve xs (snd entry) with
  | Some (Some keycode, base_mask) => map (GrabKey keycode) (variant_masks base_mask)
  | _ => []
  end.

(** A chord that [register] reports: it parses but has no keycode, or the
    grab calls raise for each of its variants. *)
Definition in_conflict (xs : XServer) (hotkey : str) : bool :=
  match resolve xs hotkey with
  | None => false
  | Some (None, _) => true
  | Some (Some keycode, base_mask) => negb (any_recorded xs keycode base_mask)
  end.

Definition conflicts_of (xs : XServer) (entries : list (Action * str)) : list str :=
  List.filter (in_conflict xs) (map snd entries).

(** The action table after the bindings have been gone through in order. *)
Fixpoint table_of (xs : XServer) (entries : list (Action * str))
    (table : gmap (Z * Z) Action) : gmap (Z * Z) Action :=
  match entries with
  | [] => table
  | (action, hotkey) :: rest =>
      match resolve xs hotkey with
      | Some (Some keycode, base_mask) =>
          table_of xs rest
            (if any_recorded xs keycode base_mask
             then <[ (keycode, base_mask) := action ]> table else table)
      | _ => table_of xs rest table
      end
  end.

(** The state after the grabs of one key under the given masks: the
    manager records the pairs whose calls returned, the server holds those
    it granted. *)
Definition note_grabs (keycode : Z) (masks : list Z) (h : Hotkeys) : Hotkeys :=
  let m := manager h in
  let xs := xserver h in
  let noted := map (pair keycode) (List.filter (recorded xs keycode) masks) in
  let won := map (pair keycode) (List.filter (granted xs keycode) masks) in
  {| manager :=
       {| display := display m; root := root m; running := running m; thread := thread m;
          bindings := bindings m; registered := registered m ++ noted |};
     xserver :=
       set_xserver (connections xs) (grabs xs ++ won)
         (requests xs ++ map (GrabKey keycode) masks) xs |}.

Definition note_binding (key : Z * Z) (action : Action) (h : Hotkeys) : Hotkeys :=
  let m := manager h in
  {| manager :=
       {| display := display m; root := root m; running := running m; thread := thread m;
          bindings := <[ key := action ]> (bindings m); registered := registered m |};
     xserver := xserver h |}.

(** The state after the loop of [register]. *)
Fixpoint note_entries (entries : list (Action * str)) (h : Hotkeys) : Hotkeys :=
  match entries with
  | [] => h
  | (action, hotkey) :: rest =>
      match resolve (xserver h) hotkey with
      | Some (Some keycode, base_mask) =>
          let h1 := note_grabs keycode (variant_masks base_mask) h in
          note_entries rest
            (if any_recorded (xserver h) keycode base_mask
             then note_binding (keycode, base_mask) action h1 else h1)
      | _ => note_entries rest h
      end
  end.

(** The state after the loop of [_unregister_all]. *)
Fixpoint note_ungrabs (pairs : list (Z * Z)) (h : Hotkeys) : Hotkeys :=
  match pairs with
  | [] => h
  | (keycode, mask) :: rest =>
      let xs := xserver h in
      note_ungrabs rest
        {| manager := manager h;
           xserver :=
             set_xserver (connections xs)
               (if ungrab_fails xs keycode mask then grabs xs
                else List.filter (fun g => negb (pair_eqb g (keycode, mask))) (grabs xs))
               (requests xs ++ [UngrabKey keycode mask]) xs |}
  end.

(** The state in which [register] starts its loop: the old grabs released,
    the two tables empty. *)
Definition note_reset (h : Hotkeys) : Hotkeys :=
  let h1 := note_ungrabs (registered (manager h)) h in
  let m := manager h1 in
  {| manager :=
       {| display := display m; root := root m; running := running m; thread := thread m;
          bindings := ∅; registered := [] |};
     xserver := xserver h1 |}.

(** The X server and the manager of the examples: digits and letters have
    the keycode of their character code plus 8, [backslash] has 51,
    another client holds Alt+2 under every lock variant and Alt+3 with
    Num Lock off, and the connection fails at every grab of the key 4. *)
Definition demo_keysym (name : str) : Z :=
  match name with
  | [c] => Z.of_N (code c)
  | _ => if eqb name (lit "backslash") then 92 else 0
  end.

Definition demo_keycode (keysym : Z) : Z :=
  if keysym =? 92 then 51 else keysym + 8.

Definition demo_grab_answer (keycode mask : Z) : GrabAnswer :=
  if (keycode =? 58) && (Z.land mask 8 =? 8) then Denied
  else if (keycode =? 59) && (Z.land mask 16 =? 0) then Denied
  else if keycode =? 60 then Lost DisplayError
  else Granted.

Definition demo_xserver : XServer :=
  {| XLIB_AVAILABLE := true; display_opens := true; screen_answers := true;
     thread_starts := true;
     string_to_keysym := demo_keysym; keysym_to_keycode := demo_keycode;
     grab_answer := demo_grab_answer; ungrab_fails := fun _ _ => false;
     flush_fails := false; close_fails := false;
     connections := 1; grabs := []; requests := [] |}.

Definition demo_manager : GlobalHotkeyManager :=
  {| display := Some (Display_ 0); root := Some (RootWindow 0); running := true;
     thread := Some (Thread_ 0); bindings := ∅; registered := [] |}.

Definition demo_hotkeys : Hotkeys := {| manager := demo_manager; xserver := demo_xserver |}.

(** A session in which python-xlib is missing. *)
Definition headless_hotkeys : Hotkeys :=
  {| manager := GlobalHotkeyManager_init;
     xserver :=
       {| XLIB_AVAILABLE := false; display_opens := false; screen_answers := false;
          thread_starts := true;
          string_to_keysym := demo_keysym; keysym_to_keycode := demo_keycode;
          grab_answer := demo_grab_answer; ungrab_fails := fun _ _ => false;
          flush_fails := false; close_fails := false;
          connections := 0; grabs := []; requests := [] |} |}.

(** A session in which python-xlib is installed but no display can be
    opened. *)
Definition displayless_hotkeys : Hotkeys :=
  {| manager := GlobalHotkeyManager_init;
     xserver :=
       {| XLIB_AVAILABLE := true; display_opens := false; screen_answers := false;
          thread_starts := true;
          string_to_keysym := demo_keysym; keysym_to_keycode := demo_keycode;
          grab_answer := demo_grab_answer; ungrab_fails := fun _ _ => false;
          flush_fails := false; close_fails := false;
          connections := 0; grabs := []; requests := [] |} |}.

Definition demo_entries : list (Action * str) :=
  [ (Clip 0, lit "Alt+1"); (Clip 1, lit "Alt+2"); (Clip 2, lit "Shift+Alt+3");
    (Clip 3, lit "Hyper+4"); (Clip 4, lit "Alt+F13");
    (Named (lit "__stop__"), lit "Alt+\") ].

(** A session in which [pactl] is not installed. *)
Definition bare_audio : Audio :=
  {| router := AudioRouter_init;
     server := {| pactl_present := false; modules := []; next_index := 0;
                  sources_text := []; info_text := []; faults := []; issued := [] |} |}.

(** [demo_server] when what the coming run prints is not text. *)
Definition garbled_audio : Audio :=
  {| router := AudioRouter_init;
     server := {| pactl_present := true; modules := modules demo_server;
                  next_index := next_index demo_server;
                  sources_text := sources_text demo_server;
                  info_text := info_text demo_server;
                  faults := [Undecodable]; issued := [] |} |}.

(** ** SoundpadApp: push-to-talk and clip hotkeys *)

(** One clip of the active profile. *)
Record ClipEntry : Type := {
  label : str;
  path : str;
  hotkey : str
}.

(** The operations of the router that the application invokes. *)
Inductive RouterCall : Type :=
  | CallConnect (source_name : str)
  | CallDisconnect.

(** What [_save_settings] writes to the settings file. *)
Record Settings : Type := {
  input_source : str;
  saved_push_to_talk : bool;
  saved_ptt_hotkey : str
}.

(** The machine outside the sound server and the X server: what befalls
    the coming file writes (one entry per write, [None] for a write that
    succeeds, [Some e] for one that raises [e], an [OSError] as a rule),
    what the settings file and the profile file hold for the active
    profile, how many backup snapshots have been written, which paths
    exist, whether [ffmpeg] is on [PATH], and whether starting a process
    fails (with the text of the exception). *)
Record Host : Type := {
  write_faults : list (option exn);
  settings_file : option Settings;
  profiles_file : option (list ClipEntry);
  snapshots : nat;
  path_exists : str -> bool;
  ffmpeg_present : bool;
  popen_error : option str
}.

Definition set_files (faults : list (option exn)) (settings : option Settings)
    (profiles : option (list ClipEntry)) (written : nat) (hs : Host) : Host :=
  {| write_faults := faults; settings_file := settings; profiles_file := profiles;
     snapshots := written; path_exists := path_exists hs;
     ffmpeg_present := ffmpeg_present hs; popen_error := popen_error hs |}.

(** The fields of [SoundpadApp] that push-to-talk, the clip hotkeys and
    playback use, with the router and the hotkey manager it owns and the
    machine it runs on. [volume] and [loop_enabled] are the values of the
    Tk variables of the same names, and [player_process] is the argument
    vector of the player started last, if it has not been ended. Two
    fields are not in the source and only record what happened:
    [router_calls], the router operations invoked so far, and [dialogs],
    the message boxes shown so far (title and text). *)
Record SoundpadApp : Type := {
  audio : Audio;
  global_hotkeys : Hotkeys;
  clips : list ClipEntry;
  selected_index : option nat;
  bound_hotkeys : list str;
  selected_input_source : str;
  push_to_talk_enabled : bool;
  ptt_hotkey : str;
  global_hotkeys_active : bool;
  last_hotkey_conflicts : list str;
  ptt_pressed : bool;
  status_text : str;
  player_process : option (list str);
  volume : Z;
  loop_enabled : bool;
  host : Host;
  router_calls : list RouterCall;
  dialogs : list (str * str)
}.

Definition set_audio (v : Audio) (s : SoundpadApp) : SoundpadApp :=
  {| audio := v; global_hotkeys := global_hotkeys s; clips := clips s;
     selected_index := selected_index s; bound_hotkeys := bound_hotkeys s;
     selected_input_source := selected_input_source s;
     push_to_talk_enabled := push_to_talk_enabled s; ptt_hotkey := ptt_hotkey s;
     global_hotkeys_active := global_hotkeys_active s;
     last_hotkey_conflicts := last_hotkey_conflicts s; ptt_pressed := ptt_pressed s;
     status_text := status_text s; player_process := player_process s; volume := volume s;
     loop_enabled := loop_enabled s; host := host s; router_calls := router_calls s;
     dialogs := dialogs s |}.

Definition set_global_hotkeys (v : Hotkeys) (s : SoundpadApp) : SoundpadApp :=
  {| audio := audio s; global_hotkeys := v; clips := clips s;
     selected_index := selected_index s; bound_hotkeys := bound_hotkeys s;
     selected_input_source := selected_input_source s;
     push_to_talk_enabled := push_to_talk_enabled s; ptt_hotkey := ptt_hotkey s;
     global_hotkeys_active := global_hotkeys_active s;
     last_hotkey_conflicts := last_hotkey_conflicts s; ptt_pressed := ptt_pressed s;
     status_text := status_text s; player_process := player_process s; volume := volume s;
     loop_enabled := loop_enabled s; host := host s; router_calls := router_calls s;
     dialogs := dialogs s |}.

Definition set_clips (v : list ClipEntry) (s : SoundpadApp) : SoundpadApp :=
  {| audio := audio s; global_hotkeys := global_hotkeys s; clips := v;
     selected_index := selected_index s; bound_hotkeys := bound_hotkeys s;
     selected_input_source := selected_input_source s;
     push_to_talk_enabled := push_to_talk_enabled s; ptt_hotkey := ptt_hotkey s;
     global_hotkeys_active := global_hotkeys_active s;
     last_hotkey_conflicts := last_hotkey_conflicts s; ptt_pressed := ptt_pressed s;
     status_text := status_text s; player_process := player_process s; volume := volume s;
     loop_enabled := loop_enabled s; host := host s; router_calls := router_calls s;
     dialogs := dialogs s |}.

Definition set_selected_index (v : option nat) (s : SoundpadApp) : SoundpadApp :=
  {| audio := audio s; global_hotkeys := global_hotkeys s; clips := clips s;
     selected_index := v; bound_hotkeys := bound_hotkeys s;
     selected_input_source := selected_input_source s;
     push_to_talk_enabled := push_to_talk_enabled s; ptt_hotkey := ptt_hotkey s;
     global_hotkeys_active := global_hotkeys_active s;
     last_hotkey_conflicts := last_hotkey_conflicts s; ptt_pressed := ptt_pressed s;
     status_text := status_text s; player_process := player_process s; volume := volume s;
     loop_enabled := loop_enabled s; host := host s; router_calls := router_calls s;
     dialogs := dialogs s |}.

Definition set_bound_hotkeys (v : list str) (s : SoundpadApp) : SoundpadApp :=
  {| audio := audio s; global_hotkeys := global_hotkeys s; clips := clips s;
     selected_index := selected_index s; bound_hotkeys := v;
     selected_input_source := selected_input_source s;
     push_to_talk_enabled := push_to_talk_enabled s; ptt_hotkey := ptt_hotkey s;
     global_hotkeys_active := global_hotkeys_active s;
     last_hotkey_conflicts := last_hotkey_conflicts s; ptt_pressed := ptt_pressed s;
     status_text := status_text s; player_process := player_process s; volume := volume s;
     loop_enabled := loop_enabled s; host := host s; router_calls := router_calls s;
     dialogs := dialogs s |}.

Definition set_last_hotkey_conflicts (v : list str) (s : SoundpadApp) : SoundpadApp :=
  {| audio := audio s; global_hotkeys := global_hotkeys s; clips := clips s;
     selected_index := selected_index s; bound_hotkeys := bound_hotkeys s;
     selected_input_source := selected_input_source s;
     push_to_talk_enabled := push_to_talk_enabled s; ptt_hotkey := ptt_hotkey s;
     global_hotkeys_active := global_hotkeys_active s; last_hotkey_conflicts := v;
     ptt_pressed := ptt_pressed s; status_text := status_text s;
     player_process := player_process s; volume := volume s;
     loop_enabled := loop_enabled s; host := host s; router_calls := router_calls s;
     dialogs := dialogs s |}.

Definition set_ptt_pressed (v : bool) (s : SoundpadApp) : SoundpadApp :=
  {| audio := audio s; global_hotkeys := global_hotkeys s; clips := clips s;
     selected_index := selected_index s; bound_hotkeys := bound_hotkeys s;
     selected_input_source := selected_input_source s;
     push_to_talk_enabled := push_to_talk_enabled s; ptt_hotkey := ptt_hotkey s;
     global_hotkeys_active := global_hotkeys_active s;
     last_hotkey_conflicts := last_hotkey_conflicts s; ptt_pressed := v;
     status_text := status_text s; player_process := player_process s; volume := volume s;
     loop_enabled := loop_enabled s; host := host s; router_calls := router_calls s;
     dialogs := dialogs s |}.

Definition set_status_text (v : str) (s : SoundpadApp) : SoundpadApp :=
  {| audio := audio s; global_hotkeys := global_hotkeys s; clips := clips s;
     selected_index := selected_index s; bound_hotkeys := bound_hotkeys s;
     selected_input_source := selected_input_source s;
     push_to_talk_enabled := push_to_talk_enabled s; ptt_hotkey := ptt_hotkey s;
     global_hotkeys_active := global_hotkeys_active s;
     last_hotkey_conflicts := last_hotkey_conflicts s; ptt_pressed := ptt_pressed s;
     status_text := v; player_process := player_process s; volume := volume s;
     loop_enabled := loop_enabled s; host := host s; router_calls := router_calls s;
     dialogs := dialogs s |}.

Definition set_player_process (v : option (list str)) (s : SoundpadApp) : SoundpadApp :=
  {| audio := audio s; global_hotkeys := global_hotkeys s; clips := clips s;
     selected_index := selected_index s; bound_hotkeys := bound_hotkeys s;
     selected_input_source := selected_input_source s;
     push_to_talk_enabled := push_to_talk_enabled s; ptt_hotkey := ptt_hotkey s;
     global_hotkeys_active := global_hotkeys_active s;
     last_hotkey_conflicts := last_hotkey_conflicts s; ptt_pressed := ptt_pressed s;
     status_text := status_text s; player_process := v; volume := volume s;
     loop_enabled := loop_enabled s; host := host s; router_calls := router_calls s;
     dialogs := dialogs s |}.

Definition set_host (v : Host) (s : SoundpadApp) : SoundpadApp :=
  {| audio := audio s; global_hotkeys := global_hotkeys s; clips := clips s;
     selected_index := selected_index s; bound_hotkeys := bound_hotkeys s;
     selected_input_source := selected_input_source s;
     push_to_talk_enabled := push_to_talk_enabled s; ptt_hotkey := ptt_hotkey s;
     global_hotkeys_active := global_hotkeys_active s;
     last_hotkey_conflicts := last_hotkey_conflicts s; ptt_pressed := ptt_pressed s;
     status_text := status_text s; player_process := player_process s; volume := volume s;
     loop_enabled := loop_enabled s; host := v; router_calls := router_calls s;
     dialogs := dialogs s |}.

Definition set_router_calls (v : list RouterCall) (s : SoundpadApp) : SoundpadApp :=
  {| audio := audio s; global_hotkeys := global_hotkeys s; clips := clips s;
     selected_index := selected_index s; bound_hotkeys := bound_hotkeys s;
     selected_input_source := selected_input_source s;
     push_to_talk_enabled := push_to_talk_enabled s; ptt_hotkey := ptt_hotkey s;
     global_hotkeys_active := global_hotkeys_active s;
     last_hotkey_conflicts := last_hotkey_conflicts s; ptt_pressed := ptt_pressed s;
     status_text := status_text s; player_process := player_process s; volume := volume s;
     loop_enabled := loop_enabled s; host := host s; router_calls := v;
     dialogs := dialogs s |}.

Definition set_dialogs (v : list (str * str)) (s : SoundpadApp) : SoundpadApp :=
  {| audio := audio s; global_hotkeys := global_hotkeys s; clips := clips s;
     selected_index := selected_index s; bound_hotkeys := bound_hotkeys s;
     selected_input_source := selected_input_source s;
     push_to_talk_enabled := push_to_talk_enabled s; ptt_hotkey := ptt_hotkey s;
     global_hotkeys_active := global_hotkeys_active s;
     last_hotkey_conflicts := last_hotkey_conflicts s; ptt_pressed := ptt_pressed s;
     status_text := status_text s; player_process := player_process s; volume := volume s;
     loop_enabled := loop_enabled s; host := host s; router_calls := router_calls s;
     dialogs := v |}.

(** [self.router.operation(...)]: the call is recorded, then runs on the
    router of the application. *)
Definition call_router {A} (call : RouterCall) (operation : M Audio A) : M SoundpadApp A :=
  fun s =>
    let s := set_router_calls (router_calls s ++ [call]) s in
    let '(r, a) := operation (audio s) in
    (r, set_audio a s).

(** [self.global_hotkeys.register(entries)] *)
Definition call_register (entries : list (Action * str)) : M SoundpadApp (list str) :=
  fun s =>
    let '(r, h) := register entries (global_hotkeys s) in
    (r, set_global_hotkeys h s).

(** [messagebox.showerror], [showwarning] and [showinfo] *)
Definition messagebox (title text : str) : M SoundpadApp unit :=
  modify (fun s => set_dialogs (dialogs s ++ [(title, text)]) s).

(** [CONFIG_DIR.mkdir(parents=True, exist_ok=True)] followed by
    [file.write_text(json.dumps(data, indent=2))]: the next entry of the
    schedule tells whether the write raises; when it does not, [store]
    puts the data in the file. No caller in the application handles the
    exception. *)
Definition write_text (store : Host -> Host) : M SoundpadApp unit :=
  fun s =>
    let hs := host s in
    match write_faults hs with
    | Some e :: rest =>
        (Raise e,
         set_host (set_files rest (settings_file hs) (profiles_file hs) (snapshots hs) hs) s)
    | None :: rest =>
        (Return tt,
         set_host (store (set_files rest (settings_file hs) (profiles_file hs)
                            (snapshots hs) hs)) s)
    | [] => (Return tt, set_host (store hs) s)
    end.

(** [SoundpadApp._save_settings] *)
Definition _save_settings : M SoundpadApp unit :=
  data <- gets (fun s => {| input_source := strip (selected_input_source s);
                            saved_push_to_talk := push_to_talk_enabled s;
                            saved_ptt_hotkey := strip (ptt_hotkey s) |}) ;;
  write_text (fun hs =>
    set_files (write_faults hs) (Some data) (profiles_file hs) (snapshots hs) hs).

(** [SoundpadApp._backup_profiles_snapshot]: one more file in the backup
    directory; removing the oldest snapshots is guarded. *)
Definition _backup_profiles_snapshot : M SoundpadApp unit :=
  write_text (fun hs =>
    set_files (write_faults hs) (settings_file hs) (profiles_file hs) (S (snapshots hs)) hs).

(** [SoundpadApp._save_profiles], for the clips of the active profile. *)
Definition _save_profiles : M SoundpadApp unit :=
  cs <- gets clips ;;
  write_text (fun hs =>
    set_files (write_faults hs) (settings_file hs) (Some cs) (snapshots hs) hs) ;;;
  _backup_profiles_snapshot.

(** [SoundpadApp._save_clips]: the clips become those of the active
    profile, and the profiles are written. *)
Definition _save_clips : M SoundpadApp unit := _save_profiles.

(** [_refresh_listbox] fills the list widget, which is not part of the
    state modelled here. *)
Definition _refresh_listbox : M SoundpadApp unit := ret tt.

(** [SoundpadApp._ensure_selected_source_connected] *)
Definition _ensure_selected_source_connected : M SoundpadApp (bool * str) :=
  source_name <- gets (fun s => strip (selected_input_source s)) ;;
  if negb (truthy source_name) then ret (false, lit "No input source selected")
  else
    result <- call_router (CallConnect source_name)
                (connect_input_source_to_soundpad source_name) ;;
    let '(ok, msg) := result in
    (if ok then _save_settings else ret tt) ;;;
    ret (ok, msg).

(** [SoundpadApp._ptt_press] *)
Definition _ptt_press : M SoundpadApp unit :=
  enabled <- gets push_to_talk_enabled ;;
  pressed <- gets ptt_pressed ;;
  if negb enabled || pressed then ret tt
  else
    modify (set_ptt_pressed true) ;;;
    result <- _ensure_selected_source_connected ;;
    let '(ok, msg) := result in
    if ok then modify (set_status_text (lit "PTT active"))
    else
      modify (set_status_text (lit "PTT failed")) ;;;
      messagebox (lit "Push-to-talk failed") msg.

(** [SoundpadApp._ptt_release] *)
Definition _ptt_release : M SoundpadApp unit :=
  pressed <- gets ptt_pressed ;;
  if negb pressed then ret tt
  else
    modify (set_ptt_pressed false) ;;;
    result <- call_router CallDisconnect disconnect_input_source_from_soundpad ;;
    let '(ok, msg) := result in
    if ok then modify (set_status_text (lit "PTT released"))
    else
      modify (set_status_text (lit "PTT release failed")) ;;;
      messagebox (lit "Push-to-talk failed") msg.

(** What [_on_global_hotkey] hands to [self.after(0, ...)]. *)
Inductive Callback : Type :=
  | DoStopPlayback
  | DoPttPress
  | DoPttRelease
  | DoPlayIndex (action : Action).

Definition action_eqb (x y : Action) : bool :=
  match x, y with
  | Clip i, Clip j => bool_decide (i = j)
  | Named a, Named b => eqb a b
  | _, _ => false
  end.

(** [SoundpadApp._on_global_hotkey]: the callback it schedules, if any. *)
Definition _on_global_hotkey (action : Action) (pressed : bool) : option Callback :=
  if action_eqb action (Named (lit "__stop__")) && pressed then Some DoStopPlayback
  else if action_eqb action (Named (lit "__ptt__")) then
    if pressed then Some DoPttPress else Some DoPttRelease
  else if pressed then Some (DoPlayIndex action)
  else None.

(** [SoundpadApp.stop_playback]: a player that still runs is ended, and
    the application forgets it. *)
Definition stop_playback : M SoundpadApp unit :=
  modify (set_player_process None) ;;;
  modify (set_status_text (lit "Stopped")).

(** [Path(clip_path).name]: the last component of the path, empty
    components and [.] apart. *)
Definition path_name (clip_path : str) : str :=
  List.last
    (List.filter (fun part => negb (eqb part [] || eqb part (lit ".")))
                 (split "/"%char clip_path))
    [].

(** [f"{volume / 100:.2f}"] for a volume between 0 and 200. *)
Definition hundredths (volume : Z) : str :=
  str_of_N (Z.to_N (volume / 100)) ++ lit "." ++
  str_of_N (Z.to_N (volume mod 100 / 10)) ++ str_of_N (Z.to_N (volume mod 10)).

(** The argument vector with which [play_selected] starts the player. *)
Definition player_cmd (clip_path : str) (volume : Z) (looping : bool) : list str :=
  let volume := Z.max 0 (Z.min 200 volume) in
  let vol_filter := lit "volume=" ++ hundredths volume in
  [lit "ffmpeg"; lit "-nostdin"; lit "-hide_banner"; lit "-loglevel"; lit "error"; lit "-y"]
  ++ (if looping then [lit "-stream_loop"; lit "-1"] else [])
  ++ [lit "-i"; clip_path; lit "-filter:a"; vol_filter; lit "-f"; lit "pulse";
      lit "-device"; SINK_NAME; lit "out"].

(** [SoundpadApp.play_selected]; [curselection] is what the list widget
    reports as selected. The poll of the player that it schedules runs on
    a timer and is not part of the queue modelled here. *)
Definition play_selected (curselection : list nat) : M SoundpadApp unit :=
  remembered <- gets selected_index ;;
  match remembered, curselection with
  | None, [] => ret tt
  | _, _ =>
      let index := match remembered with
                   | Some i => i
                   | None => hd 0%nat curselection
                   end in
      modify (set_selected_index (Some index)) ;;;
      cs <- gets clips ;;
      match cs !! index with
      | None => raise IndexError
      | Some clip =>
          let clip_path := path clip in
          hs <- gets host ;;
          if negb (path_exists hs clip_path) then
            modify (set_status_text (lit "Clip file missing")) ;;;
            messagebox (lit "File not found") clip_path
          else if negb (ffmpeg_present hs) then
            modify (set_status_text (lit "Error: ffmpeg not found")) ;;;
            messagebox (lit "Missing dependency") (lit "Install ffmpeg")
          else
            stop_playback ;;;
            vol <- gets volume ;;
            looping <- gets loop_enabled ;;
            let cmd := player_cmd clip_path vol looping in
            match popen_error hs with
            | Some exc =>
                modify (set_status_text (lit "Failed to play clip")) ;;;
                messagebox (lit "Playback error") exc
            | None =>
                modify (set_player_process (Some cmd)) ;;;
                let shown := or_else (label clip) (path_name clip_path) in
                modify (set_status_text (lit "Playing: " ++ shown))
            end
      end
  end.

(** [SoundpadApp.play_index]: an action that is not a number cannot be
    compared with one. *)
Definition play_index (action : Action) : M SoundpadApp unit :=
  match action with
  | Named _ => raise TypeError
  | Clip index =>
      cs <- gets clips ;;
      if (length cs <=? index)%nat then ret tt
      else
        modify (set_selected_index (Some index)) ;;;
        play_selected [index]
  end.

(** A scheduled callback. *)
Definition run_callback (c : Callback) : M SoundpadApp unit :=
  match c with
  | DoPttPress => _ptt_press
  | DoPttRelease => _ptt_release
  | DoStopPlayback => stop_playback
  | DoPlayIndex action => play_index action
  end.

(** The Tk main loop runs the scheduled callbacks in the order in which
    they were scheduled; an exception that leaves a callback is reported
    and the loop goes on with the state the callback left. *)
Fixpoint mainloop (queue : list Callback) (s : SoundpadApp) : SoundpadApp :=
  match queue with
  | [] => s
  | c :: rest => mainloop rest (snd (run_callback c s))
  end.

(** The edges that the capture loop reports, each handed to
    [_on_global_hotkey], and the queue then run. *)
Definition deliver (edges : list (Action * bool)) (s : SoundpadApp) : SoundpadApp :=
  mainloop
    (flat_map (fun e => match _on_global_hotkey (fst e) (snd e) with
                        | Some c => [c]
                        | None => []
                        end) edges)
    s.

Definition PTT : Action := Named (lit "__ptt__").

(** The loop of [_hotkey_to_tk_sequence] over the modifier tokens. *)
Fixpoint tk_modifiers_loop (mods : list str) (tokens : list str) : option (list str) :=
  match tokens with
  | [] => Some mods
  | mod_ :: rest =>
      let lower := lower mod_ in
      if eqb lower (lit "ctrl") || eqb lower (lit "control")
      then tk_modifiers_loop (mods ++ [lit "Control"]) rest
      else if eqb lower (lit "alt") then tk_modifiers_loop (mods ++ [lit "Alt"]) rest
      else if eqb lower (lit "shift") then tk_modifiers_loop (mods ++ [lit "Shift"]) rest
      else if eqb lower (lit "super") || eqb lower (lit "win") || eqb lower (lit "mod4")
      then tk_modifiers_loop (mods ++ [lit "Mod4"]) rest
      else None
  end.

(** [SoundpadApp._hotkey_to_tk_sequence] *)
Definition _hotkey_to_tk_sequence (hotkey_text : str) : option str :=
  let raw := strip hotkey_text in
  if negb (truthy raw) then None
  else
    let parts := chord_tokens raw in
    match parts with
    | [] => None
    | _ =>
        let key_part := List.last parts [] in
        match tk_modifiers_loop [] (removelast parts) with
        | None => None
        | Some mods =>
            let key_name := if (length key_part =? 1)%nat then lower key_part else key_part in
            let chunks := mods ++ [lit "Key-" ++ key_name] in
            Some (lit "<" ++ join (lit "-") chunks ++ lit ">")
        end
    end.

(** The entries that [_register_global_hotkeys] collects from the clips. *)
Fixpoint clip_entries (idx : nat) (cs : list ClipEntry) : list (Action * str) :=
  match cs with
  | [] => []
  | clip :: rest =>
      let hotkey := strip (hotkey clip) in
      if truthy hotkey then (Clip idx, hotkey) :: clip_entries (S idx) rest
      else clip_entries (S idx) rest
  end.

(** [SoundpadApp._register_global_hotkeys] *)
Definition _register_global_hotkeys : M SoundpadApp unit :=
  active <- gets global_hotkeys_active ;;
  if negb active then ret tt
  else
    cs <- gets clips ;;
    ptt_on <- gets push_to_talk_enabled ;;
    ptt_key <- gets (fun s => strip (ptt_hotkey s)) ;;
    let entries := clip_entries 0 cs ++ [(Named (lit "__stop__"), lit "Alt+\")] in
    let entries :=
      if ptt_on && truthy ptt_key then entries ++ [(PTT, ptt_key)] else entries in
    conflicts <- call_register entries ;;
    modify (set_last_hotkey_conflicts conflicts) ;;;
    match conflicts with
    | [] => ret tt
    | _ => modify (set_status_text
                     (lit "Global hotkey conflicts: " ++ join (lit ", ") conflicts))
    end.

(** The loop of [_bind_hotkeys] over the clips: the Tk sequences bound. *)
Fixpoint bind_sequences (cs : list ClipEntry) : list str :=
  match cs with
  | [] => []
  | clip :: rest =>
      let hotkey_label := strip (hotkey clip) in
      if negb (truthy hotkey_label) then bind_sequences rest
      else match _hotkey_to_tk_sequence hotkey_label with
           | None => bind_sequences rest
           | Some sequence => sequence :: bind_sequences rest
           end
  end.

(** [SoundpadApp._bind_hotkeys] *)
Definition _bind_hotkeys : M SoundpadApp unit :=
  cs <- gets clips ;;
  modify (set_bound_hotkeys (bind_sequences cs)) ;;;
  _register_global_hotkeys.

Definition set_hotkey (v : str) (clip : ClipEntry) : ClipEntry :=
  {| label := label clip; path := path clip; hotkey := v |}.

(** The [for idx, other in enumerate(self.clips)] loop of
    [set_selected_hotkey]: the first other clip whose hotkey equals the
    typed text, case and surrounding white space apart, loses it. *)
Fixpoint clear_duplicate (idx selected : nat) (typed : str) (cs : list ClipEntry)
    : list ClipEntry :=
  match cs with
  | [] => []
  | other :: rest =>
      if (idx =? selected)%nat then other :: clear_duplicate (S idx) selected typed rest
      else if eqb (lower (strip (hotkey other))) (lower typed)
      then set_hotkey [] other :: rest
      else other :: clear_duplicate (S idx) selected typed rest
  end.

(** The clip that [set_selected_hotkey] works on: the remembered
    selection, else the first item that the list widget reports. *)
Definition chosen_index (remembered : option nat) (curselection : list nat) : option nat :=
  match remembered with
  | Some i => Some i
  | None => match curselection with
            | [] => None
            | i :: _ => Some i
            end
  end.

(** [SoundpadApp.set_selected_hotkey]; [curselection] is what the list
    widget reports as selected and [answer] what the dialog returns. *)
Definition set_selected_hotkey (curselection : list nat) (answer : option str)
    : M SoundpadApp unit :=
  remembered <- gets selected_index ;;
  match chosen_index remembered curselection with
  | None => messagebox (lit "No clip selected") (lit "Select a clip first.")
  | Some index =>
      modify (set_selected_index (Some index)) ;;;
      cs <- gets clips ;;
      match cs !! index with
      | None => raise IndexError
      | Some clip =>
          match answer with
          | None => ret tt
          | Some typed =>
              let typed := strip typed in
              let update (cleared : list ClipEntry) : M SoundpadApp unit :=
                modify (set_clips (<[ index := set_hotkey typed clip ]> cleared)) ;;;
                _save_clips ;;;
                _refresh_listbox ;;;
                _bind_hotkeys ;;;
                modify (set_status_text (lit "Hotkey updated")) in
              if truthy typed then
                match _hotkey_to_tk_sequence typed with
                | None =>
                    messagebox (lit "Invalid hotkey")
                      (lit "Use formats like Alt+1, Ctrl+F, Super+1, Ctrl+Alt+1.")
                | Some _ => update (clear_duplicate 0 index typed cs)
                end
              else update cs
          end
      end
  end.

(** A machine on which every write succeeds, the two sound files of the
    examples exist and [ffmpeg] is installed. *)
Definition demo_host : Host :=
  {| write_faults := []; settings_file := None; profiles_file := None; snapshots := 0;
     path_exists := fun p => eqb p (lit "/tmp/a.wav") || eqb p (lit "/tmp/b.wav");
     ffmpeg_present := true; popen_error := None |}.

(** The clips and the application of the examples. *)
Definition demo_clips : list ClipEntry :=
  [ {| label := lit "airhorn"; path := lit "/tmp/a.wav"; hotkey := lit "Ctrl+Alt+1" |};
    {| label := lit "drums"; path := lit "/tmp/b.wav"; hotkey := [] |};
    {| label := lit "bell"; path := lit "/tmp/c.wav"; hotkey := lit "Alt+2" |} ].

Definition demo_app : SoundpadApp :=
  {| audio := demo_audio; global_hotkeys := demo_hotkeys; clips := demo_clips;
     selected_index := None; bound_hotkeys := [];
     selected_input_source := lit "alsa_input.usb";
     push_to_talk_enabled := true; ptt_hotkey := lit "Ctrl+Alt+M";
     global_hotkeys_active := true; last_hotkey_conflicts := [];
     ptt_pressed := false; status_text := lit "Initializing...";
     player_process := None; volume := 100; loop_enabled := false; host := demo_host;
     router_calls := []; dialogs := [] |}.

(** The same application with no input source selected. *)
Definition sourceless_app : SoundpadApp :=
  {| audio := demo_audio; global_hotkeys := demo_hotkeys; clips := demo_clips;
     selected_index := None; bound_hotkeys := [];
     selected_input_source := [];
     push_to_talk_enabled := true; ptt_hotkey := lit "Ctrl+Alt+M";
     global_hotkeys_active := true; last_hotkey_conflicts := [];
     ptt_pressed := false; status_text := lit "Initializing...";
     player_process := None; volume := 100; loop_enabled := false; host := demo_host;
     router_calls := []; dialogs := [] |}.

(** The same application on a session without [pactl]. *)
Definition bare_app : SoundpadApp := set_audio bare_audio demo_app.

(** The press and the release of the push-to-talk chord. *)
Definition ptt_down_up : list (Action * bool) := [(PTT, true); (PTT, false)].

(** *** Vocabulary of the statements about clip hotkeys *)

(** The text by which [set_selected_hotkey] compares hotkeys: stripped and
    in lower case. *)
Definition chord_key (clip : ClipEntry) : str := lower (strip (hotkey clip)).

(** No two clips hold the same non-empty hotkey text, case and surrounding
    white space apart. *)
Definition distinct_hotkeys (cs : list ClipEntry) : Prop :=
  forall i j ci cj,
    i <> j -> cs !! i = Some ci -> cs !! j = Some cj ->
    truthy (chord_key ci) = true -> chord_key ci <> chord_key cj.

(** Two clips that hold the same chord text twice, as an imported profile
    can. *)
Definition doubled_clips : list ClipEntry :=
  [ {| label := lit "airhorn"; path := lit "/tmp/a.wav"; hotkey := lit "Alt+1" |};
    {| label := lit "drums"; path := lit "/tmp/b.wav"; hotkey := lit "alt+1" |};
    {| label := lit "bell"; path := lit "/tmp/c.wav"; hotkey := [] |} ].

(** ** Vocabulary of further statements about the router *)

(** The indices of the listed modules ascend from [lo] and stay below
    [hi]: no two modules share an index, and the next index the server
    assigns is new. *)
Fixpoint indices_ascend (lo : N) (ms : list Module_) (hi : N) : bool :=
  match ms with
  | [] => (lo <=? hi)%N
  | m :: rest => (lo <=? m_index m)%N && indices_ascend (N.succ (m_index m)) rest hi
  end.

Definition well_indexed (sv : Server) : bool :=
  indices_ascend 0 (modules sv) (next_index sv).

(** The speaker-monitor loopback that [ensure_local_monitor] looks for. *)
Definition is_monitor_loop : Module_ -> bool :=
  is_module (lit "module-loopback") (lit "source=" ++ SINK_NAME ++ lit ".monitor").

(** The module that [ensure_local_monitor] loads. *)
Definition monitor_module (index : N) : Module_ :=
  {| m_index := index; m_name := lit "module-loopback";
     m_argument := lit "source=soundpad_sink.monitor sink=@DEFAULT_SINK@ latency_msec=30" |}.

(** A server on which nothing of the soundpad is loaded and no foreign
    loopback either. *)
Definition plain_server : Server :=
  {| pactl_present := true;
     modules := [ {| m_index := 0; m_name := lit "module-device-restore"; m_argument := [] |};
                  {| m_index := 7; m_name := lit "module-null-sink";
                     m_argument := lit "sink_name=other" |} ];
     next_index := 9;
     sources_text := sources_text demo_server;
     info_text := info_text demo_server;
     faults := [];
     issued := [] |}.

Definition plain_audio : Audio := {| router := AudioRouter_init; server := plain_server |}.

(** A server with a mic loopback loaded and no fault scheduled. *)
Definition routed_audio_clear : Audio :=
  {| router := AudioRouter_init;
     server := {| pactl_present := true;
                  modules := modules routed_server;
                  next_index := next_index routed_server;
                  sources_text := sources_text routed_server;
                  info_text := info_text routed_server;
                  faults := [];
                  issued := [] |} |}.

(** The text of a listing: each line followed by a line feed. *)
Definition render_lines (lines : list str) : str :=
  concat (map (fun l => l ++ [newline]) lines).

(** One row of [pactl list short sources]: index, name, and the remaining
    columns (driver, sample format, state). *)
Record SourceRow : Type := {
  s_index : N;
  s_name : str;
  s_detail : str
}.

Definition render_source (row : SourceRow) : str :=
  str_of_N (s_index row) ++ tab :: s_name row ++ tab :: s_detail row.

Definition render_sources (rows : list SourceRow) : str :=
  render_lines (map render_source rows).

(** A source name that the input-source list leaves out. *)
Definition is_virtual_name (source_name : str) : bool :=
  eqb source_name SOURCE_NAME || endswith (lit ".monitor") source_name.

Definition no_linebreak (s : str) : bool := forallb (fun c => negb (is_linebreak c)) s.

(** The sources of the examples: a microphone, the two virtual devices,
    and a source whose name stands between blanks and has a colon in it;
    the server that lists them reports the last as the default source. *)
Definition usb_rows : list SourceRow :=
  [ {| s_index := 55; s_name := lit "alsa_input.usb"; s_detail := lit "PipeWire" |};
    {| s_index := 56; s_name := lit "soundpad_sink.monitor"; s_detail := lit "PipeWire" |};
    {| s_index := 57; s_name := lit "soundpad_mic"; s_detail := lit "PipeWire" |};
    {| s_index := 58; s_name := lit " bluez_input.AA:BB ";
       s_detail := lit "PipeWire" ++ tab :: lit "s16le" |} ].

Definition usb_server : Server :=
  {| pactl_present := true;
     modules := [];
     next_index := 0;
     sources_text := render_sources usb_rows;
     info_text := render_lines [lit "Server Name: PulseAudio";
                                lit "Default Source: bluez_input.AA:BB ";
                                lit "Default Source: other"];
     faults := [];
     issued := [] |}.

Definition usb_audio : Audio := {| router := AudioRouter_init; server := usb_server |}.

(** ** The capture loop of the hotkey manager *)

(** The event codes of the X protocol that [_loop] tests for, as
    [Xlib.X] names them. *)
Module XEvents.
Definition KeyPress : Z := 2.
Definition KeyRelease : Z := 3.
End XEvents.

(** The fields of an X event that [_loop] reads. *)
Record XEvent : Type := {
  e_type : Z;
  e_detail : Z;
  e_state : Z
}.

(** The body of the [while self.display.pending_events()] loop of
    [GlobalHotkeyManager._loop] for one event: the arguments with which it
    calls [on_trigger], if it does. *)
Definition _loop_event (table : gmap (Z * Z) Action) (event : XEvent)
    : option (Action * bool) :=
  if negb (bool_decide (e_type event = XEvents.KeyPress) ||
           bool_decide (e_type event = XEvents.KeyRelease)) then None
  else
    let state :=
      Z.land (e_state event)
        (Z.lor (Z.lor (Z.lor X.ShiftMask X.ControlMask) X.Mod1Mask) X.Mod4Mask) in
    match table !! (e_detail event, state) with
    | Some action => Some (action, bool_decide (e_type event = XEvents.KeyPress))
    | None => None
    end.

(** That loop over the events pending at one wake-up, none of whose
    triggers raises: the edges handed to [on_trigger], in order. *)
Definition _loop_pending (table : gmap (Z * Z) Action) (events : list XEvent)
    : list (Action * bool) :=
  flat_map (fun event => match _loop_event table event with
                         | Some edge => [edge]
                         | None => []
                         end) events.

(** *** Vocabulary of further statements about the manager *)

Definition is_set {A} (v : option A) : bool :=
  match v with
  | Some _ => true
  | None => false
  end.

(** The manager is running exactly when it holds a display, and it holds
    a display exactly when it holds a root window. *)
Definition coherent (m : GlobalHotkeyManager) : bool :=
  Bool.eqb (running m) (is_set (display m)) &&
  Bool.eqb (is_set (display m)) (is_set (root m)).

(** Everything that [start] needs goes well. *)
Definition startable (h : Hotkeys) : bool :=
  XLIB_AVAILABLE (xserver h) && negb (running (manager h)) &&
  display_opens (xserver h) && screen_answers (xserver h) && thread_starts (xserver h).

(** The grabs that the server grants for one binding. *)
Definition won_grabs (xs : XServer) (entry : Action * str) : list (Z * Z) :=
  match resolve xs (snd entry) with
  | Some (Some keycode, base_mask) =>
      map (pair keycode) (List.filter (granted xs keycode) (variant_masks base_mask))
  | _ => []
  end.

(** The grabs that [register] records for one binding: the variants whose
    grab calls return, be the grab granted or denied. *)
Definition noted_grabs (xs : XServer) (entry : Action * str) : list (Z * Z) :=
  match resolve xs (snd entry) with
  | Some (Some keycode, base_mask) =>
      map (pair keycode) (List.filter (recorded xs keycode) (variant_masks base_mask))
  | _ => []
  end.

(** The server grants the grab of this pair of key and mask. *)
Definition is_granted (xs : XServer) (g : Z * Z) : bool := granted xs (fst g) (snd g).

(** The server never refuses to release a grab. *)
Definition releases (xs : XServer) : Prop :=
  forall keycode mask, ungrab_fails xs keycode mask = false.

(** A key event with the given modifier state. *)
Definition key_event (pressed : bool) (keycode state : Z) : XEvent :=
  {| e_type := if pressed then XEvents.KeyPress else XEvents.KeyRelease;
     e_detail := keycode; e_state := state |}.

(** The modifier mask as a function of the four memberships. *)
Definition mask_of (control alt shift super : bool) : Z :=
  Z.lor (Z.lor (Z.lor (if control then X.ControlMask else 0)
                      (if alt then X.Mod1Mask else 0))
               (if shift then X.ShiftMask else 0))
        (if super then X.Mod4Mask else 0).

(** No binding of the list resolves to this key and base mask. *)
Definition none_resolves (xs : XServer) (key : Z * Z) (entries : list (Action * str)) : bool :=
  forallb (fun e => negb (bool_decide (resolve xs (snd e) = Some (Some (fst key), snd key))))
          entries.

(** The server after the [ungrab_key] requests of [_unregister_all]. *)
Fixpoint ungrabbed (pairs : list (Z * Z)) (xs : XServer) : XServer :=
  match pairs with
  | [] => xs
  | (keycode, mask) :: rest =>
      ungrabbed rest
        (set_xserver (connections xs)
           (if ungrab_fails xs keycode mask then grabs xs
            else List.filter (fun g => negb (pair_eqb g (keycode, mask))) (grabs xs))
           (requests xs ++ [UngrabKey keycode mask]) xs)
  end.

(** The state after [stop] on a running manager: its grabs released one by
    one, the connection closed unless closing fails, the handles dropped. *)
Definition note_stop (h : Hotkeys) : Hotkeys :=
  let xs := ungrabbed (registered (manager h)) (xserver h) in
  {| manager :=
       {| display := None; root := None; running := false; thread := thread (manager h);
          bindings := bindings (manager h); registered := [] |};
     xserver :=
       if close_fails xs then xs
       else set_xserver (connections xs) [] (requests xs) xs |}.

(** The calls of the manager that the application makes. *)
Inductive ManagerCall : Type :=
  | CallStart
  | CallStop
  | CallRegister (entries : list (Action * str)).

Definition run_call (c : ManagerCall) (h : Hotkeys) : Hotkeys :=
  match c with
  | CallStart => snd (start h)
  | CallStop => snd (stop h)
  | CallRegister entries => snd (register entries h)
  end.

Definition run_calls (cs : list ManagerCall) (h : Hotkeys) : Hotkeys :=
  fold_left (fun h c => run_call c h) cs h.

(** A manager as [__init__] leaves it, on the X server of the examples. *)
Definition fresh_hotkeys : Hotkeys :=
  {| manager := GlobalHotkeyManager_init; xserver := demo_xserver |}.

(** ** SoundpadApp: audio setup and input sources *)

(** [self.router.operation(...)] for the operations other than connect and
    disconnect, which [router_calls] does not follow: the operation runs on
    the router of the application. *)
Definition on_router {A} (operation : M Audio A) : M SoundpadApp A :=
  fun s =>
    let '(r, a) := operation (audio s) in
    (r, set_audio a s).

Definition set_selected_input_source (v : str) (s : SoundpadApp) : SoundpadApp :=
  {| audio := audio s; global_hotkeys := global_hotkeys s; clips := clips s;
     selected_index := selected_index s; bound_hotkeys := bound_hotkeys s;
     selected_input_source := v; push_to_talk_enabled := push_to_talk_enabled s;
     ptt_hotkey := ptt_hotkey s; global_hotkeys_active := global_hotkeys_active s;
     last_hotkey_conflicts := last_hotkey_conflicts s; ptt_pressed := ptt_pressed s;
     status_text := status_text s; player_process := player_process s; volume := volume s;
     loop_enabled := loop_enabled s; host := host s; router_calls := router_calls s;
     dialogs := dialogs s |}.

(** [x in xs] on strings. *)
Definition member (x : str) (xs : list str) : bool := existsb (eqb x) xs.

(** [SoundpadApp.refresh_input_sources]; the values shown by the combo box
    are not part of the state modelled here. *)
Definition refresh_input_sources : M SoundpadApp unit :=
  sources <- on_router list_input_sources ;;
  selected <- gets selected_input_source ;;
  if member selected sources then ret tt
  else match sources with
       | first :: _ => modify (set_selected_input_source first)
       | [] => modify (set_selected_input_source [])
       end.

(** [SoundpadApp.auto_connect_default_input_source] *)
Definition auto_connect_default_input_source : M SoundpadApp unit :=
  selected <- gets (fun s => strip (selected_input_source s)) ;;
  chosen <- (if negb (truthy selected)
             then default <- on_router get_default_source ;; ret (strip default)
             else ret selected) ;;
  if negb (truthy chosen) then ret tt
  else
    available <- on_router list_input_sources ;;
    if negb (member chosen available) then ret tt
    else
      modify (set_selected_input_source chosen) ;;;
      ptt_on <- gets push_to_talk_enabled ;;
      if ptt_on then
        _save_settings ;;;
        _register_global_hotkeys ;;;
        modify (set_status_text (lit "Push-to-talk ready"))
      else
        result <- call_router (CallConnect chosen)
                    (connect_input_source_to_soundpad chosen) ;;
        let '(ok, msg) := result in
        if ok then _save_settings ;;; modify (set_status_text msg)
        else messagebox (lit "Mic route warning") msg.

(** [SoundpadApp._setup_audio_router]; [shutil.which("pactl")] finds the
    tool exactly when [subprocess.run] can spawn it, and the label of the
    push-to-talk key is not part of the state modelled here. *)
Definition _setup_audio_router : M SoundpadApp unit :=
  which <- gets (fun s => pactl_present (server (audio s))) ;;
  if negb which then
    modify (set_status_text
              (lit "Error: pactl not found. Install pipewire-pulse or pulseaudio."))
  else
    result <- on_router ensure_virtual_mic ;;
    let '(ok, msg) := result in
    if ok then
      mute <- on_router unload_monitor ;;
      let '(ok_mute, mute_msg) := mute in
      (if negb ok_mute then
         modify (set_status_text msg) ;;;
         messagebox (lit "Speaker mute default failed") mute_msg
       else modify (set_status_text (msg ++ lit " | Speakers muted by default"))) ;;;
      mic <- on_router (set_mic_mute false) ;;
      let '(ok_mic, mic_msg) := mic in
      (if negb ok_mic then messagebox (lit "Mic control unavailable") mic_msg else ret tt) ;;;
      refresh_input_sources ;;;
      auto_connect_default_input_source
    else
      modify (set_status_text (lit "Audio setup failed")) ;;;
      messagebox (lit "Audio setup failed") msg.

(** [SoundpadApp.connect_selected_input_source] *)
Definition connect_selected_input_source : M SoundpadApp unit :=
  ptt_on <- gets push_to_talk_enabled ;;
  if ptt_on then
    modify (set_status_text (lit "Push-to-talk is enabled; hold PTT key to route mic")) ;;;
    _save_settings ;;;
    _register_global_hotkeys
  else
    source_name <- gets (fun s => strip (selected_input_source s)) ;;
    if negb (truthy source_name) then
      messagebox (lit "No source selected") (lit "Select a mic source first.")
    else
      result <- call_router (CallConnect source_name)
                  (connect_input_source_to_soundpad source_name) ;;
      let '(ok, msg) := result in
      if negb ok then messagebox (lit "Mic route failed") msg
      else _save_settings ;;; modify (set_status_text msg).

(** *** Vocabulary of further statements about the application *)



(** A file write that succeeds. *)
Definition is_written (f : option exn) : bool :=
  match f with
  | None => true
  | Some _ => false
  end.

(** The exception is one that a coming file write raises on this
    machine. *)
Definition raised_by_write (hs : Host) (e : exn) : Prop := In (Some e) (write_faults hs).

(** Nothing outside the application raises: no coming call of
    [subprocess.run] and no coming file write. *)
Definition undisturbed (s : SoundpadApp) : bool :=
  runs_return (audio s) && forallb is_written (write_faults (host s)).

(** A computation of the application that returns and after which still
    nothing outside raises. *)
Definition finishes {A} (m : M SoundpadApp A) (s : SoundpadApp) : Prop :=
  exists x s', m s = (Return x, s') /\ undisturbed s' = true.

(** The application of the examples on the server that lists the sources
    of [usb_rows], with a blank selection. *)
Definition usb_app : SoundpadApp :=
  set_selected_input_source [] (set_audio usb_audio demo_app).

Definition set_push_to_talk_enabled (v : bool) (s : SoundpadApp) : SoundpadApp :=
  {| audio := audio s; global_hotkeys := global_hotkeys s; clips := clips s;
     selected_index := selected_index s; bound_hotkeys := bound_hotkeys s;
     selected_input_source := selected_input_source s; push_to_talk_enabled := v;
     ptt_hotkey := ptt_hotkey s; global_hotkeys_active := global_hotkeys_active s;
     last_hotkey_conflicts := last_hotkey_conflicts s; ptt_pressed := ptt_pressed s;
     status_text := status_text s; player_process := player_process s; volume := volume s;
     loop_enabled := loop_enabled s; host := host s; router_calls := router_calls s;
     dialogs := dialogs s |}.

(** [usb_app] with push-to-talk switched off. *)
Definition open_mic_app : SoundpadApp := set_push_to_talk_enabled false usb_app.

(** The second state has every module of the first and remembers the same
    monitor. *)
Definition extends (a a' : Audio) : Prop :=
  monitor_module_id (router a') = monitor_module_id (router a) /\
  forall m, In m (modules (server a)) -> In m (modules (server a')).

(** A router computation that unloads nothing and leaves the remembered
    monitor alone. *)
Definition preserves {A} (m : M Audio A) : Prop := forall a, extends a (snd (m a)).

(** ** SoundpadApp: switching the global hotkeys on and off *)

Definition set_global_hotkeys_active (v : bool) (s : SoundpadApp) : SoundpadApp :=
  {| audio := audio s; global_hotkeys := global_hotkeys s; clips := clips s;
     selected_index := selected_index s; bound_hotkeys := bound_hotkeys s;
     selected_input_source := selected_input_source s;
     push_to_talk_enabled := push_to_talk_enabled s; ptt_hotkey := ptt_hotkey s;
     global_hotkeys_active := v; last_hotkey_conflicts := last_hotkey_conflicts s;
     ptt_pressed := ptt_pressed s; status_text := status_text s;
     player_process := player_process s; volume := volume s;
     loop_enabled := loop_enabled s; host := host s; router_calls := router_calls s;
     dialogs := dialogs s |}.

(** [self.global_hotkeys.start()] *)
Definition call_start : M SoundpadApp bool :=
  fun s =>
    let '(r, h) := start (global_hotkeys s) in
    (r, set_global_hotkeys h s).

(** [self.global_hotkeys.stop()] *)
Definition call_stop : M SoundpadApp unit :=
  fun s =>
    let '(r, h) := stop (global_hotkeys s) in
    (r, set_global_hotkeys h s).

(** [SoundpadApp._init_global_hotkeys]; [enabled] is the value of the
    check box variable [global_hotkeys_enabled]. *)
Definition _init_global_hotkeys (enabled : bool) : M SoundpadApp unit :=
  if negb enabled then ret tt
  else
    started <- call_start ;;
    modify (set_global_hotkeys_active started) ;;;
    if negb started then
      available <- gets (fun s => XLIB_AVAILABLE (xserver (global_hotkeys s))) ;;
      if negb available
      then modify (set_status_text (lit "Global hotkeys unavailable: install python-xlib"))
      else modify (set_status_text (lit "Global hotkeys unavailable on this session"))
    else _register_global_hotkeys.

(** [SoundpadApp.toggle_global_hotkeys]; [enabled] is the value of the
    check box variable when the handler starts, and the value returned is
    the one it has when the handler ends. *)
Definition toggle_global_hotkeys (enabled : bool) : M SoundpadApp bool :=
  if enabled then
    active <- gets global_hotkeys_active ;;
    (if negb active then
       started <- call_start ;;
       modify (set_global_hotkeys_active started)
     else ret tt) ;;;
    active <- gets global_hotkeys_active ;;
    if negb active then
      messagebox (lit "Global hotkeys unavailable")
        (lit "Install python-xlib and run under X11.") ;;;
      ret false
    else
      _register_global_hotkeys ;;;
      modify (set_status_text (lit "Global hotkeys enabled")) ;;;
      ret true
  else
    active <- gets global_hotkeys_active ;;
    (if active then
       call_stop ;;;
       modify (set_global_hotkeys_active false)
     else ret tt) ;;;
    modify (set_status_text (lit "Global hotkeys disabled")) ;;;
    ret false.

(** [SoundpadApp._on_close]; returning stands for reaching
    [self.destroy()]. *)
Definition _on_close : M SoundpadApp unit :=
  _save_clips ;;;
  stop_playback ;;;
  call_router CallDisconnect disconnect_input_source_from_soundpad ;;;
  active <- gets global_hotkeys_active ;;
  if active then
    call_stop ;;;
    modify (set_global_hotkeys_active false)
  else ret tt.

(** The handlers that drive the hotkey manager once the application is
    up. *)
Inductive Handler : Type :=
  | ToggleGlobalHotkeys (enabled : bool)
  | BindHotkeys
  | Close.

(** One handler run by the Tk main loop, which goes on with the state that
    the handler left, also when an exception leaves it. *)
Definition run_handler (c : Handler) (s : SoundpadApp) : SoundpadApp :=
  match c with
  | ToggleGlobalHotkeys enabled => snd (toggle_global_hotkeys enabled s)
  | BindHotkeys => snd (_bind_hotkeys s)
  | Close => snd (_on_close s)
  end.

Definition run_handlers (cs : list Handler) (s : SoundpadApp) : SoundpadApp :=
  fold_left (fun s c => run_handler c s) cs s.

(** The application's flag says what the manager does, and the manager is
    coherent. *)
Definition synced (s : SoundpadApp) : bool :=
  Bool.eqb (global_hotkeys_active s) (running (manager (global_hotkeys s))) &&
  coherent (manager (global_hotkeys s)).

(** The application as [__init__] leaves it before the hotkeys are
    initialised. *)
Definition fresh_app : SoundpadApp :=
  set_global_hotkeys_active false (set_global_hotkeys fresh_hotkeys demo_app).

(** [demo_app] on a disk that refuses the next write. *)
Definition full_disk_app : SoundpadApp :=
  set_host (set_files [Some OSError] None None 0 demo_host) demo_app.

(** An application one of whose clips holds the push-to-talk chord. *)
Definition shadowed_app : SoundpadApp :=
  set_clips
    [ {| label := lit "airhorn"; path := lit "/tmp/a.wav"; hotkey := lit "ctrl+alt+m" |} ]
    demo_app.
(** ** The string primitives on examples *)

Example splitlines_ex :
  splitlines (lit "a" ++ [ascii_of_N 13; ascii_of_N 10] ++ lit "b" ++ [ascii_of_N 10; ascii_of_N 10]) =
  [lit "a"; lit "b"; []].
Proof. reflexivity. Qed.

Example split_ex : split "+"%char (lit "Ctrl++M") = [lit "Ctrl"; []; lit "M"].
Proof. reflexivity. Qed.

Example strip_ex : strip (lit "  Alt+1 ") = lit "Alt+1".
Proof. reflexivity. Qed.

Example str_of_N_ex : str_of_N 536 = lit "536".
Proof. reflexivity. Qed.

Example contains_ex : contains (lit "sink=soundpad_sink") (lit "source=x sink=soundpad_sink latency_msec=20") = true.
Proof. reflexivity. Qed.

(** ** Facts about the server model *)

Section ServerFacts.

Implicit Types (sv : Server) (a : Audio) (argv : list str).

Lemma serve_issued c sv cp sv' :
  serve c sv = (cp, sv') ->
  issued sv' = issued sv /\ faults sv' = faults sv /\
  pactl_present sv' = pactl_present sv.
Proof.
  destruct c; simpl; try (intros [= <- <-]; auto).
  destruct (existsb _ _); intros [= <- <-]; auto.
Qed.


Lemma subprocess_run_issued argv sv r sv' :
  subprocess_run argv sv = (r, sv') ->
  issued sv' = issued sv ++ [argv] /\ pactl_present sv' = pactl_present sv.
Proof.
  unfold subprocess_run.
  destruct (faults sv) as [|[|f|e|] rest]; destruct (pactl_present sv) eqn:Hp;
    cbn [negb tl snd];
    try (intros [= <- <-]; simpl; auto; fail);
    destruct (serve _ _) as [cp s1] eqn:Hs; intros [= <- <-];
    apply serve_issued in Hs as (-> & _ & ->); simpl; auto.
Qed.


Lemma subprocess_run_list_keeps sv r sv' :
  subprocess_run list_modules_cmd sv = (r, sv') ->
  modules sv' = modules sv /\ next_index sv' = next_index sv.
Proof.
  unfold subprocess_run.
  destruct (faults sv) as [|[|f|e|] rest]; destruct (pactl_present sv); simpl;
    intros [= <- <-]; auto.
Qed.

Lemma run_unfold argv a :
  _run argv a =
  (fst (subprocess_run argv (server a)),
   {| router := router a; server := snd (subprocess_run argv (server a)) |}).
Proof. unfold _run. destruct (subprocess_run argv (server a)); reflexivity. Qed.

Lemma run_issued argv a r a' :
  _run argv a = (r, a') ->
  issued (server a') = issued (server a) ++ [argv] /\ router a' = router a.
Proof.
  rewrite run_unfold. intros [= <- <-]. simpl. split; [|reflexivity].
  destruct (subprocess_run argv (server a)) eqn:H.
  apply subprocess_run_issued in H. tauto.
Qed.


Lemma run_list_keeps a r a' :
  _run list_modules_cmd a = (r, a') ->
  modules (server a') = modules (server a).
Proof.
  rewrite run_unfold. intros [= <- <-]. simpl.
  destruct (subprocess_run _ (server a)) eqn:E.
  apply subprocess_run_list_keeps in E. tauto.
Qed.

(** The discovery query runs exactly one command and leaves the module
    graph alone. *)
Lemma find_mic_loop_frame a r a' :
  _find_mic_loop_module a = (r, a') ->
  issued (server a') = issued (server a) ++ [list_modules_cmd] /\
  modules (server a') = modules (server a) /\ router a' = router a.
Proof.
  unfold _find_mic_loop_module, bind.
  destruct (_run list_modules_cmd a) as [[cp|e] a1] eqn:E.
  - destruct (negb _); intros [= <- <-];
      pose proof (run_issued _ _ _ _ E) as [? ?];
      pose proof (run_list_keeps _ _ _ E); auto.
  - intros [= <- <-].
    pose proof (run_issued _ _ _ _ E) as [? ?];
      pose proof (run_list_keeps _ _ _ E); auto.
Qed.

End ServerFacts.

(** ** Failure of the unload inside connect *)



(** ** Reading the module listing back *)

Section Listing.

Lemma uint_str_clean d : clean (uint_str d) = true.
Proof. induction d; simpl; try rewrite IHd; reflexivity. Qed.

Lemma listed_id_clean m : clean (listed_id m) = true.
Proof. apply uint_str_clean. Qed.

Lemma str_of_N_truthy n : truthy (str_of_N n) = true.
Proof.
  unfold str_of_N. destruct n as [|p]; [reflexivity|].
  simpl. pose proof (Unsigned.to_uint_nonnil p) as H.
  destruct (Pos.to_uint p); try reflexivity. congruence.
Qed.

Lemma split_clean s : clean s = true -> split tab s = [s].
Proof.
  induction s as [|c s IH]; simpl; [reflexivity|].
  intros H. apply andb_prop in H as [Hc Hs].
  unfold field_char in Hc. apply andb_prop in Hc as [_ Hc].
  destruct (bool_decide (c = tab)); [discriminate|].
  rewrite (IH Hs). reflexivity.
Qed.

Lemma split_field s t : clean s = true -> split tab (s ++ tab :: t) = s :: split tab t.
Proof.
  induction s as [|c s IH]; simpl.
  - intros _. reflexivity.
  - intros H. apply andb_prop in H as [Hc Hs].
    unfold field_char in Hc. apply andb_prop in Hc as [_ Hc].
    destruct (bool_decide (c = tab)); [discriminate|].
    rewrite (IH Hs). reflexivity.
Qed.

Lemma split_render_module m :
  clean (m_name m) = true -> clean (m_argument m) = true ->
  split tab (render_module m) = [listed_id m; m_name m; m_argument m].
Proof.
  intros Hn Ha. unfold render_module.
  rewrite split_field by apply uint_str_clean.
  rewrite split_field by assumption.
  rewrite split_clean by assumption. reflexivity.
Qed.

Lemma splitlines_line l rest :
  forallb (fun c => negb (is_linebreak c)) l = true ->
  splitlines_from false (l ++ newline :: rest) = l :: splitlines_from false rest.
Proof.
  induction l as [|c l IH]; simpl.
  - intros _. reflexivity.
  - intros H. apply andb_prop in H as [Hc Hl].
    destruct (is_linebreak c); [discriminate|].
    rewrite (IH Hl). reflexivity.
Qed.

Lemma clean_no_linebreak s :
  clean s = true -> forallb (fun c => negb (is_linebreak c)) s = true.
Proof.
  induction s as [|c s IH]; simpl; [reflexivity|].
  intros H. apply andb_prop in H as [Hc Hs].
  unfold field_char in Hc. apply andb_prop in Hc as [Hc _].
  rewrite Hc. auto.
Qed.

Lemma clean_app s t : clean (s ++ t) = clean s && clean t.
Proof. apply forallb_app. Qed.

Lemma render_module_no_linebreak m :
  clean (m_name m) = true -> clean (m_argument m) = true ->
  forallb (fun c => negb (is_linebreak c)) (render_module m) = true.
Proof.
  intros Hn Ha. unfold render_module, str_of_N.
  rewrite forallb_app. cbn [forallb]. rewrite forallb_app. cbn [forallb].
  rewrite (clean_no_linebreak _ (uint_str_clean _)).
  rewrite (clean_no_linebreak _ Hn), (clean_no_linebreak _ Ha).
  reflexivity.
Qed.

Lemma splitlines_render_modules ms :
  wf_modules ms = true ->
  splitlines (render_modules ms) = map render_module ms.
Proof.
  unfold splitlines, render_modules.
  induction ms as [|m ms IH]; simpl; [reflexivity|].
  intros H. apply andb_prop in H as [Hm Hms]. apply andb_prop in Hm as [Hn Ha].
  rewrite <- app_assoc. simpl.
  rewrite splitlines_line by (apply render_module_no_linebreak; assumption).
  rewrite (IH Hms). reflexivity.
Qed.

Lemma find_mic_loop_loop_listing ms :
  wf_modules ms = true ->
  _find_mic_loop_module_loop (map render_module ms) =
  option_map listed_id (List.find is_mic_loop ms).
Proof.
  induction ms as [|m ms IH]; [reflexivity|].
  cbn [wf_modules forallb map _find_mic_loop_module_loop List.find].
  intros H. apply andb_prop in H as [Hm Hms]. apply andb_prop in Hm as [Hn Ha].
  rewrite split_render_module by assumption.
  unfold is_mic_loop at 1.
  destruct (eqb (m_name m) (lit "module-loopback")); cbn [negb andb]; [|auto].
  destruct (is_mic_loop_args (m_argument m)); cbn [option_map]; auto.
Qed.

Lemma module_id_by_name_loop_listing module_name token ms :
  wf_modules ms = true ->
  _module_id_by_name_loop module_name (Some token) (map render_module ms) =
  option_map listed_id (List.find (is_module module_name token) ms).
Proof.
  induction ms as [|m ms IH]; [reflexivity|].
  cbn [wf_modules forallb map _module_id_by_name_loop List.find].
  intros H. apply andb_prop in H as [Hm Hms]. apply andb_prop in Hm as [Hn Ha].
  rewrite split_render_module by assumption.
  unfold is_module at 1.
  destruct (eqb (m_name m) module_name); cbn [negb andb]; [|auto].
  destruct (contains token (m_argument m)); cbn [option_map]; auto.
Qed.

End Listing.

(** ** Runs that go through *)

Section Runs.

Implicit Types (sv : Server) (a : Audio).

Lemma failed_nonzero f : (returncode (failed f) =? 0) = false.
Proof. unfold failed. simpl. destruct (f_signalled f); reflexivity. Qed.

(** A run that exits with status 0 was served by the server. *)
Lemma subprocess_run_ok_served argv sv cp sv' :
  subprocess_run argv sv = (Return cp, sv') -> returncode cp = 0 ->
  exists rest, serve (parse_argv argv) (record_run argv rest sv) = (cp, sv').
Proof.
  unfold subprocess_run.
  destruct (faults sv) as [|[|f|e|] rest]; destruct (pactl_present sv);
    cbn [negb tl]; try discriminate.
  - destruct (serve _ _) as [cp1 s1] eqn:Hs. intros [= <- <-] _. eauto.
  - destruct (serve _ _) as [cp1 s1] eqn:Hs. intros [= <- <-] _. eauto.
  - intros [= <- <-] Hrc. pose proof (failed_nonzero f) as H.
    rewrite Hrc in H. discriminate.
Qed.

Lemma run_inv argv a r a' :
  _run argv a = (r, a') ->
  subprocess_run argv (server a) = (r, server a') /\ router a' = router a.
Proof.
  unfold _run. destruct (subprocess_run argv (server a)) as [r1 s1].
  intros [= <- <-]. auto.
Qed.

Lemma query_ok_run a :
  modules_query_ok a = true ->
  fst (_run list_modules_cmd a) = Return (ok (render_modules (modules (server a)))).
Proof.
  unfold modules_query_ok.
  destruct (_run list_modules_cmd a) as [[cp|e] a1] eqn:E; cbn [fst]; [|discriminate].
  intros Hrc. apply Z.eqb_eq in Hrc.
  apply run_inv in E as [E _].
  apply subprocess_run_ok_served in E as [rest E]; [|assumption].
  change (parse_argv list_modules_cmd) with ListModules in E.
  cbn in E. injection E as <- _. reflexivity.
Qed.

(** With a readable listing and a query that goes through, discovery
    returns the first mic loopback of the module graph. *)
Lemma find_mic_loop_ok a :
  wf_modules (modules (server a)) = true ->
  modules_query_ok a = true ->
  fst (_find_mic_loop_module a) =
  Return (option_map listed_id (List.find is_mic_loop (modules (server a)))).
Proof.
  intros Hwf Hq. apply query_ok_run in Hq.
  unfold _find_mic_loop_module, bind.
  destruct (_run list_modules_cmd a) as [r a1]. cbn [fst] in Hq. subst r.
  cbn. rewrite splitlines_render_modules by assumption.
  rewrite find_mic_loop_loop_listing by assumption. reflexivity.
Qed.

Lemma module_id_by_name_ok module_name token a :
  wf_modules (modules (server a)) = true ->
  modules_query_ok a = true ->
  fst (_module_id_by_name module_name (Some token) a) =
  Return (option_map listed_id (List.find (is_module module_name token) (modules (server a)))).
Proof.
  intros Hwf Hq. apply query_ok_run in Hq.
  unfold _module_id_by_name, bind.
  destruct (_run list_modules_cmd a) as [r a1]. cbn [fst] in Hq. subst r.
  cbn. rewrite splitlines_render_modules by assumption.
  rewrite module_id_by_name_loop_listing by assumption. reflexivity.
Qed.

Lemma run_load_ok name args a cp a' :
  _run (lit "pactl" :: lit "load-module" :: name :: args) a = (Return cp, a') ->
  returncode cp = 0 ->
  modules (server a') =
    modules (server a) ++
    [{| m_index := next_index (server a); m_name := name;
        m_argument := join (lit " ") args |}] /\
  next_index (server a') = N.succ (next_index (server a)).
Proof.
  intros E Hrc. apply run_inv in E as [E _].
  apply subprocess_run_ok_served in E as [rest E]; [|assumption].
  change (parse_argv (lit "pactl" :: lit "load-module" :: name :: args))
    with (LoadModule name args) in E.
  cbn in E. injection E as _ <-. auto.
Qed.

Lemma run_unload_ok module_id a cp a' :
  _run (unload_cmd module_id) a = (Return cp, a') ->
  returncode cp = 0 ->
  modules (server a') =
    List.filter (fun m => negb (has_index module_id m)) (modules (server a)) /\
  next_index (server a') = next_index (server a).
Proof.
  intros E Hrc. apply run_inv in E as [E _].
  apply subprocess_run_ok_served in E as [rest E]; [|assumption].
  change (parse_argv (unload_cmd module_id)) with (UnloadModule module_id) in E.
  cbn [serve record_run modules next_index] in E.
  destruct (existsb _ _).
  - injection E as _ <-. auto.
  - injection E as <- _. discriminate.
Qed.

End Runs.

(** ** One connect call *)

Section Connect.

Implicit Types (a : Audio) (ms : list Module_).

Lemma connect_load_inv source_name a r a' :
  connect_load source_name a = (r, a') -> succeeded r = true ->
  modules (server a') =
    modules (server a) ++ [loopback_module (next_index (server a)) source_name] /\
  issued (server a') = issued (server a) ++ [load_loopback_cmd source_name].
Proof.
  unfold connect_load, bind.
  destruct (_run (load_loopback_cmd source_name) a) as [[cp|e] a1] eqn:E.
  - destruct (returncode cp =? 0) eqn:Hrc; cbn [negb].
    + apply Z.eqb_eq in Hrc. intros [= <- <-] _. cbn.
      pose proof (run_issued _ _ _ _ E) as [Hi _].
      apply run_load_ok in E as [Hm _]; auto.
    + intros [= <- <-]. discriminate.
  - intros [= <- <-]. discriminate.
Qed.

Lemma mic_loops_filter_nil (q : Module_ -> bool) ms :
  mic_loops ms = [] -> mic_loops (List.filter q ms) = [].
Proof.
  unfold mic_loops. induction ms as [|m ms IH]; cbn [List.filter]; [reflexivity|].
  destruct (is_mic_loop m) eqn:Hm; cbn iota; [intros ?; discriminate|].
  intros H. destruct (q m); cbn [List.filter]; [rewrite Hm|]; auto.
Qed.

Lemma has_index_listed m : has_index (listed_id m) m = true.
Proof. unfold has_index, eqb. apply bool_decide_eq_true. reflexivity. Qed.

(** Unloading the discovered loopback leaves no mic loopback when there
    was at most one. *)
Lemma mic_loops_after_unload ms m0 :
  List.find is_mic_loop ms = Some m0 ->
  (length (mic_loops ms) <= 1)%nat ->
  mic_loops (List.filter (fun m => negb (has_index (listed_id m0) m)) ms) = [].
Proof.
  unfold mic_loops. induction ms as [|m ms IH]; cbn [List.filter List.find];
    [intros ?; discriminate|].
  destruct (is_mic_loop m) eqn:Hm; cbn iota.
  - intros Hf Hlen. injection Hf as ->. rewrite has_index_listed. cbn [negb].
    apply mic_loops_filter_nil. unfold mic_loops.
    cbn [length] in Hlen. destruct (List.filter is_mic_loop ms); [reflexivity|].
    cbn [length] in Hlen. lia.
  - intros Hf Hlen. destruct (negb _); cbn [List.filter]; [rewrite Hm|]; auto.
Qed.

Lemma find_none_mic_loops ms : List.find is_mic_loop ms = None -> mic_loops ms = [].
Proof.
  unfold mic_loops. induction ms as [|m ms IH]; cbn [List.filter List.find]; [reflexivity|].
  destruct (is_mic_loop m); cbn iota; [intros ?; discriminate|auto].
Qed.

Lemma wf_modules_filter (q : Module_ -> bool) ms :
  wf_modules ms = true -> wf_modules (List.filter q ms) = true.
Proof.
  unfold wf_modules. induction ms as [|m ms IH]; cbn [List.filter forallb]; [reflexivity|].
  intros H. apply andb_prop in H as [Hm Hms].
  destruct (q m); cbn [forallb]; [rewrite Hm|]; auto.
Qed.

Lemma clean_loopback_args source_name :
  clean source_name = true -> clean (join (lit " ") (loopback_args source_name)) = true.
Proof.
  intros H. unfold loopback_args. cbn [join].
  rewrite !clean_app, H. reflexivity.
Qed.

Lemma wf_modules_snoc ms index source_name :
  wf_modules ms = true -> clean source_name = true ->
  wf_modules (ms ++ [loopback_module index source_name]) = true.
Proof.
  intros Hms Hc. unfold wf_modules. rewrite forallb_app. fold (wf_modules ms).
  rewrite Hms. cbn [forallb loopback_module m_name m_argument].
  rewrite clean_loopback_args by assumption. reflexivity.
Qed.

Lemma mic_loops_snoc ms m :
  mic_loops ms = [] ->
  mic_loops (ms ++ [m]) = if is_mic_loop m then [m] else [].
Proof.
  unfold mic_loops. intros H. rewrite List.filter_app, H. reflexivity.
Qed.

(** The commands of a successful call: the discovery query, the unload of
    what it found, then the load. *)
Lemma connect_trace source_name a :
  succeeded (fst (connect_input_source_to_soundpad source_name a)) = true ->
  issued (server (snd (connect_input_source_to_soundpad source_name a))) =
  issued (server a) ++ connect_commands (fst (_find_mic_loop_module a)) source_name.
Proof.
  unfold connect_input_source_to_soundpad, bind, connect_commands.
  destruct (_find_mic_loop_module a) as [[found|e] a1] eqn:Ef; cbn [fst snd];
    [|discriminate].
  apply find_mic_loop_frame in Ef as (Hi & _ & _).
  assert (Hload : forall a2, issued (server a2) = issued (server a) ++ [list_modules_cmd] ++ [] ->
     succeeded (fst (connect_load source_name a2)) = true ->
     issued (server (snd (connect_load source_name a2))) =
     issued (server a) ++ list_modules_cmd :: [] ++ [load_loopback_cmd source_name]).
  { intros a2 H2 Hs. destruct (connect_load source_name a2) as [r a3] eqn:El.
    apply connect_load_inv in El as [_ El]; [|assumption].
    cbn [snd]. rewrite El, H2, <- app_assoc. reflexivity. }
  destruct found as [[|c module_id]|]; try (apply Hload; assumption).
  destruct (_run (unload_cmd (c :: module_id)) a1) as [[cp|e] a2] eqn:Eu;
    cbn [fst snd]; [|discriminate].
  destruct (returncode cp =? 0); cbn [negb fst snd]; [|discriminate].
  apply run_issued in Eu as [Hu _].
  intros Hs. cbn in Hs |- *.
  destruct (connect_load source_name _) as [r a3] eqn:El.
  apply connect_load_inv in El as [_ El]; [|assumption].
  cbn [snd]. rewrite El. cbn. rewrite Hu, Hi, <- !app_assoc. reflexivity.
Qed.

(** The module graph after a successful call whose discovery query went
    through: what was there without its mic loopback, then the new one. *)
Lemma connect_modules source_name a :
  wf_modules (modules (server a)) = true ->
  modules_query_ok a = true ->
  (length (mic_loops (modules (server a))) <= 1)%nat ->
  succeeded (fst (connect_input_source_to_soundpad source_name a)) = true ->
  exists rest,
    modules (server (snd (connect_input_source_to_soundpad source_name a))) =
      rest ++ [loopback_module (next_index (server a)) source_name] /\
    mic_loops rest = [] /\ wf_modules rest = true.
Proof.
  intros Hwf Hq Hlen.
  pose proof (find_mic_loop_ok a Hwf Hq) as Hfound.
  unfold connect_input_source_to_soundpad, bind.
  destruct (_find_mic_loop_module a) as [r a1] eqn:Ef. cbn [fst] in Hfound. subst r.
  pose proof (find_mic_loop_frame _ _ _ Ef) as (_ & Hm1 & _).
  assert (Hn1 : next_index (server a1) = next_index (server a)).
  { clear -Ef. unfold _find_mic_loop_module, bind in Ef.
    destruct (_run list_modules_cmd a) as [[cp|e] a2] eqn:E;
      apply run_inv in E as [E _]; apply subprocess_run_list_keeps in E as [_ E];
      [destruct (negb _)|]; injection Ef as _ <-; assumption. }
  destruct (List.find is_mic_loop (modules (server a))) as [m0|] eqn:Hfind;
    cbn [option_map].
  - pose proof (str_of_N_truthy (m_index m0)) as Ht. fold (listed_id m0) in Ht.
    destruct (listed_id m0) as [|c module_id] eqn:Hid; [discriminate|].
    destruct (_run (unload_cmd (c :: module_id)) a1) as [[cp|e] a2] eqn:Eu;
      cbn [fst snd]; [|discriminate].
    destruct (returncode cp =? 0) eqn:Hrc; cbn [negb fst snd]; [|discriminate].
    apply Z.eqb_eq in Hrc. apply run_unload_ok in Eu as [Hm2 Hn2]; [|assumption].
    intros Hs. cbn in Hs |- *.
    destruct (connect_load source_name _) as [r a3] eqn:El.
    apply connect_load_inv in El as [El _]; [|assumption].
    cbn [snd]. cbn in El. rewrite El, Hm2, Hn2, Hm1, Hn1.
    eexists. split; [reflexivity|]. rewrite <- Hid. split.
    + apply mic_loops_after_unload; assumption.
    + apply wf_modules_filter; assumption.
  - intros Hs. destruct (connect_load source_name a1) as [r a3] eqn:El.
    apply connect_load_inv in El as [El _]; [|assumption].
    cbn [snd]. rewrite El, Hm1, Hn1.
    eexists. split; [reflexivity|]. split; [|assumption].
    apply find_none_mic_loops; assumption.
Qed.

End Connect.

(** ** At most one mic loopback *)

Lemma is_mic_loop_loopback_module index source_name :
  is_mic_loop (loopback_module index source_name) =
  is_mic_loop_args (join (lit " ") (loopback_args source_name)).
Proof. reflexivity. Qed.

Lemma connect_keeps_invariant source_name a r a' :
  connect_input_source_to_soundpad source_name a = (r, a') ->
  wf_modules (modules (server a)) = true ->
  (length (mic_loops (modules (server a))) <= 1)%nat ->
  modules_query_ok a = true ->
  succeeded r = true ->
  exists rest,
    modules (server a') = rest ++ [loopback_module (next_index (server a)) source_name] /\
    mic_loops rest = [] /\ wf_modules rest = true.
Proof.
  intros E Hwf Hlen Hq Hs.
  pose proof (connect_modules source_name a Hwf Hq Hlen) as H.
  rewrite E in H. cbn [fst snd] in H. auto.
Qed.

(** C1, as the code has it. Start from a server whose listing can be read
    back and which holds no mic loopback, and let
    [connect_input_source_to_soundpad] be called with [A], then [B], then
    [C], each call returning success and each discovery query exiting with
    status 0. If [A] and [B] hold no tab or line-break character, and the
    loopback arguments built from [C] pass the test of
    [_find_mic_loop_module] (they do not contain
    [source=soundpad_sink.monitor]), then exactly one mic loopback exists
    afterwards: the [module-loopback] loaded for [C]. Moreover every
    successful call, in any state, issues the discovery query, then the
    unload of the loopback it discovered, then the load of the new one. *)
Theorem connect_thrice_one_mic_loop
    (A B C : str) (a0 a1 a2 a3 : Audio) (r1 r2 r3 : outcome (bool * str)) :
  wf_modules (modules (server a0)) = true ->
  mic_loops (modules (server a0)) = [] ->
  connect_input_source_to_soundpad A a0 = (r1, a1) ->
  connect_input_source_to_soundpad B a1 = (r2, a2) ->
  connect_input_source_to_soundpad C a2 = (r3, a3) ->
  succeeded r1 = true -> succeeded r2 = true -> succeeded r3 = true ->
  modules_query_ok a0 = true -> modules_query_ok a1 = true -> modules_query_ok a2 = true ->
  clean A = true -> clean B = true ->
  is_mic_loop_args (join (lit " ") (loopback_args C)) = true ->
  mic_loops (modules (server a3)) = [loopback_module (next_index (server a2)) C] /\
  (forall source_name a,
     succeeded (fst (connect_input_source_to_soundpad source_name a)) = true ->
     issued (server (snd (connect_input_source_to_soundpad source_name a))) =
     issued (server a) ++ connect_commands (fst (_find_mic_loop_module a)) source_name).
Proof.
  intros Hwf0 Hnone E1 E2 E3 Hs1 Hs2 Hs3 Hq0 Hq1 Hq2 HA HB HC.
  split; [|apply connect_trace].
  assert (Hlen0 : (length (mic_loops (modules (server a0))) <= 1)%nat)
    by (rewrite Hnone; cbn; lia).
  destruct (connect_keeps_invariant _ _ _ _ E1 Hwf0 Hlen0 Hq0 Hs1)
    as (rest1 & Hm1 & Hl1 & Hw1).
  assert (Hwf1 : wf_modules (modules (server a1)) = true)
    by (rewrite Hm1; apply wf_modules_snoc; assumption).
  assert (Hlen1 : (length (mic_loops (modules (server a1))) <= 1)%nat)
    by (rewrite Hm1, mic_loops_snoc by assumption; destruct (is_mic_loop _); cbn; lia).
  destruct (connect_keeps_invariant _ _ _ _ E2 Hwf1 Hlen1 Hq1 Hs2)
    as (rest2 & Hm2 & Hl2 & Hw2).
  assert (Hwf2 : wf_modules (modules (server a2)) = true)
    by (rewrite Hm2; apply wf_modules_snoc; assumption).
  assert (Hlen2 : (length (mic_loops (modules (server a2))) <= 1)%nat)
    by (rewrite Hm2, mic_loops_snoc by assumption; destruct (is_mic_loop _); cbn; lia).
  destruct (connect_keeps_invariant _ _ _ _ E3 Hwf2 Hlen2 Hq2 Hs3)
    as (rest3 & Hm3 & Hl3 & Hw3).
  rewrite Hm3, mic_loops_snoc by assumption.
  rewrite is_mic_loop_loopback_module, HC. reflexivity.
Qed.

Lemma connect_thrice_one_mic_loop_witness :
  mic_loops (modules (server
    (snd (connect_input_source_to_soundpad (lit "alsa_input.c")
      (snd (connect_input_source_to_soundpad (lit "alsa_input.b")
        (snd (connect_input_source_to_soundpad (lit "alsa_input.a") demo_audio)))))))) =
  [loopback_module 4 (lit "alsa_input.c")].
Proof.
  pose (a1 := snd (connect_input_source_to_soundpad (lit "alsa_input.a") demo_audio)).
  pose (a2 := snd (connect_input_source_to_soundpad (lit "alsa_input.b") a1)).
  apply (connect_thrice_one_mic_loop
           (lit "alsa_input.a") (lit "alsa_input.b") (lit "alsa_input.c")
           demo_audio a1 a2
           (snd (connect_input_source_to_soundpad (lit "alsa_input.c") a2))
           (fst (connect_input_source_to_soundpad (lit "alsa_input.a") demo_audio))
           (fst (connect_input_source_to_soundpad (lit "alsa_input.b") a1))
           (fst (connect_input_source_to_soundpad (lit "alsa_input.c") a2)));
    vm_compute; reflexivity.
Defined.

(** The wording of C1 in the specification does not hold of the code. On
    [demo_audio], which holds no mic loopback, three successful calls that
    end with the name of the sink's own monitor leave no mic loopback at
    all: the module loaded last carries [source=soundpad_sink.monitor],
    which the pattern excludes. On [flaky_audio] the discovery query of the
    second call exits with status 1, the call loads its loopback without
    unloading the first, and two mic loopbacks remain after the third
    call. *)
Lemma connect_thrice_counterexample :
  ~ (forall (A B C : str) (a0 a1 a2 a3 : Audio) (r1 r2 r3 : outcome (bool * str)),
       mic_loops (modules (server a0)) = [] ->
       connect_input_source_to_soundpad A a0 = (r1, a1) ->
       connect_input_source_to_soundpad B a1 = (r2, a2) ->
       connect_input_source_to_soundpad C a2 = (r3, a3) ->
       succeeded r1 = true -> succeeded r2 = true -> succeeded r3 = true ->
       exists m, mic_loops (modules (server a3)) = [m] /\
                 startswith (lit "source=" ++ C ++ lit " ") (m_argument m) = true) /\
  (let a1 := snd (connect_input_source_to_soundpad (lit "alsa_input.a") flaky_audio) in
   let a2 := snd (connect_input_source_to_soundpad (lit "alsa_input.b") a1) in
   let a3 := snd (connect_input_source_to_soundpad (lit "alsa_input.c") a2) in
   succeeded (fst (connect_input_source_to_soundpad (lit "alsa_input.a") flaky_audio)) = true /\
   succeeded (fst (connect_input_source_to_soundpad (lit "alsa_input.b") a1)) = true /\
   succeeded (fst (connect_input_source_to_soundpad (lit "alsa_input.c") a2)) = true /\
   mic_loops (modules (server a3)) =
     [loopback_module 3 (lit "alsa_input.b"); loopback_module 4 (lit "alsa_input.c")]).
Proof.
  split.
  - intros H.
    pose (a1 := snd (connect_input_source_to_soundpad (lit "alsa_input.a") demo_audio)).
    pose (a2 := snd (connect_input_source_to_soundpad (lit "alsa_input.b") a1)).
    destruct (H (lit "alsa_input.a") (lit "alsa_input.b") (lit "soundpad_sink.monitor")
                demo_audio a1 a2
                (snd (connect_input_source_to_soundpad (lit "soundpad_sink.monitor") a2))
                (fst (connect_input_source_to_soundpad (lit "alsa_input.a") demo_audio))
                (fst (connect_input_source_to_soundpad (lit "alsa_input.b") a1))
                (fst (connect_input_source_to_soundpad (lit "soundpad_sink.monitor") a2)))
      as (m & Hm & _); try (vm_compute; reflexivity).
    vm_compute in Hm. discriminate Hm.
  - vm_compute. repeat split; reflexivity.
Qed.

(** ** Idempotence of ensure_virtual_mic *)

Section EnsureVirtualMic.

Implicit Types (a : Audio).

Lemma goes_through_query n a : goes_through (S n) a = true -> modules_query_ok a = true.
Proof.
  unfold goes_through, modules_query_ok, _run, subprocess_run.
  intros H. apply andb_prop in H as [Hp Hf]. rewrite Hp. cbn [negb].
  destruct (faults (server a)) as [|[|f|e|] rest]; cbn in Hf |- *; auto; discriminate.
Qed.

Lemma goes_through_run n cmd a r a' :
  goes_through (S n) a = true -> _run cmd a = (r, a') -> goes_through n a' = true.
Proof.
  unfold goes_through. intros H E. apply andb_prop in H as [Hp Hf].
  apply run_inv in E as [E _]. unfold subprocess_run in E. rewrite Hp in E.
  cbn [negb] in E.
  destruct (faults (server a)) as [|[|f|e|] rest] eqn:Hfa; cbn in Hf; try discriminate.
  - destruct (serve _ _) as [cp s1] eqn:Hs. injection E as _ <-.
    apply serve_issued in Hs as (_ & -> & ->). cbn. rewrite Hp.
    destruct n; reflexivity.
  - destruct (serve _ _) as [cp s1] eqn:Hs. injection E as _ <-.
    apply serve_issued in Hs as (_ & -> & ->). cbn. rewrite Hp. cbn.
    clear -Hf. revert rest Hf. induction n as [|n IH]; intros rest Hf; [reflexivity|].
    destruct rest as [|[|f|e|] rest]; cbn in Hf |- *; auto; discriminate.
Qed.

Lemma existsb_find {A} (p : A -> bool) l :
  existsb p l = true -> exists x, List.find p l = Some x.
Proof.
  induction l as [|y l IH]; cbn [existsb List.find]; [intros ?; discriminate|].
  destruct (p y); cbn [orb]; eauto.
Qed.

(** A discovery that goes through returns the listed module, runs one
    query, and touches neither the router nor the module graph. *)
Lemma module_id_by_name_through n module_name token a :
  wf_modules (modules (server a)) = true ->
  goes_through (S n) a = true ->
  exists a',
    _module_id_by_name module_name (Some token) a =
      (Return (option_map listed_id
                 (List.find (is_module module_name token) (modules (server a)))), a') /\
    router a' = router a /\
    modules (server a') = modules (server a) /\
    issued (server a') = issued (server a) ++ [list_modules_cmd] /\
    goes_through n a' = true.
Proof.
  intros Hwf Hg.
  pose proof (module_id_by_name_ok module_name token a Hwf (goes_through_query _ _ Hg)) as Hr.
  destruct (_module_id_by_name module_name (Some token) a) as [r a'] eqn:E.
  cbn [fst] in Hr. subst r. exists a'. split; [reflexivity|].
  unfold _module_id_by_name, bind in E.
  destruct (_run list_modules_cmd a) as [[cp|e] a1] eqn:Er.
  - pose proof (run_issued _ _ _ _ Er) as [Hi Hro].
    pose proof (run_list_keeps _ _ _ Er) as Hm.
    pose proof (goes_through_run _ _ _ _ _ Hg Er) as Hg'.
    destruct (negb _); injection E as _ <-; auto.
  - discriminate.
Qed.




(** A load that goes through adds the module and exits with status 0. *)
Lemma run_load_through n name args a :
  goes_through (S n) a = true ->
  exists cp a',
    _run (lit "pactl" :: lit "load-module" :: name :: args) a = (Return cp, a') /\
    returncode cp = 0 /\
    modules (server a') =
      modules (server a) ++
      [{| m_index := next_index (server a); m_name := name;
          m_argument := join (lit " ") args |}] /\
    router a' = router a /\
    goes_through n a' = true.
Proof.
  intros Hg.
  destruct (_run (lit "pactl" :: lit "load-module" :: name :: args) a) as [r a'] eqn:E.
  pose proof (goes_through_run _ _ _ _ _ Hg E) as Hg'.
  pose proof (run_inv _ _ _ _ E) as [E' Hr].
  assert (Hrc : exists cp, r = Return cp /\ returncode cp = 0).
  { unfold goes_through in Hg. apply andb_prop in Hg as [Hp Hf].
    unfold subprocess_run in E'. rewrite Hp in E'. cbn [negb] in E'.
    change (parse_argv (lit "pactl" :: lit "load-module" :: name :: args))
      with (LoadModule name args) in E'.
    destruct (faults (server a)) as [|[|f|e|] rest]; cbn in Hf, E'; try discriminate;
      injection E' as <- _; eexists; split; reflexivity. }
  destruct Hrc as (cp & -> & Hrc). exists cp, a'.
  destruct (run_load_ok _ _ _ _ _ E Hrc) as [Hm _]. auto.
Qed.

Lemma wf_modules_app ms ms' :
  wf_modules (ms ++ ms') = wf_modules ms && wf_modules ms'.
Proof. apply forallb_app. Qed.



End EnsureVirtualMic.

Section EnsureTrace.

Implicit Types (a : Audio).




End EnsureTrace.




(** ** The chord codec *)

Section Characters.

Lemma isspace_lower_char c : isspace (lower_char c) = isspace c.
Proof. destruct c as [[] [] [] [] [] [] [] []]; vm_compute; reflexivity. Qed.

Lemma lower_char_plus c : bool_decide (lower_char c = plus) = bool_decide (c = plus).
Proof. destruct c as [[] [] [] [] [] [] [] []]; vm_compute; reflexivity. Qed.

Lemma lower_char_idem c : lower_char (lower_char c) = lower_char c.
Proof. destruct c as [[] [] [] [] [] [] [] []]; vm_compute; reflexivity. Qed.

Lemma lower_idem s : lower (lower s) = lower s.
Proof.
  unfold lower. rewrite map_map. apply map_ext. intros c. apply lower_char_idem.
Qed.

Lemma truthy_lower s : truthy (lower s) = truthy s.
Proof. destruct s; reflexivity. Qed.

Lemma plus_free_lower s : plus_free (lower s) = plus_free s.
Proof.
  induction s as [|c s IH]; [reflexivity|].
  cbn [lower map plus_free forallb]. rewrite lower_char_plus.
  f_equal. exact IH.
Qed.

Lemma hd_lower s : hd visible (lower s) = lower_char (hd visible s).
Proof. destruct s; reflexivity. Qed.

Lemma last_lower s : List.last (lower s) visible = lower_char (List.last s visible).
Proof.
  induction s as [|c s IH]; [reflexivity|].
  cbn [lower map]. destruct s as [|c' s]; [reflexivity|].
  cbn [lower map] in IH |- *. cbn [List.last] in IH |- *. exact IH.
Qed.

Lemma trimmed_lower s : trimmed (lower s) = trimmed s.
Proof.
  unfold trimmed. rewrite hd_lower, last_lower, !isspace_lower_char. reflexivity.
Qed.

Lemma is_token_lower s : is_token (lower s) = is_token s.
Proof.
  unfold is_token. rewrite truthy_lower, trimmed_lower, plus_free_lower. reflexivity.
Qed.

End Characters.

Section Strip.

Lemma lstrip_head s : isspace (hd visible s) = false -> lstrip s = s.
Proof. destruct s as [|c s]; cbn; [reflexivity|]. intros ->. reflexivity. Qed.

Lemma rstrip_cons c s : isspace c = false -> rstrip (c :: s) = c :: rstrip s.
Proof. intros H. cbn [rstrip]. rewrite H. destruct (rstrip s); reflexivity. Qed.

Lemma rstrip_last s : isspace (List.last s visible) = false -> rstrip s = s.
Proof.
  induction s as [|c s IH]; [reflexivity|].
  destruct s as [|c' s].
  - cbn. intros ->. reflexivity.
  - intros H. change (List.last (c :: c' :: s) visible) with (List.last (c' :: s) visible) in H.
    cbn [rstrip] in IH |- *. rewrite (IH H). reflexivity.
Qed.

Lemma strip_trimmed s : trimmed s = true -> strip s = s.
Proof.
  unfold trimmed, strip. intros H. apply andb_prop in H as [Hh Hl].
  apply negb_true_iff in Hh, Hl.
  rewrite lstrip_head by assumption. apply rstrip_last; assumption.
Qed.

Lemma hd_lstrip s : isspace (hd visible (lstrip s)) = false.
Proof.
  induction s as [|c s IH]; [reflexivity|].
  cbn [lstrip]. destruct (isspace c) eqn:Hc; [exact IH|exact Hc].
Qed.

Lemma hd_rstrip s :
  isspace (hd visible s) = false -> isspace (hd visible (rstrip s)) = false.
Proof.
  destruct s as [|c s]; [intros _; reflexivity|].
  cbn [hd]. intros H. rewrite rstrip_cons by assumption. exact H.
Qed.

Lemma last_rstrip s : isspace (List.last (rstrip s) visible) = false.
Proof.
  induction s as [|c s IH]; [reflexivity|].
  cbn [rstrip]. destruct (rstrip s) as [|c' r].
  - destruct (isspace c) eqn:Hc; [reflexivity|exact Hc].
  - exact IH.
Qed.

Lemma trimmed_strip s : trimmed (strip s) = true.
Proof.
  unfold trimmed, strip.
  rewrite hd_rstrip by apply hd_lstrip. rewrite last_rstrip. reflexivity.
Qed.

Lemma plus_free_lstrip s : plus_free s = true -> plus_free (lstrip s) = true.
Proof.
  induction s as [|c s IH]; [reflexivity|].
  cbn [lstrip]. destruct (isspace c); [|auto].
  cbn [plus_free forallb]. intros H. apply andb_prop in H as [_ H]. auto.
Qed.

Lemma plus_free_rstrip s : plus_free s = true -> plus_free (rstrip s) = true.
Proof.
  induction s as [|c s IH]; [reflexivity|].
  cbn [plus_free forallb]. intros H. apply andb_prop in H as [Hc H].
  cbn [rstrip]. specialize (IH H). destruct (rstrip s) as [|c' r].
  - destruct (isspace c); [reflexivity|]. cbn. rewrite Hc. reflexivity.
  - cbn [plus_free forallb] in IH |- *. rewrite Hc. exact IH.
Qed.

Lemma plus_free_strip s : plus_free s = true -> plus_free (strip s) = true.
Proof. intros H. apply plus_free_rstrip, plus_free_lstrip, H. Qed.

End Strip.

Section Tokens.

Lemma split_nonempty sep s : split sep s <> [].
Proof.
  destruct s as [|c s]; cbn [split]; [discriminate|].
  destruct (bool_decide (c = sep)); [discriminate|].
  destruct (split sep s); discriminate.
Qed.

Lemma split_plus_free s : plus_free s = true -> split plus s = [s].
Proof.
  induction s as [|c s IH]; [reflexivity|].
  cbn [plus_free forallb split]. intros H. apply andb_prop in H as [Hc Hs].
  destruct (bool_decide (c = plus)); [discriminate|].
  rewrite (IH Hs). reflexivity.
Qed.

Lemma split_plus_app s t :
  plus_free s = true -> split plus (s ++ plus :: t) = s :: split plus t.
Proof.
  induction s as [|c s IH]; cbn [app plus_free forallb split].
  - intros _. rewrite bool_decide_eq_true_2 by reflexivity. reflexivity.
  - intros H. apply andb_prop in H as [Hc Hs].
    destruct (bool_decide (c = plus)); [discriminate|].
    rewrite (IH Hs). reflexivity.
Qed.

Lemma split_join parts :
  parts <> [] -> forallb plus_free parts = true ->
  split plus (join [plus] parts) = parts.
Proof.
  induction parts as [|p parts IH]; [congruence|].
  intros _. cbn [forallb]. intros H. apply andb_prop in H as [Hp Hps].
  destruct parts as [|q parts].
  - cbn [join]. apply split_plus_free. assumption.
  - change (join [plus] (p :: q :: parts)) with (p ++ plus :: join [plus] (q :: parts)).
    rewrite split_plus_app by assumption.
    rewrite IH by (auto; discriminate). reflexivity.
Qed.

(** The pieces of a split carry no separator. *)
Lemma split_pieces_plus_free s : forallb plus_free (split plus s) = true.
Proof.
  induction s as [|c s IH]; [reflexivity|].
  cbn [split]. destruct (bool_decide (c = plus)) eqn:Hc.
  - cbn [forallb]. rewrite IH. reflexivity.
  - destruct (split plus s) as [|p ps]; cbn [forallb plus_free] in IH |- *.
    + rewrite Hc. reflexivity.
    + rewrite Hc. exact IH.
Qed.

Lemma chord_tokens_are_tokens raw : forallb is_token (chord_tokens raw) = true.
Proof.
  unfold chord_tokens.
  pose proof (split_pieces_plus_free raw) as H.
  induction (split plus raw) as [|p ps IH]; [reflexivity|].
  cbn [forallb] in H. apply andb_prop in H as [Hp Hps].
  cbn [map List.filter]. destruct (truthy (strip p)) eqn:Ht; [|auto].
  cbn [forallb]. rewrite (IH Hps). unfold is_token.
  rewrite Ht, trimmed_strip, plus_free_strip by assumption. reflexivity.
Qed.

Lemma forallb_last {A} (p : A -> bool) (l : list A) d :
  l <> [] -> forallb p l = true -> p (List.last l d) = true.
Proof.
  induction l as [|x l IH]; [congruence|].
  intros _. cbn [forallb]. intros H. apply andb_prop in H as [Hx Hl].
  destruct l as [|y l]; [exact Hx|].
  change (List.last (x :: y :: l) d) with (List.last (y :: l) d).
  apply IH; [discriminate|assumption].
Qed.

Lemma is_token_inv s :
  is_token s = true -> truthy s = true /\ trimmed s = true /\ plus_free s = true.
Proof.
  unfold is_token. intros H. apply andb_prop in H as [H H3].
  apply andb_prop in H as [H1 H2]. auto.
Qed.

Lemma hd_join p parts :
  truthy p = true -> hd visible (join [plus] (p :: parts)) = hd visible p.
Proof.
  destruct p as [|c p]; [discriminate|]. intros _.
  destruct parts; reflexivity.
Qed.

Lemma last_app_cons (s : str) c t : List.last (s ++ c :: t) visible = List.last (c :: t) visible.
Proof.
  induction s as [|x s IH]; [reflexivity|].
  cbn [app]. destruct (s ++ c :: t) eqn:E.
  - destruct s; discriminate.
  - rewrite <- E in *. cbn [List.last]. rewrite E. rewrite <- E. exact IH.
Qed.

Lemma join_truthy parts :
  parts <> [] -> forallb truthy parts = true -> truthy (join [plus] parts) = true.
Proof.
  destruct parts as [|p parts]; [congruence|].
  intros _. cbn [forallb]. intros H. apply andb_prop in H as [Hp _].
  destruct p as [|c p]; [discriminate|]. destruct parts; reflexivity.
Qed.

Lemma last_join parts :
  parts <> [] -> forallb truthy parts = true ->
  List.last (join [plus] parts) visible = List.last (List.last parts []) visible.
Proof.
  induction parts as [|p parts IH]; [congruence|].
  intros _. cbn [forallb]. intros H. apply andb_prop in H as [Hp Hps].
  destruct parts as [|q parts]; [reflexivity|].
  change (join [plus] (p :: q :: parts)) with (p ++ plus :: join [plus] (q :: parts)).
  rewrite last_app_cons.
  change (List.last (p :: q :: parts) []) with (List.last (q :: parts) []).
  rewrite <- IH by (auto; discriminate).
  pose proof (join_truthy (q :: parts)) as Hj.
  destruct (join [plus] (q :: parts)) as [|c j]; [|reflexivity].
  discriminate Hj; [discriminate|assumption].
Qed.

Lemma forallb_impl {A} (p q : A -> bool) l :
  (forall x, p x = true -> q x = true) -> forallb p l = true -> forallb q l = true.
Proof.
  intros Hpq. induction l as [|x l IH]; [reflexivity|].
  cbn [forallb]. intros H. apply andb_prop in H as [Hx Hl].
  rewrite (Hpq _ Hx), (IH Hl). reflexivity.
Qed.

Lemma map_strip_tokens parts :
  forallb is_token parts = true -> map strip parts = parts.
Proof.
  induction parts as [|p parts IH]; [reflexivity|].
  cbn [forallb map]. intros H. apply andb_prop in H as [Hp Hps].
  apply is_token_inv in Hp as (_ & Ht & _).
  rewrite strip_trimmed, IH by assumption. reflexivity.
Qed.

Lemma filter_truthy_tokens parts :
  forallb is_token parts = true -> List.filter truthy parts = parts.
Proof.
  induction parts as [|p parts IH]; [reflexivity|].
  cbn [forallb List.filter]. intros H. apply andb_prop in H as [Hp Hps].
  apply is_token_inv in Hp as (-> & _ & _). rewrite IH by assumption. reflexivity.
Qed.

(** A text that is written as tokens joined by [+] is read back as these
    tokens. *)
Lemma chord_tokens_join parts :
  parts <> [] -> forallb is_token parts = true ->
  strip (join [plus] parts) = join [plus] parts /\
  chord_tokens (join [plus] parts) = parts.
Proof.
  intros Hne Htok.
  assert (Htr : forallb truthy parts = true)
    by (eapply forallb_impl; [|exact Htok]; intros x Hx; apply is_token_inv in Hx; tauto).
  assert (Hpf : forallb plus_free parts = true)
    by (eapply forallb_impl; [|exact Htok]; intros x Hx; apply is_token_inv in Hx; tauto).
  split.
  - apply strip_trimmed. unfold trimmed.
    rewrite last_join by assumption.
    pose proof (forallb_last is_token parts [] Hne Htok) as Hl.
    apply is_token_inv in Hl as (_ & Hl & _).
    unfold trimmed in Hl. apply andb_prop in Hl as [_ Hl]. rewrite Hl.
    destruct parts as [|p parts]; [congruence|].
    cbn [forallb] in Htok. apply andb_prop in Htok as [Hp _].
    apply is_token_inv in Hp as (Hp1 & Hp2 & _).
    rewrite hd_join by assumption.
    unfold trimmed in Hp2. apply andb_prop in Hp2 as [-> _]. reflexivity.
  - unfold chord_tokens. rewrite split_join by assumption.
    rewrite map_strip_tokens by assumption.
    apply filter_truthy_tokens. assumption.
Qed.

End Tokens.

Section Parser.

Implicit Types (mods acc : gset str) (names tokens : list str).

Lemma hotkey_to_parts_by_tokens text :
  _hotkey_to_parts text =
  match chord_tokens (strip text) with
  | [] => None
  | parts =>
      match modifiers_loop ∅ (removelast parts) with
      | Some mods => Some (mods, lower (List.last parts []))
      | None => None
      end
  end.
Proof.
  unfold _hotkey_to_parts. destruct (strip text) as [|c raw]; [reflexivity|].
  cbn [truthy negb]. destruct (chord_tokens (c :: raw)); reflexivity.
Qed.

Lemma hotkey_to_parts_snoc text names key :
  chord_tokens (strip text) = names ++ [key] ->
  _hotkey_to_parts text =
  match modifiers_loop ∅ names with
  | Some mods => Some (mods, lower key)
  | None => None
  end.
Proof.
  intros E. rewrite hotkey_to_parts_by_tokens, E.
  destruct (names ++ [key]) as [|p ps] eqn:En; [destruct names; discriminate|].
  rewrite <- En. cbv zeta. rewrite removelast_last, last_last. reflexivity.
Qed.

Lemma hotkey_to_parts_inv text mods key :
  _hotkey_to_parts text = Some (mods, key) ->
  exists names key0,
    chord_tokens (strip text) = names ++ [key0] /\
    key = lower key0 /\ modifiers_loop ∅ names = Some mods.
Proof.
  rewrite hotkey_to_parts_by_tokens.
  destruct (chord_tokens (strip text)) as [|p parts] eqn:E; [discriminate|].
  assert (Hne : p :: parts <> []) by discriminate.
  cbv zeta.
  destruct (modifiers_loop ∅ (removelast (p :: parts))) as [m|] eqn:El; [|discriminate].
  intros [= <- <-].
  exists (removelast (p :: parts)), (List.last (p :: parts) []).
  split; [apply app_removelast_last; assumption|auto].
Qed.

Lemma modifier_name_canonical token name :
  modifier_name token = Some name -> In name canonical_modifiers.
Proof.
  unfold modifier_name, canonical_modifiers.
  repeat match goal with
         | |- context [if ?b then _ else _] => destruct b
         end; intros [= <-]; cbn; tauto.
Qed.

Lemma modifier_name_of_canonical name :
  In name canonical_modifiers -> modifier_name name = Some name.
Proof.
  cbn [In canonical_modifiers].
  intros [<- | [<- | [<- | [<- | []]]]]; vm_compute; reflexivity.
Qed.

Lemma canonical_is_token name : In name canonical_modifiers -> is_token name = true.
Proof.
  cbn [In canonical_modifiers].
  intros [<- | [<- | [<- | [<- | []]]]]; vm_compute; reflexivity.
Qed.

(** The set that the loop returns holds what it started with and the names
    of the tokens, and nothing else. *)
Lemma modifiers_loop_elem tokens : forall acc mods,
  modifiers_loop acc tokens = Some mods ->
  forall name, name ∈ mods <->
    name ∈ acc \/ exists token, In token tokens /\ modifier_name token = Some name.
Proof.
  induction tokens as [|t tokens IH]; cbn [modifiers_loop].
  - intros acc mods [= <-] name. split; [auto|].
    intros [H | (token & [] & _)]. exact H.
  - intros acc mods. destruct (modifier_name t) as [n|] eqn:Ht; [|discriminate].
    intros H name. rewrite (IH _ _ H name). rewrite elem_of_union, elem_of_singleton.
    split.
    + intros [[Ha | ->] | (token & Hin & Hn)]; [auto| |].
      * right. exists t. cbn. auto.
      * right. exists token. cbn. auto.
    + intros [Ha | (token & [<- | Hin] & Hn)]; [auto| |].
      * left. right. congruence.
      * right. eauto.
Qed.

Lemma modifiers_loop_canonical tokens : forall acc,
  (forall t, In t tokens -> modifier_name t = Some t) ->
  modifiers_loop acc tokens = Some (acc ∪ list_to_set tokens).
Proof.
  induction tokens as [|t tokens IH]; intros acc H; cbn [modifiers_loop].
  - cbn [list_to_set]. rewrite (right_id_L ∅ (∪)). reflexivity.
  - rewrite (H t) by (left; reflexivity).
    rewrite IH by (intros t' Ht'; apply H; right; assumption).
    cbn [list_to_set]. rewrite (assoc_L (∪)). reflexivity.
Qed.

Lemma modifiers_loop_permutation tokens tokens' :
  Permutation tokens tokens' ->
  forall acc, modifiers_loop acc tokens = modifiers_loop acc tokens'.
Proof.
  induction 1 as [|t l l' _ IH|x y l|l l' l'' _ IH1 _ IH2]; intros acc;
    cbn [modifiers_loop].
  - reflexivity.
  - destruct (modifier_name t); auto.
  - destruct (modifier_name x) as [a|], (modifier_name y) as [b|]; try reflexivity.
    rewrite <- !(assoc_L (∪)), (comm_L (∪) {[a]} {[b]}). reflexivity.
  - rewrite IH1. apply IH2.
Qed.

Lemma serialize_chord_parse mods key :
  is_token key = true ->
  (forall name, name ∈ mods -> In name canonical_modifiers) ->
  _hotkey_to_parts (serialize_chord mods key) = Some (mods, lower key).
Proof.
  intros Hkey Hsub. unfold serialize_chord.
  set (names := List.filter (fun name => bool_decide (name ∈ mods)) canonical_modifiers).
  assert (Hnames : forall n, In n names <-> In n canonical_modifiers /\ n ∈ mods).
  { intros n. subst names. rewrite filter_In, bool_decide_eq_true. reflexivity. }
  assert (Htok : forallb is_token (names ++ [key]) = true).
  { rewrite forallb_app. cbn [forallb]. rewrite Hkey.
    rewrite andb_true_r. apply forallb_forall. intros n Hn.
    apply canonical_is_token, Hnames, Hn. }
  destruct (chord_tokens_join (names ++ [key])) as [Hs Ht]; [|assumption|].
  { destruct names; discriminate. }
  rewrite (hotkey_to_parts_snoc _ names key) by (rewrite Hs; exact Ht).
  rewrite modifiers_loop_canonical
    by (intros t Hin; apply modifier_name_of_canonical, Hnames, Hin).
  do 2 f_equal. apply set_eq. intros n.
  rewrite elem_of_union, elem_of_list_to_set, list_elem_of_In, Hnames.
  split.
  - intros [H | [_ H]]; [|exact H]. apply not_elem_of_empty in H. destruct H.
  - intros H. right. auto.
Qed.

End Parser.

(** C7. A chord text that [_hotkey_to_parts] accepts, once written back by
    the serializer (modifiers in canonical order, then the base key, joined
    by [+]), parses to the same pair of modifier set and base key. Two
    texts with the same base-key token whose modifier tokens are a
    permutation of each other parse alike; so do [Alt+Ctrl+M] and
    [Ctrl+Alt+M], to the set of control and alt with key [m]; and
    [Shift+Alt+3] parses to the set of shift and alt with key [3]. *)
Theorem chord_round_trip :
  (forall text mods key,
     _hotkey_to_parts text = Some (mods, key) ->
     _hotkey_to_parts (serialize_chord mods key) = Some (mods, key)) /\
  (forall text text' names names' key,
     chord_tokens (strip text) = names ++ [key] ->
     chord_tokens (strip text') = names' ++ [key] ->
     Permutation names names' ->
     _hotkey_to_parts text = _hotkey_to_parts text') /\
  _hotkey_to_parts (lit "Alt+Ctrl+M") = _hotkey_to_parts (lit "Ctrl+Alt+M") /\
  _hotkey_to_parts (lit "Ctrl+Alt+M") = Some ({[ lit "control"; lit "alt" ]}, lit "m") /\
  _hotkey_to_parts (lit "Shift+Alt+3") = Some ({[ lit "shift"; lit "alt" ]}, lit "3").
Proof.
  split; [|split; [|repeat split; vm_compute; reflexivity]].
  - intros text mods key H.
    apply hotkey_to_parts_inv in H as (names & key0 & Htok & -> & Hloop).
    pose proof (chord_tokens_are_tokens (strip text)) as Hall.
    rewrite Htok, forallb_app in Hall. apply andb_prop in Hall as [_ Hk].
    cbn [forallb] in Hk. rewrite andb_true_r in Hk.
    rewrite serialize_chord_parse.
    + rewrite lower_idem. reflexivity.
    + rewrite is_token_lower. exact Hk.
    + intros name Hin.
      apply (modifiers_loop_elem _ _ _ Hloop) in Hin as [Hin | (t & _ & Ht)].
      * apply not_elem_of_empty in Hin. destruct Hin.
      * eapply modifier_name_canonical, Ht.
  - intros text text' names names' key E E' Hperm.
    rewrite (hotkey_to_parts_snoc _ _ _ E), (hotkey_to_parts_snoc _ _ _ E').
    rewrite (modifiers_loop_permutation _ _ Hperm). reflexivity.
Qed.

Lemma chord_round_trip_witness :
  _hotkey_to_parts (serialize_chord {[ lit "control"; lit "alt" ]} (lit "m")) =
    Some ({[ lit "control"; lit "alt" ]}, lit "m") /\
  _hotkey_to_parts (lit " Alt + Ctrl+M") = _hotkey_to_parts (lit "Ctrl+Alt+M").
Proof.
  split.
  - apply (proj1 chord_round_trip (lit "Ctrl+Alt+M")). vm_compute. reflexivity.
  - apply (proj1 (proj2 chord_round_trip) (lit " Alt + Ctrl+M") (lit "Ctrl+Alt+M")
             [lit "Alt"; lit "Ctrl"] [lit "Ctrl"; lit "Alt"] (lit "M")).
    + vm_compute. reflexivity.
    + vm_compute. reflexivity.
    + apply perm_swap.
Defined.

(** ** The hotkey manager on an example *)

Example register_demo :
  fst (register demo_entries demo_hotkeys) = Return [lit "Alt+F13"] /\
  bindings (manager (snd (register demo_entries demo_hotkeys))) !! (57, 8) = Some (Clip 0) /\
  bindings (manager (snd (register demo_entries demo_hotkeys))) !! (58, 8) = Some (Clip 1) /\
  bindings (manager (snd (register demo_entries demo_hotkeys))) !! (59, 9) = Some (Clip 2) /\
  registered (manager (snd (register demo_entries demo_hotkeys))) =
    [ (57, 8); (57, 10); (57, 24); (57, 26); (58, 8); (58, 10); (58, 24); (58, 26);
      (59, 9); (59, 11); (59, 25); (59, 27); (51, 8); (51, 10); (51, 24); (51, 26) ] /\
  grabs (xserver (snd (register demo_entries demo_hotkeys))) =
    [ (57, 8); (57, 10); (57, 24); (57, 26); (59, 25); (59, 27);
      (51, 8); (51, 10); (51, 24); (51, 26) ] /\
  fst (register [(Clip 5, lit "Ctrl+4")] demo_hotkeys) = Return [lit "Ctrl+4"].
Proof. repeat split; vm_compute; reflexivity. Qed.

Example start_register_stop_demo :
  let fresh := {| manager := GlobalHotkeyManager_init; xserver := demo_xserver |} in
  let started := snd (start fresh) in
  let bound := snd (register demo_entries started) in
  let stopped := snd (stop bound) in
  fst (start fresh) = Return true /\
  running (manager started) = true /\
  display (manager started) = Some (Display_ 1) /\
  fst (start started) = Return false /\
  length (grabs (xserver bound)) = 10%nat /\
  running (manager stopped) = false /\
  display (manager stopped) = None /\
  registered (manager stopped) = [] /\
  grabs (xserver stopped) = [] /\
  thread (manager stopped) = Some (Thread_ 2).
Proof. repeat split; vm_compute; reflexivity. Qed.

(** ** Runs of the manager *)

Section ManagerRuns.

Implicit Types (h : Hotkeys) (xs : XServer).

Lemma note_grabs_cons keycode mask masks h :
  note_grabs keycode (mask :: masks) h =
  note_grabs keycode masks (note_grabs keycode [mask] h).
Proof.
  unfold note_grabs, granted, recorded. cbn.
  destruct (grab_answer (xserver h) keycode mask); cbn;
    rewrite <- ?app_assoc, ?app_nil_r; reflexivity.
Qed.

(** One pass of the variant loop: the value it returns and the state it
    leaves. *)
Lemma grab_variants_run keycode base_mask extras : forall any_grab h,
  grab_variants keycode base_mask extras any_grab h =
  (Return (any_grab || existsb (recorded (xserver h) keycode) (map (Z.lor base_mask) extras)),
   note_grabs keycode (map (Z.lor base_mask) extras) h).
Proof.
  induction extras as [|extra rest IH]; intros any_grab h.
  - cbn. rewrite orb_false_r. destruct h as [[] []].
    unfold note_grabs, set_xserver. cbn. rewrite !app_nil_r. reflexivity.
  - cbn [grab_variants map existsb]. rewrite note_grabs_cons.
    unfold bind at 1. unfold try_except, grab_key_sync, bind, modify_xserver, modify, gets, raise.
    cbn [xserver manager grab_answer set_xserver].
    unfold recorded at 1.
    destruct (grab_answer (xserver h) keycode (Z.lor base_mask extra)) as [| |e] eqn:Hg.
    + cbn. rewrite IH. rewrite orb_true_r. f_equal.
      f_equal. destruct h as [[] []]. unfold note_grabs, granted, recorded. cbn in Hg |- *.
      rewrite Hg. cbn. reflexivity.
    + cbn. rewrite IH. rewrite orb_true_r. f_equal.
      f_equal. destruct h as [[] []]. unfold note_grabs, granted, recorded. cbn in Hg |- *.
      rewrite Hg. cbn. rewrite !app_nil_r. reflexivity.
    + cbn. rewrite IH. cbn [orb]. f_equal.
      f_equal. destruct h as [[] []]. unfold note_grabs, granted, recorded. cbn in Hg |- *.
      rewrite Hg. cbn. rewrite !app_nil_r. reflexivity.
Qed.

Lemma note_grabs_oracles keycode masks h :
  string_to_keysym (xserver (note_grabs keycode masks h)) = string_to_keysym (xserver h) /\
  keysym_to_keycode (xserver (note_grabs keycode masks h)) = keysym_to_keycode (xserver h) /\
  grab_answer (xserver (note_grabs keycode masks h)) = grab_answer (xserver h).
Proof. auto. Qed.

Lemma resolve_oracles xs xs' hotkey :
  string_to_keysym xs' = string_to_keysym xs ->
  keysym_to_keycode xs' = keysym_to_keycode xs ->
  resolve xs' hotkey = resolve xs hotkey.
Proof.
  intros H1 H2. unfold resolve, _keysym_to_keycode. rewrite H1, H2. reflexivity.
Qed.

Lemma any_granted_oracles xs xs' keycode base_mask :
  grab_answer xs' = grab_answer xs ->
  any_granted xs' keycode base_mask = any_granted xs keycode base_mask.
Proof. intros H. unfold any_granted, granted. rewrite H. reflexivity. Qed.

Lemma any_recorded_oracles xs xs' keycode base_mask :
  grab_answer xs' = grab_answer xs ->
  any_recorded xs' keycode base_mask = any_recorded xs keycode base_mask.
Proof. intros H. unfold any_recorded, recorded. rewrite H. reflexivity. Qed.

(** A granted grab is a recorded one. *)
Lemma granted_recorded xs keycode mask :
  granted xs keycode mask = true -> recorded xs keycode mask = true.
Proof. unfold granted, recorded. destruct (grab_answer xs keycode mask); auto. Qed.

Lemma any_granted_recorded xs keycode base_mask :
  any_granted xs keycode base_mask = true -> any_recorded xs keycode base_mask = true.
Proof.
  unfold any_granted, any_recorded. rewrite !existsb_exists.
  intros (m & Hi & Hg). exists m. split; [exact Hi|]. apply granted_recorded. exact Hg.
Qed.

Lemma in_conflict_oracles xs xs' hotkey :
  string_to_keysym xs' = string_to_keysym xs ->
  keysym_to_keycode xs' = keysym_to_keycode xs ->
  grab_answer xs' = grab_answer xs ->
  in_conflict xs' hotkey = in_conflict xs hotkey.
Proof.
  intros H1 H2 H3. unfold in_conflict. rewrite (resolve_oracles _ _ hotkey H1 H2).
  destruct (resolve xs hotkey) as [[[kc|] base]|]; try reflexivity.
  rewrite (any_recorded_oracles _ _ _ _ H3). reflexivity.
Qed.

Lemma conflicts_of_oracles xs xs' entries :
  string_to_keysym xs' = string_to_keysym xs ->
  keysym_to_keycode xs' = keysym_to_keycode xs ->
  grab_answer xs' = grab_answer xs ->
  conflicts_of xs' entries = conflicts_of xs entries.
Proof.
  intros H1 H2 H3. unfold conflicts_of. apply List.filter_ext.
  intros x. apply in_conflict_oracles; assumption.
Qed.

(** The loop of [register]: the conflicts it returns and the state it
    leaves. *)
Lemma register_loop_run entries : forall conflicts h,
  register_loop entries conflicts h =
  (Return (conflicts ++ conflicts_of (xserver h) entries), note_entries entries h) /\
  string_to_keysym (xserver (note_entries entries h)) = string_to_keysym (xserver h) /\
  keysym_to_keycode (xserver (note_entries entries h)) = keysym_to_keycode (xserver h) /\
  grab_answer (xserver (note_entries entries h)) = grab_answer (xserver h).
Proof.
  induction entries as [|[action hotkey] rest IH]; intros conflicts h.
  - cbn. rewrite app_nil_r. auto.
  - cbn [register_loop note_entries conflicts_of map List.filter snd].
    unfold in_conflict, resolve.
    destruct (_hotkey_to_parts hotkey) as [[mods key_name]|] eqn:Hp; [|apply IH].
    unfold bind at 1. unfold gets at 1. cbn [xserver].
    destruct (_keysym_to_keycode (xserver h) key_name) as [keycode|] eqn:Hk.
    + unfold bind at 1. rewrite grab_variants_run. cbn [orb].
      fold (variant_masks (_modifier_mask mods)).
      fold (any_recorded (xserver h) keycode (_modifier_mask mods)).
      set (base := _modifier_mask mods).
      set (h1 := note_grabs keycode (variant_masks base) h).
      destruct (any_recorded (xserver h) keycode base) eqn:Ha; cbn [negb].
      * unfold bind at 1. unfold gets at 1. unfold bind at 1.
        unfold set_bindings, set_manager, modify.
        change {| manager := _; xserver := xserver h1 |}
          with (note_binding (keycode, base) action h1).
        destruct (IH conflicts (note_binding (keycode, base) action h1))
          as (E & H1 & H2 & H3).
        rewrite E. fold (conflicts_of (xserver h) rest).
        rewrite (conflicts_of_oracles (xserver h)
                   (xserver (note_binding (keycode, base) action h1))) by reflexivity.
        auto.
      * destruct (IH (conflicts ++ [hotkey]) h1) as (E & H1 & H2 & H3).
        rewrite E, <- app_assoc. fold (conflicts_of (xserver h) rest).
        rewrite (conflicts_of_oracles (xserver h) (xserver h1)) by reflexivity.
        auto.
    + destruct (IH (conflicts ++ [hotkey]) h) as (E & H1 & H2 & H3).
      rewrite E, <- app_assoc. auto.
Qed.

Lemma unregister_all_loop_run pairs : forall h,
  _unregister_all_loop pairs h = (Return tt, note_ungrabs pairs h).
Proof.
  induction pairs as [|[keycode mask] rest IH]; intros h; [reflexivity|].
  cbn [_unregister_all_loop note_ungrabs].
  unfold bind at 1. unfold try_except, ungrab_key, bind, modify_xserver, modify, gets, raise.
  cbn [xserver manager ungrab_fails set_xserver].
  destruct (ungrab_fails (xserver h) keycode mask); cbn [ret]; rewrite IH; reflexivity.
Qed.

Lemma note_ungrabs_frame pairs : forall h,
  manager (note_ungrabs pairs h) = manager h /\
  string_to_keysym (xserver (note_ungrabs pairs h)) = string_to_keysym (xserver h) /\
  keysym_to_keycode (xserver (note_ungrabs pairs h)) = keysym_to_keycode (xserver h) /\
  grab_answer (xserver (note_ungrabs pairs h)) = grab_answer (xserver h) /\
  flush_fails (xserver (note_ungrabs pairs h)) = flush_fails (xserver h) /\
  requests (xserver (note_ungrabs pairs h)) =
    requests (xserver h) ++ map (fun p => UngrabKey (fst p) (snd p)) pairs.
Proof.
  induction pairs as [|[keycode mask] rest IH]; intros h.
  - cbn. rewrite app_nil_r. repeat split; reflexivity.
  - cbn [note_ungrabs]. destruct (IH
      {| manager := manager h;
         xserver := set_xserver (connections (xserver h))
           (if ungrab_fails (xserver h) keycode mask then grabs (xserver h)
            else List.filter (fun g => negb (pair_eqb g (keycode, mask))) (grabs (xserver h)))
           (requests (xserver h) ++ [UngrabKey keycode mask]) (xserver h) |})
      as (H1 & H2 & H3 & H4 & H5 & H6).
    rewrite H1, H2, H3, H4, H5, H6. cbn. rewrite <- app_assoc.
    repeat split; reflexivity.
Qed.

Lemma flush_guarded_run h : try_except flush (ret tt) h = (Return tt, h).
Proof.
  unfold try_except, flush, bind, gets, raise, ret.
  destruct (flush_fails (xserver h)); reflexivity.
Qed.

(** [register] on a running manager: the conflicts it returns and the
    state it leaves. *)
Lemma register_run entries h d w :
  running (manager h) = true -> display (manager h) = Some d -> root (manager h) = Some w ->
  register entries h =
  (Return (conflicts_of (xserver h) entries), note_entries entries (note_reset h)).
Proof.
  intros Hr Hd Hw. unfold register, bind at 1 2 3. unfold gets at 1 2 3.
  rewrite Hr, Hd, Hw.
  unfold bind at 1. unfold _unregister_all. unfold bind at 1 2. unfold gets at 1 2.
  rewrite Hd, Hw. unfold bind at 1. unfold gets at 1. unfold bind at 1.
  rewrite unregister_all_loop_run. unfold bind at 1.
  unfold set_registered at 1. unfold set_manager, modify.
  rewrite flush_guarded_run.
  unfold bind at 1. unfold set_bindings at 1. unfold set_manager, modify.
  cbn [manager xserver display root running thread bindings registered].
  fold (note_reset h).
  unfold bind at 1.
  destruct (register_loop_run entries [] (note_reset h)) as (E & _).
  rewrite E. unfold bind at 1. rewrite flush_guarded_run. cbn [app ret].
  rewrite (conflicts_of_oracles (xserver h) (xserver (note_reset h))); [reflexivity|..];
    unfold note_reset; cbn [xserver]; apply note_ungrabs_frame.
Qed.

End ManagerRuns.

Section Tables.

Implicit Types (h : Hotkeys) (xs : XServer) (table : gmap (Z * Z) Action).

Lemma table_of_oracles xs xs' entries : forall table,
  string_to_keysym xs' = string_to_keysym xs ->
  keysym_to_keycode xs' = keysym_to_keycode xs ->
  grab_answer xs' = grab_answer xs ->
  table_of xs' entries table = table_of xs entries table.
Proof.
  intros table H1 H2 H3. revert table.
  induction entries as [|[action hotkey] rest IH]; intros table; [reflexivity|].
  cbn [table_of]. rewrite (resolve_oracles _ _ hotkey H1 H2).
  destruct (resolve xs hotkey) as [[[kc|] base]|]; auto.
  rewrite (any_recorded_oracles _ _ _ _ H3). auto.
Qed.

Lemma grab_requests_oracles xs xs' entry :
  string_to_keysym xs' = string_to_keysym xs ->
  keysym_to_keycode xs' = keysym_to_keycode xs ->
  grab_requests xs' entry = grab_requests xs entry.
Proof.
  intros H1 H2. unfold grab_requests. rewrite (resolve_oracles _ _ _ H1 H2). reflexivity.
Qed.

(** What the loop of [register] leaves: the grab requests of the bindings
    in order, and the action table built from them. *)
Lemma note_entries_effect entries : forall h,
  requests (xserver (note_entries entries h)) =
    requests (xserver h) ++ concat (map (grab_requests (xserver h)) entries) /\
  bindings (manager (note_entries entries h)) =
    table_of (xserver h) entries (bindings (manager h)).
Proof.
  induction entries as [|[action hotkey] rest IH]; intros h.
  - cbn. rewrite app_nil_r. auto.
  - cbn [note_entries table_of map concat].
    assert (Hg : grab_requests (xserver h) (action, hotkey) =
                 match resolve (xserver h) hotkey with
                 | Some (Some kc, base) => map (GrabKey kc) (variant_masks base)
                 | _ => []
                 end) by reflexivity.
    rewrite Hg. clear Hg.
    destruct (resolve (xserver h) hotkey) as [[[kc|] base]|]; [|apply IH..].
    set (h1 := note_grabs kc (variant_masks base) h).
    destruct (any_recorded (xserver h) kc base).
    + destruct (IH (note_binding (kc, base) action h1)) as [Hr Hb].
      rewrite Hr, Hb. split.
      * cbn [note_binding xserver]. subst h1. cbn [note_grabs xserver set_xserver requests].
        rewrite <- app_assoc.
        rewrite (map_ext _ (grab_requests (xserver h))); [reflexivity|].
        intros e. apply grab_requests_oracles; reflexivity.
      * apply table_of_oracles; reflexivity.
    + destruct (IH h1) as [Hr Hb]. rewrite Hr, Hb. split.
      * subst h1. cbn [note_grabs xserver set_xserver requests].
        rewrite <- app_assoc.
        rewrite (map_ext _ (grab_requests (xserver h))); [reflexivity|].
        intros e. apply grab_requests_oracles; reflexivity.
      * apply table_of_oracles; reflexivity.
Qed.

Lemma table_of_app xs l1 l2 : forall table,
  table_of xs (l1 ++ l2) table = table_of xs l2 (table_of xs l1 table).
Proof.
  induction l1 as [|[action hotkey] l1 IH]; intros table; [reflexivity|].
  cbn [app table_of]. destruct (resolve xs hotkey) as [[[kc|] base]|]; auto.
Qed.

(** A chord none of whose variants is recorded gets no entry. *)
Lemma table_of_denied xs keycode base_mask entries : forall table,
  any_recorded xs keycode base_mask = false ->
  table_of xs entries table !! (keycode, base_mask) = table !! (keycode, base_mask).
Proof.
  intros table Hd. revert table.
  induction entries as [|[action hotkey] rest IH]; intros table; [reflexivity|].
  cbn [table_of]. destruct (resolve xs hotkey) as [[[kc|] base]|]; auto.
  destruct (any_recorded xs kc base) eqn:Ha; auto.
  rewrite IH. apply lookup_insert_ne. intros [= -> ->]. congruence.
Qed.

Lemma table_of_keeps xs key entries : forall table,
  is_Some (table !! key) -> is_Some (table_of xs entries table !! key).
Proof.
  induction entries as [|[action hotkey] rest IH]; intros table Hs; [exact Hs|].
  cbn [table_of]. destruct (resolve xs hotkey) as [[[kc|] base]|]; auto.
  destruct (any_recorded xs kc base); auto.
  apply IH. rewrite lookup_insert. destruct (decide ((kc, base) = key)); eauto.
Qed.

(** Right after a binding with a recorded variant has been gone through,
    the table maps its chord to its action. *)
Lemma table_of_entered xs before action hotkey keycode base_mask table :
  resolve xs hotkey = Some (Some keycode, base_mask) ->
  any_recorded xs keycode base_mask = true ->
  table_of xs (before ++ [(action, hotkey)]) table !! (keycode, base_mask) = Some action.
Proof.
  intros Hr Ha. rewrite table_of_app. cbn [table_of]. rewrite Hr, Ha.
  apply lookup_insert_eq.
Qed.

Lemma conflicts_of_In xs entries hotkey :
  In hotkey (conflicts_of xs entries) <->
  In hotkey (map snd entries) /\ in_conflict xs hotkey = true.
Proof. unfold conflicts_of. apply filter_In. Qed.

End Tables.

(** C5. On a running manager, [register] sends, for each binding whose
    chord parses and whose base key has a keycode, exactly four grab
    requests for that keycode: under the base mask, and under the base mask
    with Lock, with Mod2 and with both. When at least one of the four is
    granted the chord is not among the returned conflicts and the table
    maps the chord to the action. The code departs from C5 where the
    server denies all four: the denial does not reach the handler of the
    loop, the four calls return, and the chord is not among the returned
    conflicts and has an entry in the final table, although the server
    holds no grab for it. A chord is reported and left out of the table
    only when the calls raise for each of its four variants. *)
Theorem register_records_denied_grabs
    (entries : list (Action * str)) (h : Hotkeys) (d : Display) (w : Window) :
  running (manager h) = true -> display (manager h) = Some d -> root (manager h) = Some w ->
  exists h',
    register entries h = (Return (conflicts_of (xserver h) entries), h') /\
    requests (xserver h') =
      requests (xserver h)
      ++ map (fun p => UngrabKey (fst p) (snd p)) (registered (manager h))
      ++ concat (map (grab_requests (xserver h)) entries) /\
    bindings (manager h') = table_of (xserver h) entries ∅ /\
    forall before action hotkey after mods key_name keycode,
      entries = before ++ (action, hotkey) :: after ->
      _hotkey_to_parts hotkey = Some (mods, key_name) ->
      _keysym_to_keycode (xserver h) key_name = Some keycode ->
      let base_mask := _modifier_mask mods in
      grab_requests (xserver h) (action, hotkey) =
        [ GrabKey keycode base_mask;
          GrabKey keycode (Z.lor base_mask X.LockMask);
          GrabKey keycode (Z.lor base_mask X.Mod2Mask);
          GrabKey keycode (Z.lor base_mask (Z.lor X.LockMask X.Mod2Mask)) ] /\
      (any_granted (xserver h) keycode base_mask = true ->
         ~ In hotkey (conflicts_of (xserver h) entries) /\
         table_of (xserver h) (before ++ [(action, hotkey)]) ∅ !! (keycode, base_mask)
           = Some action /\
         is_Some (bindings (manager h') !! (keycode, base_mask))) /\
      (any_granted (xserver h) keycode base_mask = false ->
       (forall mask, In mask (variant_masks base_mask) ->
                     grab_answer (xserver h) keycode mask = Denied) ->
         ~ In hotkey (conflicts_of (xserver h) entries) /\
         table_of (xserver h) (before ++ [(action, hotkey)]) ∅ !! (keycode, base_mask)
           = Some action /\
         is_Some (bindings (manager h') !! (keycode, base_mask))) /\
      (any_recorded (xserver h) keycode base_mask = false ->
         In hotkey (conflicts_of (xserver h) entries) /\
         bindings (manager h') !! (keycode, base_mask) = None).
Proof.
  intros Hr Hd Hw.
  exists (note_entries entries (note_reset h)).
  split; [eapply register_run; eassumption|].
  destruct (note_entries_effect entries (note_reset h)) as [Hreq Hbind].
  destruct (note_ungrabs_frame (registered (manager h)) h)
    as (_ & Hk1 & Hk2 & Hk3 & _ & Hu).
  assert (Htable : bindings (manager (note_entries entries (note_reset h))) =
                   table_of (xserver h) entries ∅).
  { rewrite Hbind. apply table_of_oracles; assumption. }
  split; [|split; [exact Htable|]].
  - rewrite Hreq. unfold note_reset at 1. cbn [xserver]. rewrite Hu, <- app_assoc.
    rewrite (map_ext _ (grab_requests (xserver h))); [reflexivity|].
    intros e. apply grab_requests_oracles; assumption.
  - intros before action hotkey after mods key_name keycode -> Hp Hk base_mask.
    assert (Hres : resolve (xserver h) hotkey = Some (Some keycode, base_mask))
      by (unfold resolve; rewrite Hp, Hk; reflexivity).
    assert (Hrec : any_recorded (xserver h) keycode base_mask = true ->
              ~ In hotkey (conflicts_of (xserver h) (before ++ (action, hotkey) :: after)) /\
              table_of (xserver h) (before ++ [(action, hotkey)]) ∅ !! (keycode, base_mask)
                = Some action /\
              is_Some (bindings (manager (note_entries (before ++ (action, hotkey) :: after)
                                            (note_reset h))) !! (keycode, base_mask))).
    { intros Ha. split; [|split].
      - rewrite conflicts_of_In. unfold in_conflict. rewrite Hres, Ha.
        intros [_ H]. discriminate H.
      - apply table_of_entered; assumption.
      - rewrite Htable.
        replace (before ++ (action, hotkey) :: after)
          with ((before ++ [(action, hotkey)]) ++ after)
          by (rewrite <- app_assoc; reflexivity).
        rewrite table_of_app. apply table_of_keeps.
        rewrite table_of_entered by assumption. eauto. }
    split; [|split; [|split]].
    + unfold grab_requests. cbn [snd]. rewrite Hres.
      unfold variant_masks, lock_variants. cbn [map]. rewrite Z.lor_0_r. reflexivity.
    + intros Ha. apply Hrec. apply any_granted_recorded. exact Ha.
    + intros _ Hden. apply Hrec. unfold any_recorded, variant_masks, lock_variants.
      cbn [map existsb]. unfold recorded at 1.
      rewrite (Hden (Z.lor base_mask 0)); [reflexivity|].
      unfold variant_masks, lock_variants. left. reflexivity.
    + intros Ha. split.
      * rewrite conflicts_of_In. unfold in_conflict. rewrite Hres, Ha. split; [|reflexivity].
        rewrite map_app. apply in_or_app. right. left. reflexivity.
      * rewrite Htable, table_of_denied by assumption. apply lookup_empty.
Qed.

(** On the server of the examples another client holds Alt+2 under all
    four lock variants: [register] reports no conflict for it and enters
    it in the table, and the manager records four grabs of which the
    server holds none. *)
Lemma register_records_denied_grabs_witness :
  any_granted demo_xserver 58 8 = false /\
  exists h',
    register demo_entries demo_hotkeys = (Return [lit "Alt+F13"], h') /\
    bindings (manager h') !! (58, 8) = Some (Clip 1) /\
    List.filter (fun g => fst g =? 58) (registered (manager h'))
      = [(58, 8); (58, 10); (58, 24); (58, 26)] /\
    List.filter (fun g => fst g =? 58) (grabs (xserver h')) = [].
Proof.
  split; [reflexivity|].
  destruct (register_records_denied_grabs demo_entries demo_hotkeys
              (Display_ 0) (RootWindow 0) eq_refl eq_refl eq_refl)
    as (h' & E & _ & Hb & _).
  exists h'. split; [|split; [|split]].
  - rewrite E. vm_compute. reflexivity.
  - rewrite Hb. vm_compute. reflexivity.
  - apply (f_equal snd) in E. cbn [snd] in E. rewrite <- E. vm_compute. reflexivity.
  - apply (f_equal snd) in E. cbn [snd] in E. rewrite <- E. vm_compute. reflexivity.
Defined.

(** ** Starting without a capture backend *)

(** C9. When python-xlib could not be imported, or opening the display
    raises, [start] on a stopped manager (not running, no display, no root
    window) returns [False], raises nothing and leaves manager and server
    as they were: not running, without a display connection, and with the
    thread field untouched, so that a manager without a thread still has
    none. *)
Theorem start_degraded (h : Hotkeys) :
  XLIB_AVAILABLE (xserver h) = false \/ display_opens (xserver h) = false ->
  running (manager h) = false ->
  display (manager h) = None ->
  root (manager h) = None ->
  start h = (Return false, h) /\
  running (manager (snd (start h))) = false /\
  display (manager (snd (start h))) = None /\
  root (manager (snd (start h))) = None /\
  thread (manager (snd (start h))) = thread (manager h) /\
  (thread (manager h) = None -> thread (manager (snd (start h))) = None).
Proof.
  intros Hx Hr Hd Hw.
  assert (E : start h = (Return false, h)).
  { destruct h as [[d w r t b g] xs]. cbn in Hx, Hr, Hd, Hw. subst.
    unfold start, bind, gets, try_except. cbn [xserver manager running].
    destruct (XLIB_AVAILABLE xs) eqn:Ha; [|reflexivity].
    destruct Hx as [Hx|Hx]; [discriminate|].
    cbn. unfold Display_open, bind, gets. cbn. rewrite Hx. reflexivity. }
  rewrite E. cbn [snd]. auto 7.
Qed.

Lemma start_degraded_witness :
  (start headless_hotkeys = (Return false, headless_hotkeys) /\
   thread (manager (snd (start headless_hotkeys))) = None) /\
  (start displayless_hotkeys = (Return false, displayless_hotkeys) /\
   thread (manager (snd (start displayless_hotkeys))) = None).
Proof.
  destruct (start_degraded headless_hotkeys (or_introl eq_refl) eq_refl eq_refl eq_refl)
    as (H1 & _ & _ & _ & _ & H6).
  destruct (start_degraded displayless_hotkeys (or_intror eq_refl) eq_refl eq_refl eq_refl)
    as (K1 & _ & _ & _ & _ & K6).
  repeat split; auto.
Defined.

(** ** Registering on a manager that is not running *)

(** C10. [register] on a manager that is not running, or that has no
    display or no root window, returns the empty list and changes nothing:
    no request goes to the server, and the action table and the list of
    recorded grabs stay as they were. A running manager returns the same
    empty list when no chord of the bindings is in conflict. *)
Theorem register_not_running (entries : list (Action * str)) (h : Hotkeys) :
  running (manager h) = false \/ display (manager h) = None \/ root (manager h) = None ->
  register entries h = (Return [], h) /\
  (forall h2 d w,
     running (manager h2) = true -> display (manager h2) = Some d ->
     root (manager h2) = Some w ->
     conflicts_of (xserver h2) entries = [] ->
     fst (register entries h2) = Return []).
Proof.
  intros H. split.
  - unfold register, bind, gets.
    destruct (running (manager h)); [|reflexivity].
    destruct (display (manager h)); [|reflexivity].
    destruct (root (manager h)); [|reflexivity].
    destruct H as [H|[H|H]]; discriminate H.
  - intros h2 d w Hr Hd Hw Hc.
    rewrite (register_run entries h2 d w Hr Hd Hw), Hc. reflexivity.
Qed.

Lemma register_not_running_witness :
  register demo_entries headless_hotkeys = (Return [], headless_hotkeys) /\
  fst (register [(Clip 0, lit "Alt+1")] demo_hotkeys) = Return [].
Proof.
  split.
  - apply (register_not_running demo_entries headless_hotkeys). left. reflexivity.
  - apply (proj2 (register_not_running [(Clip 0, lit "Alt+1")] headless_hotkeys
                    (or_introl eq_refl))
             demo_hotkeys (Display_ 0) (RootWindow 0));
      vm_compute; reflexivity.
Defined.

(** ** The public boundary *)

Section Boundary.

Implicit Types (a : Audio) (h : Hotkeys).

(** When no call of [subprocess.run] raises, every run returns a completed
    process, whatever its exit status. *)
Lemma run_present cmd a :
  runs_return a = true ->
  exists cp a', _run cmd a = (Return cp, a') /\ runs_return a' = true.
Proof.
  unfold runs_return. intros H. apply andb_prop in H as [Hp Hf].
  destruct (_run cmd a) as [r a'] eqn:E.
  pose proof (run_inv _ _ _ _ E) as [E' _].
  unfold subprocess_run in E'. rewrite Hp in E'.
  destruct (faults (server a)) as [|[|f|e|] rest] eqn:Hfa;
    cbn [forallb is_raising negb andb tl] in Hf, E'; try discriminate.
  - destruct (serve _ _) as [cp s1] eqn:Hs. injection E' as <- E2.
    apply serve_issued in Hs as (_ & Hf1 & Hp1). exists cp, a'.
    rewrite <- E2, Hf1, Hp1. cbn [faults pactl_present record_run forallb]. rewrite Hp. auto.
  - destruct (serve _ _) as [cp s1] eqn:Hs. injection E' as <- E2.
    apply serve_issued in Hs as (_ & Hf1 & Hp1). exists cp, a'.
    rewrite <- E2, Hf1, Hp1. cbn [faults pactl_present record_run]. rewrite Hp, Hf. auto.
  - injection E' as <- E2. eexists _, a'. rewrite <- E2.
    cbn [faults pactl_present record_run]. rewrite Hp, Hf. auto.
Qed.


Lemma completes_ret {A} (x : A) a :
  runs_return a = true -> completes (ret x) a.
Proof. intros H. exists x, a. auto. Qed.

Lemma completes_bind {A B} (m : M Audio A) (k : A -> M Audio B) a :
  completes m a ->
  (forall x a', runs_return a' = true -> completes (k x) a') ->
  completes (bind m k) a.
Proof.
  intros (x & a1 & E & Hp) Hk. unfold completes, bind. rewrite E.
  apply Hk. assumption.
Qed.

Lemma completes_run cmd a :
  runs_return a = true -> completes (_run cmd) a.
Proof. apply run_present. Qed.

Lemma completes_modify (f : Audio -> Audio) a :
  runs_return (f a) = true -> completes (modify f) a.
Proof. intros H. exists tt, (f a). auto. Qed.

Lemma completes_gets {A} (f : Audio -> A) a :
  runs_return a = true -> completes (gets f) a.
Proof. intros H. exists (f a), a. auto. Qed.

Lemma completes_module_id_by_name module_name arg_token a :
  runs_return a = true ->
  completes (_module_id_by_name module_name arg_token) a.
Proof.
  intros Hp. unfold _module_id_by_name.
  apply completes_bind; [apply completes_run; assumption|].
  intros cp a' Hp'. destruct (negb _); apply completes_ret; assumption.
Qed.

Lemma completes_find_mic_loop_module a :
  runs_return a = true -> completes _find_mic_loop_module a.
Proof.
  intros Hp. unfold _find_mic_loop_module.
  apply completes_bind; [apply completes_run; assumption|].
  intros cp a' Hp'. destruct (negb _); apply completes_ret; assumption.
Qed.

Lemma startswith_app p s : startswith p s = true -> exists t, s = p ++ t.
Proof.
  revert s. induction p as [|c p IH]; intros s; cbn [startswith].
  - intros _. exists s. reflexivity.
  - destruct s as [|c' s]; [intros ?; discriminate|].
    intros H. apply andb_prop in H as [Hc Hs].
    apply bool_decide_eq_true in Hc as ->.
    destruct (IH _ Hs) as [t ->]. exists t. reflexivity.
Qed.

Lemma completes_get_default_source_loop lines : forall a,
  runs_return a = true -> completes (get_default_source_loop lines) a.
Proof.
  induction lines as [|line rest IH]; intros a Hp; cbn [get_default_source_loop].
  - apply completes_ret; assumption.
  - destruct (startswith (lit "Default Source:") line) eqn:Hs; [|apply IH; assumption].
    apply startswith_app in Hs as [t ->].
    apply completes_bind.
    + exists t, a. split; [reflexivity|assumption].
    + intros x a' Hp'. apply completes_ret; assumption.
Qed.

Ltac completes_step :=
  first
    [ apply completes_ret; assumption
    | apply completes_run; assumption
    | apply completes_module_id_by_name; assumption
    | apply completes_find_mic_loop_module; assumption
    | apply completes_modify; assumption
    | apply completes_gets; assumption
    | apply completes_bind; [|intros ? ? ?]
    | match goal with
      | |- completes (if ?b then _ else _) _ => destruct b
      | |- completes (match ?x with _ => _ end) _ => destruct x
      end ].

Lemma completes_ensure_virtual_source a :
  runs_return a = true -> completes ensure_virtual_source a.
Proof.
  intros Hp. unfold ensure_virtual_source, set_source_module_id.
  repeat completes_step.
Qed.

Lemma completes_ensure_virtual_mic a :
  runs_return a = true -> completes ensure_virtual_mic a.
Proof.
  intros Hp. unfold ensure_virtual_mic, set_sink_module_id.
  repeat (first [apply completes_ensure_virtual_source; assumption | completes_step]).
Qed.

Lemma completes_connect_load source_name a :
  runs_return a = true -> completes (connect_load source_name) a.
Proof.
  intros Hp. unfold connect_load, set_mic_loop_module_id. repeat completes_step.
Qed.

(** *** Exceptions that leave the router *)

Lemma later_refl sv : later sv sv.
Proof. split; [reflexivity|exists 0%nat; reflexivity]. Qed.

Lemma later_trans sv1 sv2 sv3 : later sv1 sv2 -> later sv2 sv3 -> later sv1 sv3.
Proof.
  intros [Hp1 [k1 Hk1]] [Hp2 [k2 Hk2]]. split; [congruence|].
  exists (k2 + k1)%nat. rewrite Hk2, Hk1. apply skipn_skipn.
Qed.

Lemma In_skipn_In {A} (x : A) k l : In x (skipn k l) -> In x l.
Proof.
  intros H. rewrite <- (firstn_skipn k l). apply in_or_app. right. exact H.
Qed.

Lemma raised_by_run_later sv sv' e :
  later sv sv' -> raised_by_run sv' e -> raised_by_run sv e.
Proof.
  intros [Hp [k Hk]] [[Ha He]|[Hi|[He Hi]]].
  - left. split; congruence.
  - right. left. rewrite Hk in Hi. eapply In_skipn_In; eassumption.
  - right. right. split; [assumption|]. rewrite Hk in Hi. eapply In_skipn_In; eassumption.
Qed.

Lemma transparent_ret {A} (x : A) : transparent (ret x).
Proof. intros a. split; [apply later_refl|exact I]. Qed.

Lemma transparent_gets {A} (f : Audio -> A) : transparent (gets f).
Proof. intros a. split; [apply later_refl|exact I]. Qed.

Lemma transparent_modify (f : Audio -> Audio) :
  (forall a, server (f a) = server a) -> transparent (modify f).
Proof.
  intros Hf a. unfold modify. cbn [fst snd]. rewrite Hf.
  split; [apply later_refl|exact I].
Qed.

Lemma transparent_bind {A B} (m : M Audio A) (k : A -> M Audio B) :
  transparent m -> (forall x, transparent (k x)) -> transparent (bind m k).
Proof.
  intros Hm Hk a. specialize (Hm a). unfold bind.
  destruct (m a) as [[x|e] a1]; cbn [fst snd] in Hm |- *; [|exact Hm].
  destruct Hm as [Hl _]. specialize (Hk x a1).
  destruct (k x a1) as [[y|e] a2]; cbn [fst snd] in Hk |- *; destruct Hk as [Hl2 Hr].
  - split; [eapply later_trans; eassumption|exact I].
  - split; [eapply later_trans; eassumption|].
    eapply raised_by_run_later; eassumption.
Qed.

(** [_run] raises what [subprocess.run] raises and nothing else. *)
Lemma transparent_run cmd : transparent (_run cmd).
Proof.
  intros a. rewrite run_unfold. cbn [fst snd server].
  unfold subprocess_run, later, raised_by_run.
  destruct (faults (server a)) as [|[|f|e|] rest] eqn:Hfa;
    destruct (pactl_present (server a)) eqn:Hp; cbn [negb tl fst snd];
    try (destruct (serve _ _) as [cp s1] eqn:Hs;
         apply serve_issued in Hs as (_ & Hf1 & Hp1); cbn [fst snd];
         rewrite ?Hf1, ?Hp1);
    cbn [faults pactl_present record_run].
  all: try rewrite Hfa.
  all: repeat split; auto.
  all: try (exists 0%nat; reflexivity).
  all: try (exists 1%nat; reflexivity).
  all: try (left; split; reflexivity).
  all: try (right; left; left; reflexivity).
  all: try (right; right; split; [reflexivity|left; reflexivity]).
Qed.

Lemma transparent_module_id_by_name module_name arg_token :
  transparent (_module_id_by_name module_name arg_token).
Proof.
  unfold _module_id_by_name. apply transparent_bind; [apply transparent_run|].
  intros cp. destruct (negb _); apply transparent_ret.
Qed.

Lemma transparent_find_mic_loop_module : transparent _find_mic_loop_module.
Proof.
  unfold _find_mic_loop_module. apply transparent_bind; [apply transparent_run|].
  intros cp. destruct (negb _); apply transparent_ret.
Qed.

Lemma transparent_get_default_source_loop lines :
  transparent (get_default_source_loop lines).
Proof.
  induction lines as [|line rest IH]; cbn [get_default_source_loop].
  - apply transparent_ret.
  - destruct (startswith (lit "Default Source:") line) eqn:Hs; [|exact IH].
    apply startswith_app in Hs as [t ->].
    apply transparent_bind; [|intros x; apply transparent_ret].
    intros a. split; [apply later_refl|exact I].
Qed.

Ltac transparent_step :=
  first
    [ apply transparent_ret
    | apply transparent_run
    | apply transparent_module_id_by_name
    | apply transparent_find_mic_loop_module
    | apply transparent_modify; intros ?; reflexivity
    | apply transparent_gets
    | apply transparent_bind; [|intros ?]
    | progress cbv zeta
    | match goal with
      | |- transparent (if ?b then _ else _) => destruct b
      | |- transparent (match ?x with _ => _ end) => destruct x
      end ].

Lemma transparent_ensure_virtual_source : transparent ensure_virtual_source.
Proof.
  unfold ensure_virtual_source, set_source_module_id. repeat transparent_step.
Qed.

Lemma transparent_connect_load source_name : transparent (connect_load source_name).
Proof.
  unfold connect_load, set_mic_loop_module_id. repeat transparent_step.
Qed.

(** No operation of the router raises anything but what a call of
    [subprocess.run] raised. *)
Lemma router_operations_transparent :
  transparent ensure_virtual_mic /\
  transparent ensure_local_monitor /\
  transparent unload_monitor /\
  (forall muted, transparent (set_mic_mute muted)) /\
  transparent list_input_sources /\
  transparent get_default_source /\
  (forall source_name, transparent (connect_input_source_to_soundpad source_name)) /\
  transparent disconnect_input_source_from_soundpad.
Proof.
  repeat apply conj; try intros ?.
  - unfold ensure_virtual_mic, set_sink_module_id.
    repeat (first [apply transparent_ensure_virtual_source | transparent_step]).
  - unfold ensure_local_monitor, set_monitor_module_id. repeat transparent_step.
  - unfold unload_monitor, set_monitor_module_id. repeat transparent_step.
  - unfold set_mic_mute. repeat transparent_step.
  - unfold list_input_sources. repeat transparent_step.
  - unfold get_default_source. apply transparent_bind; [apply transparent_run|].
    intros cp. destruct (negb _); [apply transparent_ret|].
    apply transparent_get_default_source_loop.
  - unfold connect_input_source_to_soundpad, set_mic_loop_module_id.
    repeat (first [apply transparent_connect_load | transparent_step]).
  - unfold disconnect_input_source_from_soundpad, set_mic_loop_module_id.
    repeat transparent_step.
Qed.






Lemma register_returns entries h : returned (fst (register entries h)) = true.
Proof.
  destruct (running (manager h)) eqn:Hr;
    [destruct (display (manager h)) eqn:Hd; [destruct (root (manager h)) eqn:Hw|]|].
  - rewrite (register_run entries h _ _ Hr Hd Hw). reflexivity.
  - unfold register, bind, gets. rewrite Hr, Hd, Hw. reflexivity.
  - unfold register, bind, gets. rewrite Hr, Hd. reflexivity.
  - unfold register, bind, gets. rewrite Hr. reflexivity.
Qed.

End Boundary.




(** The same with [pactl] installed: the source list is printed with a
    byte that is not text, and [UnicodeDecodeError] leaves
    [list_input_sources]; a later operation on the same server returns. *)
Example undecodable_listing_raises :
  fst (list_input_sources garbled_audio) = Raise UnicodeDecodeError /\
  fst (get_default_source (snd (list_input_sources garbled_audio)))
    = Return (lit "alsa_input.usb").
Proof. split; reflexivity. Qed.

(** ** File writes *)

Section Files.

Implicit Types (s : SoundpadApp) (hs : Host).

(** A write changes nothing of the application but the machine it runs
    on. *)
Lemma write_text_frame store s :
  exists r hs', write_text store s = (r, set_host hs' s).
Proof.
  unfold write_text. destruct (write_faults (host s)) as [|[e|] rest]; eauto.
Qed.

Lemma set_host_twice hs hs' s : set_host hs' (set_host hs s) = set_host hs' s.
Proof. reflexivity. Qed.

Lemma save_settings_frame s :
  exists r hs', _save_settings s = (r, set_host hs' s).
Proof. unfold _save_settings, bind, gets. apply write_text_frame. Qed.

Lemma save_clips_frame s :
  exists r hs', _save_clips s = (r, set_host hs' s).
Proof.
  unfold _save_clips, _save_profiles, _backup_profiles_snapshot, bind, gets.
  destruct (write_text_frame
              (fun hs => set_files (write_faults hs) (settings_file hs) (Some (clips s))
                           (snapshots hs) hs) s) as (r & hs1 & E).
  rewrite E. destruct r as [[]|e]; [|eauto].
  destruct (write_text_frame
              (fun hs => set_files (write_faults hs) (settings_file hs) (profiles_file hs)
                           (S (snapshots hs)) hs) (set_host hs1 s)) as (r2 & hs2 & E2).
  rewrite E2. eauto.
Qed.

End Files.

(** ** Push-to-talk *)

Section PushToTalk.

Implicit Types (s : SoundpadApp).

Local Opaque connect_input_source_to_soundpad disconnect_input_source_from_soundpad strip
  _save_settings.

(** The press handler on an idle, enabled application with a source
    selected: the state is [Talking] and connect has been invoked,
    whatever connect answered. *)
Lemma ptt_press_effect s :
  push_to_talk_enabled s = true ->
  ptt_pressed s = false ->
  truthy (strip (selected_input_source s)) = true ->
  ptt_pressed (snd (_ptt_press s)) = true /\
  router_calls (snd (_ptt_press s)) =
    router_calls s ++ [CallConnect (strip (selected_input_source s))].
Proof.
  intros He Hp Hs.
  unfold _ptt_press, _ensure_selected_source_connected, call_router,
    messagebox, bind, gets, modify, ret.
  rewrite He, Hp. cbn. rewrite Hs. cbn.
  destruct (connect_input_source_to_soundpad _ _) as [[[[] msg]|e] a']; cbn; auto.
  match goal with
  | |- context [_save_settings ?x] =>
      destruct (save_settings_frame x) as (r & hs' & E); rewrite E
  end.
  destruct r; cbn; auto.
Qed.

(** The release handler while [Talking]: the state is [Idle] and
    disconnect has been invoked. *)
Lemma ptt_release_effect s :
  ptt_pressed s = true ->
  ptt_pressed (snd (_ptt_release s)) = false /\
  router_calls (snd (_ptt_release s)) = router_calls s ++ [CallDisconnect].
Proof.
  intros Hp.
  unfold _ptt_release, call_router, messagebox, bind, gets, modify, ret.
  rewrite Hp. cbn.
  destruct (disconnect_input_source_from_soundpad _) as [[[[] msg]|e] a']; cbn; auto.
Qed.

End PushToTalk.

(** C2, as the code has it. With push-to-talk enabled, the state idle and
    an input source selected (its name not blank), the press and the
    release of the push-to-talk chord invoke
    [connect_input_source_to_soundpad] on the selected source first and
    [disconnect_input_source_from_soundpad] second, and nothing else of the
    router. The press handler sets [ptt_pressed] before it calls connect
    and keeps it whatever connect answers, be it a failure or an exception,
    so the release always reaches disconnect; after the release
    [ptt_pressed] is false again. *)
Theorem ptt_connect_then_disconnect (s : SoundpadApp) :
  push_to_talk_enabled s = true ->
  ptt_pressed s = false ->
  truthy (strip (selected_input_source s)) = true ->
  router_calls (deliver ptt_down_up s) =
    router_calls s ++ [CallConnect (strip (selected_input_source s)); CallDisconnect] /\
  ptt_pressed (deliver [(PTT, true)] s) = true /\
  ptt_pressed (deliver ptt_down_up s) = false.
Proof.
  intros He Hp Hs.
  destruct (ptt_press_effect s He Hp Hs) as [Hp1 Hc1].
  destruct (ptt_release_effect _ Hp1) as [Hp2 Hc2].
  change (deliver ptt_down_up s) with (snd (_ptt_release (snd (_ptt_press s)))).
  change (deliver [(PTT, true)] s) with (snd (_ptt_press s)).
  rewrite Hc2, Hc1, <- app_assoc. auto.
Qed.

Lemma ptt_connect_then_disconnect_witness :
  router_calls (deliver ptt_down_up demo_app) =
    [CallConnect (lit "alsa_input.usb"); CallDisconnect] /\
  router_calls (deliver ptt_down_up bare_app) =
    [CallConnect (lit "alsa_input.usb"); CallDisconnect].
Proof.
  split.
  - apply (ptt_connect_then_disconnect demo_app); reflexivity.
  - apply (ptt_connect_then_disconnect bare_app); reflexivity.
Defined.

(** The wording of C2 in the specification does not hold of the code: with
    no input source selected the press handler returns "No input source selected"
    without calling the router, and the release calls disconnect alone. *)
Lemma ptt_counterexample :
  ~ (forall s : SoundpadApp,
       push_to_talk_enabled s = true -> ptt_pressed s = false ->
       exists source_name,
         router_calls (deliver ptt_down_up s) =
         router_calls s ++ [CallConnect source_name; CallDisconnect]) /\
  router_calls (deliver ptt_down_up sourceless_app) = [CallDisconnect] /\
  dialogs (deliver [(PTT, true)] sourceless_app) =
    [(lit "Push-to-talk failed", lit "No input source selected")].
Proof.
  split; [|split; vm_compute; reflexivity].
  intros H. destruct (H sourceless_app eq_refl eq_refl) as [source_name Hs].
  vm_compute in Hs. discriminate Hs.
Qed.

(** ** Clip hotkeys *)

Example set_selected_hotkey_demo :
  map hotkey (clips (snd (set_selected_hotkey [1%nat] (Some (lit " alt+2 ")) demo_app))) =
    [lit "Ctrl+Alt+1"; lit "alt+2"; []] /\
  map hotkey (clips (snd (set_selected_hotkey [1%nat] (Some (lit "Alt+Ctrl+1")) demo_app))) =
    [lit "Ctrl+Alt+1"; lit "Alt+Ctrl+1"; lit "Alt+2"] /\
  map hotkey (clips (snd (set_selected_hotkey [1%nat] (Some (lit "Alt+Foo+1")) demo_app))) =
    [lit "Ctrl+Alt+1"; []; lit "Alt+2"] /\
  option_map (map hotkey)
    (profiles_file (host (snd (set_selected_hotkey [1%nat] (Some (lit " alt+2 ")) demo_app)))) =
    Some [lit "Ctrl+Alt+1"; lit "alt+2"; []] /\
  snapshots (host (snd (set_selected_hotkey [1%nat] (Some (lit " alt+2 ")) demo_app))) = 1%nat.
Proof. repeat split; vm_compute; reflexivity. Qed.

Section ClipHotkeys.

Implicit Types (s : SoundpadApp) (cs : list ClipEntry).

Lemma clear_duplicate_length selected typed cs : forall idx,
  length (clear_duplicate idx selected typed cs) = length cs.
Proof.
  induction cs as [|other rest IH]; intros idx; [reflexivity|].
  cbn [clear_duplicate]. destruct (idx =? selected)%nat; cbn [length]; [auto|].
  destruct (eqb _ _); cbn [length]; auto.
Qed.

Lemma distinct_hotkeys_tail other rest :
  distinct_hotkeys (other :: rest) -> distinct_hotkeys rest.
Proof.
  intros Hd i j ci cj Hij Hi Hj. apply (Hd (S i) (S j)); auto.
Qed.

Lemma chord_key_cleared c : chord_key (set_hotkey [] c) = [].
Proof. reflexivity. Qed.

(** With distinct hotkeys, the loop clears exactly the other clips whose
    text equals the typed one. *)
Lemma clear_duplicate_lookup selected typed cs : forall idx j c,
  truthy (lower typed) = true ->
  distinct_hotkeys cs ->
  cs !! j = Some c ->
  (idx + j)%nat <> selected ->
  clear_duplicate idx selected typed cs !! j =
    Some (if eqb (chord_key c) (lower typed) then set_hotkey [] c else c).
Proof.
  induction cs as [|other rest IH]; intros idx j c Ht Hd Hj Hne; [discriminate|].
  cbn [clear_duplicate]. fold (chord_key other).
  destruct (idx =? selected)%nat eqn:E.
  - apply Nat.eqb_eq in E. destruct j as [|j]; [lia|].
    cbn in Hj |- *. apply IH; [assumption|eapply distinct_hotkeys_tail; eassumption|assumption|lia].
  - destruct (eqb (chord_key other) (lower typed)) eqn:Ek.
    + destruct j as [|j]; cbn in Hj |- *.
      * injection Hj as <-. rewrite Ek. reflexivity.
      * rewrite Hj. f_equal.
        destruct (eqb (chord_key c) (lower typed)) eqn:Ec; [|reflexivity].
        apply bool_decide_eq_true in Ek, Ec.
        exfalso. apply (Hd 0%nat (S j) other c); auto.
        -- rewrite Ek. assumption.
        -- congruence.
    + destruct j as [|j]; cbn in Hj |- *.
      * injection Hj as <-. rewrite Ek. reflexivity.
      * apply IH; [assumption|eapply distinct_hotkeys_tail; eassumption|assumption|lia].
Qed.

(** Writing a new hotkey over one clip of a list whose other clips kept
    their text or lost it, none of them holding the new text. *)
Lemma insert_keeps_distinct cs cleared index new :
  distinct_hotkeys cs ->
  length cleared = length cs ->
  (index < length cs)%nat ->
  (forall j c, j <> index -> cs !! j = Some c ->
     exists c', cleared !! j = Some c' /\
       (chord_key c' = chord_key c \/ chord_key c' = []) /\
       (truthy (chord_key new) = true -> chord_key c' <> chord_key new)) ->
  distinct_hotkeys (<[ index := new ]> cleared).
Proof.
  intros Hd Hlen Hidx Hothers.
  assert (Hother : forall j cj, j <> index -> <[ index := new ]> cleared !! j = Some cj ->
            exists c, cs !! j = Some c /\
              (chord_key cj = chord_key c \/ chord_key cj = []) /\
              (truthy (chord_key new) = true -> chord_key cj <> chord_key new)).
  { intros j cj Hj Hl. rewrite list_lookup_insert_ne in Hl by auto.
    pose proof (lookup_lt_Some _ _ _ Hl) as Hlt. rewrite Hlen in Hlt.
    destruct (lookup_lt_is_Some_2 cs j Hlt) as [c Hc].
    destruct (Hothers j c Hj Hc) as (c' & Hc' & H1 & H2).
    exists c. rewrite Hc' in Hl. injection Hl as <-. auto. }
  assert (Hnew : <[ index := new ]> cleared !! index = Some new)
    by (apply list_lookup_insert_eq; lia).
  intros i j ci cj Hij Hi Hj Htr.
  destruct (decide (i = index)) as [->|Hi'], (decide (j = index)) as [->|Hj'].
  - congruence.
  - rewrite Hnew in Hi. injection Hi as <-.
    destruct (Hother j cj Hj' Hj) as (c & _ & _ & H2).
    intros Heq. apply (H2 Htr). congruence.
  - rewrite Hnew in Hj. injection Hj as <-.
    destruct (Hother i ci Hi' Hi) as (c & _ & _ & H2).
    destruct (truthy (chord_key new)) eqn:Hn; [auto|].
    intros Heq. rewrite Heq, Hn in Htr. discriminate.
  - destruct (Hother i ci Hi' Hi) as (c1 & Hc1 & [K1|K1] & _);
      [|rewrite K1 in Htr; discriminate].
    destruct (Hother j cj Hj' Hj) as (c2 & Hc2 & [K2|K2] & _).
    + rewrite K1, K2. apply (Hd i j); auto. rewrite <- K1. assumption.
    + rewrite K2. intros Heq. rewrite Heq in Htr. discriminate.
Qed.

Lemma strip_strip x : strip (strip x) = strip x.
Proof. apply strip_trimmed, trimmed_strip. Qed.

Local Opaque register.

Lemma bind_hotkeys_clips s : clips (snd (_bind_hotkeys s)) = clips s.
Proof.
  unfold _bind_hotkeys, _register_global_hotkeys, call_register, bind, gets, modify, ret.
  cbn. destruct (global_hotkeys_active s); cbn; [|reflexivity].
  destruct (register _ _) as [[[|c l]|e] h']; reflexivity.
Qed.

(** The clips after [set_selected_hotkey]. *)
Lemma set_selected_hotkey_clips curselection answer s :
  clips (snd (set_selected_hotkey curselection answer s)) =
  match chosen_index (selected_index s) curselection, answer with
  | Some index, Some typed =>
      match clips s !! index with
      | None => clips s
      | Some clip =>
          if truthy (strip typed) then
            match _hotkey_to_tk_sequence (strip typed) with
            | None => clips s
            | Some _ =>
                <[ index := set_hotkey (strip typed) clip ]>
                  (clear_duplicate 0 index (strip typed) (clips s))
            end
          else <[ index := set_hotkey (strip typed) clip ]> (clips s)
      end
  | _, _ => clips s
  end.
Proof.
  unfold set_selected_hotkey, bind at 1. unfold gets at 1.
  destruct (chosen_index (selected_index s) curselection) as [index|]; [|reflexivity].
  unfold bind at 1. unfold modify at 1. unfold bind at 1. unfold gets at 1.
  cbn [clips set_selected_index].
  destruct (clips s !! index) as [clip|]; [|destruct answer; reflexivity].
  destruct answer as [typed|]; [|reflexivity].
  assert (Hupdate : forall cleared s0,
    clips (snd ((modify (set_clips (<[ index := set_hotkey (strip typed) clip ]> cleared)) ;;;
                 _save_clips ;;; _refresh_listbox ;;; _bind_hotkeys ;;;
                 modify (set_status_text (lit "Hotkey updated"))) s0)) =
    <[ index := set_hotkey (strip typed) clip ]> cleared).
  { intros cleared s0. unfold bind at 1. unfold modify at 1.
    unfold bind at 1.
    destruct (save_clips_frame
                (set_clips (<[ index := set_hotkey (strip typed) clip ]> cleared) s0))
      as (r & hs' & Es).
    rewrite Es. destruct r as [[]|e]; [|reflexivity].
    unfold bind at 1. unfold _refresh_listbox at 1. unfold ret at 1.
    unfold bind at 1.
    match goal with
    | |- context [_bind_hotkeys ?x] =>
        pose proof (bind_hotkeys_clips x) as H;
        destruct (_bind_hotkeys x) as [[[]|e] s1]
    end; cbn [snd] in H; cbn [snd modify clips set_status_text]; exact H. }
  destruct (truthy (strip typed)); [|apply Hupdate].
  destruct (_hotkey_to_tk_sequence (strip typed)); [apply Hupdate|reflexivity].
Qed.

End ClipHotkeys.

Lemma demo_clips_distinct : distinct_hotkeys demo_clips.
Proof.
  intros i j ci cj Hij Hi Hj Htr.
  destruct i as [|[|[|i]]], j as [|[|[|j]]]; cbn in Hi, Hj;
    try discriminate; try congruence;
    injection Hi as <-; injection Hj as <-; vm_compute in Htr |- *; congruence.
Qed.

Lemma hotkey_update_keeps_distinct (cs : list ClipEntry) index clip typed :
  distinct_hotkeys cs ->
  cs !! index = Some clip ->
  distinct_hotkeys
    (<[ index := set_hotkey (strip typed) clip ]>
       (if truthy (strip typed) then clear_duplicate 0 index (strip typed) cs else cs)).
Proof.
  intros Hd Hclip.
  pose proof (lookup_lt_Some _ _ _ Hclip) as Hlt.
  assert (Hkey : chord_key (set_hotkey (strip typed) clip) = lower (strip typed))
    by (unfold chord_key; cbn [hotkey set_hotkey]; rewrite strip_strip; reflexivity).
  destruct (truthy (strip typed)) eqn:Ht.
  - apply insert_keeps_distinct with (cs := cs); auto using clear_duplicate_length.
    intros j c Hj Hc.
    exists (if eqb (chord_key c) (lower (strip typed)) then set_hotkey [] c else c).
    split.
    + apply clear_duplicate_lookup; auto.
      rewrite truthy_lower. assumption.
    + rewrite Hkey. destruct (eqb (chord_key c) (lower (strip typed))) eqn:Ek.
      * split; [right; reflexivity|]. intros Htr Heq.
        rewrite <- Heq in Htr. discriminate Htr.
      * split; [left; reflexivity|]. intros _ Heq.
        apply bool_decide_eq_false in Ek. contradiction.
  - apply insert_keeps_distinct with (cs := cs); auto.
    intros j c Hj Hc. exists c. split; [assumption|]. split; [left; reflexivity|].
    rewrite Hkey, truthy_lower, Ht. intros H. discriminate H.
Qed.

(** What the loop of [set_selected_hotkey] achieves. When a clip's hotkey
    is set to a text that
    equals another clip's hotkey text, case and surrounding white space
    apart, that other clip's hotkey is cleared and the chosen clip takes
    the text; and a [set_selected_hotkey] operation, whatever the
    selection and the answer of the dialog, keeps the clips from holding
    the same hotkey text twice (case apart) when they did not before. *)
Lemma set_selected_hotkey_exclusive
    (curselection : list nat) (answer : option str) (s : SoundpadApp) :
  distinct_hotkeys (clips s) ->
  distinct_hotkeys (clips (snd (set_selected_hotkey curselection answer s))) /\
  (forall index clip typed,
     chosen_index (selected_index s) curselection = Some index ->
     clips s !! index = Some clip ->
     answer = Some typed ->
     truthy (strip typed) = true ->
     _hotkey_to_tk_sequence (strip typed) <> None ->
     clips (snd (set_selected_hotkey curselection answer s)) !! index =
       Some (set_hotkey (strip typed) clip) /\
     (forall j other,
        j <> index -> clips s !! j = Some other ->
        chord_key other = lower (strip typed) ->
        clips (snd (set_selected_hotkey curselection answer s)) !! j =
          Some (set_hotkey [] other))).
Proof.
  intros Hd. rewrite set_selected_hotkey_clips. split.
  - destruct (chosen_index _ _) as [index|]; [|assumption].
    destruct answer as [typed|]; [|assumption].
    destruct (clips s !! index) as [clip|] eqn:Hclip; [|assumption].
    pose proof (hotkey_update_keeps_distinct _ _ _ typed Hd Hclip) as H.
    destruct (truthy (strip typed)); [|assumption].
    destruct (_hotkey_to_tk_sequence (strip typed)); assumption.
  - intros index clip typed -> Hclip -> Ht Hseq. rewrite Hclip, Ht.
    destruct (_hotkey_to_tk_sequence (strip typed)); [|congruence].
    pose proof (lookup_lt_Some _ _ _ Hclip) as Hlt. split.
    + apply list_lookup_insert_eq. rewrite clear_duplicate_length. assumption.
    + intros j other Hj Hother Hkey.
      rewrite list_lookup_insert_ne by auto.
      rewrite (clear_duplicate_lookup index (strip typed) (clips s) 0 j other); auto.
      * unfold eqb. rewrite bool_decide_eq_true_2 by assumption. reflexivity.
      * rewrite truthy_lower. assumption.
Qed.

(** The loop leaves alone every other clip whose text differs from the
    typed one. *)
Lemma clear_duplicate_other selected typed (cs : list ClipEntry) : forall idx j other,
  cs !! j = Some other ->
  chord_key other <> lower typed ->
  clear_duplicate idx selected typed cs !! j = Some other.
Proof.
  induction cs as [|c rest IH]; intros idx j other Hj Hkey; [discriminate Hj|].
  cbn [clear_duplicate]. destruct j as [|j]; cbn in Hj.
  - injection Hj as ->. destruct (idx =? selected)%nat; [reflexivity|].
    fold (chord_key other). unfold eqb. rewrite bool_decide_eq_false_2 by exact Hkey.
    reflexivity.
  - destruct (idx =? selected)%nat; [cbn; apply IH; assumption|].
    destruct (eqb _ _); cbn; [exact Hj|apply IH; assumption].
Qed.

(** C6. [set_selected_hotkey] looks for the clip that already holds the
    typed chord and clears it, but it compares the texts, stripped and in
    lower case, and not the chords: the code departs from C6 where another
    clip holds the same chord under another spelling. That clip keeps its
    hotkey, so that after the operation two clips hold chords that
    [_hotkey_to_parts] parses identically, and [register] is handed both. *)
Theorem set_selected_hotkey_keeps_other_spelling
    (curselection : list nat) (typed : str) (s : SoundpadApp)
    (index j : nat) (clip other : ClipEntry) :
  chosen_index (selected_index s) curselection = Some index ->
  clips s !! index = Some clip ->
  j <> index ->
  clips s !! j = Some other ->
  truthy (strip typed) = true ->
  _hotkey_to_tk_sequence (strip typed) <> None ->
  _hotkey_to_parts (hotkey other) = _hotkey_to_parts (strip typed) ->
  chord_key other <> lower (strip typed) ->
  let cs := clips (snd (set_selected_hotkey curselection (Some typed) s)) in
  cs !! index = Some (set_hotkey (strip typed) clip) /\
  cs !! j = Some other /\
  _hotkey_to_parts (hotkey (set_hotkey (strip typed) clip)) = _hotkey_to_parts (hotkey other).
Proof.
  intros Hsel Hclip Hj Hother Ht Hseq Hparts Hkey. cbv zeta.
  rewrite set_selected_hotkey_clips, Hsel, Hclip, Ht.
  destruct (_hotkey_to_tk_sequence (strip typed)); [|congruence].
  pose proof (lookup_lt_Some _ _ _ Hclip) as Hlt.
  split; [|split].
  - apply list_lookup_insert_eq. rewrite clear_duplicate_length. assumption.
  - rewrite list_lookup_insert_ne by auto. apply clear_duplicate_other; assumption.
  - cbn [hotkey set_hotkey]. symmetry. exact Hparts.
Qed.

(** In the profile of the examples the first clip holds [Ctrl+Alt+1].
    Setting the second clip to [Alt+Ctrl+1] leaves both hotkeys in place;
    the two parse to the same chord, every registration of the two sends
    the grabs of one key, and the action table, which has one entry for
    the chord, gives it to the second clip. *)
Lemma set_selected_hotkey_keeps_other_spelling_witness :
  let s' := snd (set_selected_hotkey [1%nat] (Some (lit "Alt+Ctrl+1")) demo_app) in
  map hotkey (clips s') = [lit "Ctrl+Alt+1"; lit "Alt+Ctrl+1"; lit "Alt+2"] /\
  _hotkey_to_parts (lit "Alt+Ctrl+1") = _hotkey_to_parts (lit "Ctrl+Alt+1") /\
  _hotkey_to_parts (lit "Ctrl+Alt+1") <> None /\
  last_hotkey_conflicts s' = [] /\
  bindings (manager (global_hotkeys s')) !! (57, 12) = Some (Clip 1).
Proof.
  cbv zeta.
  destruct (set_selected_hotkey_keeps_other_spelling [1%nat] (lit "Alt+Ctrl+1") demo_app
              1%nat 0%nat
              {| label := lit "drums"; path := lit "/tmp/b.wav"; hotkey := [] |}
              {| label := lit "airhorn"; path := lit "/tmp/a.wav"; hotkey := lit "Ctrl+Alt+1" |})
    as (H1 & H2 & H3).
  - vm_compute. reflexivity.
  - vm_compute. reflexivity.
  - lia.
  - vm_compute. reflexivity.
  - vm_compute. reflexivity.
  - vm_compute. discriminate.
  - vm_compute. reflexivity.
  - vm_compute. discriminate.
  - split; [vm_compute; reflexivity|]. split; [symmetry; exact H3|].
    split; [vm_compute; discriminate|]. split; vm_compute; reflexivity.
Defined.


(** ** Further properties of the router *)

Section Indices.

Implicit Types (ms : list Module_) (a : Audio).

Lemma uint_str_inj d d' : uint_str d = uint_str d' -> d = d'.
Proof.
  revert d'. induction d; intros d'; destruct d'; cbn [uint_str]; intros H;
    try reflexivity; try (vm_compute in H; discriminate H);
    injection H as H; f_equal; apply IHd; exact H.
Qed.

Lemma str_of_N_inj n n' : str_of_N n = str_of_N n' -> n = n'.
Proof. intros H. apply Unsigned.to_uint_inj, uint_str_inj, H. Qed.

Lemma has_index_listed_iff m m0 :
  has_index (listed_id m0) m = true <-> m_index m = m_index m0.
Proof.
  unfold has_index, eqb, listed_id. rewrite bool_decide_eq_true. split.
  - apply str_of_N_inj.
  - intros ->. reflexivity.
Qed.

Lemma indices_ascend_weaken ms : forall lo lo' hi,
  (lo' <= lo)%N -> indices_ascend lo ms hi = true -> indices_ascend lo' ms hi = true.
Proof.
  destruct ms as [|m ms]; intros lo lo' hi Hle; cbn [indices_ascend].
  - rewrite !N.leb_le. lia.
  - intros H. apply andb_prop in H as [H1 H2]. rewrite H2, andb_true_r.
    apply N.leb_le in H1. apply N.leb_le. lia.
Qed.

Lemma indices_ascend_bounds ms : forall lo hi m,
  indices_ascend lo ms hi = true -> In m ms -> (lo <= m_index m < hi)%N.
Proof.
  induction ms as [|m0 ms IH]; intros lo hi m H Hin; [destruct Hin|].
  cbn [indices_ascend] in H. apply andb_prop in H as [H1 H2]. apply N.leb_le in H1.
  destruct Hin as [<-|Hin].
  - split; [assumption|]. clear IH. revert H2. generalize (m_index m0). clear.
    induction ms as [|m ms IH]; intros k; cbn [indices_ascend].
    + rewrite N.leb_le. lia.
    + intros H. apply andb_prop in H as [H1 H2]. apply N.leb_le in H1.
      specialize (IH _ H2). lia.
  - specialize (IH _ _ _ H2 Hin). lia.
Qed.

Lemma indices_ascend_unique ms : forall lo hi m m',
  indices_ascend lo ms hi = true -> In m ms -> In m' ms ->
  m_index m = m_index m' -> m = m'.
Proof.
  induction ms as [|m0 ms IH]; intros lo hi m m' H Hin Hin' Heq; [destruct Hin|].
  cbn [indices_ascend] in H. apply andb_prop in H as [H1 H2].
  destruct Hin as [<-|Hin], Hin' as [<-|Hin']; [reflexivity| | |eauto].
  - pose proof (indices_ascend_bounds _ _ _ _ H2 Hin'). lia.
  - pose proof (indices_ascend_bounds _ _ _ _ H2 Hin). lia.
Qed.

Lemma indices_ascend_filter (q : Module_ -> bool) ms : forall lo hi,
  indices_ascend lo ms hi = true -> indices_ascend lo (List.filter q ms) hi = true.
Proof.
  induction ms as [|m ms IH]; intros lo hi H; [exact H|].
  cbn [indices_ascend] in H. apply andb_prop in H as [H1 H2].
  cbn [List.filter]. destruct (q m); cbn [indices_ascend].
  - rewrite H1. apply IH. assumption.
  - apply (indices_ascend_weaken _ (N.succ (m_index m))); [|apply IH; assumption].
    apply N.leb_le in H1. lia.
Qed.

Lemma indices_ascend_snoc ms : forall lo hi m,
  indices_ascend lo ms hi = true -> m_index m = hi ->
  indices_ascend lo (ms ++ [m]) (N.succ hi) = true.
Proof.
  induction ms as [|m0 ms IH]; intros lo hi m H Hm; cbn [app indices_ascend] in *.
  - rewrite Hm, H. cbn. apply N.leb_le. lia.
  - apply andb_prop in H as [H1 H2]. rewrite H1. cbn [andb]. apply IH; assumption.
Qed.

Lemma filter_at_most_one {A} (p : A -> bool) (l : list A) x y :
  (length (List.filter p l) <= 1)%nat ->
  In x l -> In y l -> p x = true -> p y = true -> x = y.
Proof.
  intros Hlen Hx Hy Hpx Hpy.
  assert (Hx' : In x (List.filter p l)) by (apply filter_In; auto).
  assert (Hy' : In y (List.filter p l)) by (apply filter_In; auto).
  destruct (List.filter p l) as [|z [|z' l']]; [destruct Hx'| |cbn in Hlen; lia].
  destruct Hx' as [<-|[]], Hy' as [<-|[]]. reflexivity.
Qed.

Lemma filter_nothing {A} (p : A -> bool) (l : list A) :
  List.filter p l = [] -> List.filter (fun x => negb (p x)) l = l.
Proof.
  induction l as [|x l IH]; cbn [List.filter]; [reflexivity|].
  destruct (p x); [intros ?; discriminate|]. cbn [negb]. intros H. rewrite IH; auto.
Qed.

Lemma filter_none {A} (p : A -> bool) (l : list A) :
  (forall x, In x l -> p x = false) -> List.filter p l = [].
Proof.
  induction l as [|x l IH]; intros H; [reflexivity|].
  cbn [List.filter]. rewrite (H x (or_introl eq_refl)). apply IH.
  intros y Hy. apply H. right. assumption.
Qed.

Lemma filter_nil_find_none {A} (p : A -> bool) (l : list A) :
  List.filter p l = [] -> List.find p l = None.
Proof.
  induction l as [|x l IH]; cbn [List.filter List.find]; [reflexivity|].
  destruct (p x); [intros ?; discriminate|auto].
Qed.

(** Unloading the one module that a discovery by predicate found takes
    away the modules of that kind and nothing else. *)
Lemma unload_found_is_filter (p : Module_ -> bool) ms m0 lo hi :
  indices_ascend lo ms hi = true ->
  List.find p ms = Some m0 ->
  (length (List.filter p ms) <= 1)%nat ->
  List.filter (fun m => negb (has_index (listed_id m0) m)) ms =
  List.filter (fun m => negb (p m)) ms.
Proof.
  intros Hasc Hfind Hlen. apply find_some in Hfind as [Hin0 Hp0].
  apply filter_ext_in. intros m Hin. f_equal.
  destruct (p m) eqn:Hp.
  - rewrite (filter_at_most_one p ms m m0 Hlen Hin Hin0 Hp Hp0).
    apply has_index_listed_iff. reflexivity.
  - destruct (has_index (listed_id m0) m) eqn:Hh; [|reflexivity].
    apply has_index_listed_iff in Hh.
    rewrite (indices_ascend_unique _ _ _ _ _ Hasc Hin Hin0 Hh) in Hp. congruence.
Qed.

(** No loaded module carries the index that the server hands out next. *)
Lemma unload_fresh_is_nothing ms lo hi :
  indices_ascend lo ms hi = true ->
  List.filter (fun m => negb (has_index (str_of_N hi) m)) ms = ms.
Proof.
  intros Hasc. apply (filter_nothing (has_index (str_of_N hi))).
  apply filter_none. intros m Hin.
  destruct (has_index (str_of_N hi) m) eqn:Hh; [|reflexivity].
  unfold has_index, eqb in Hh. apply bool_decide_eq_true in Hh. apply str_of_N_inj in Hh.
  pose proof (indices_ascend_bounds _ _ _ _ Hasc Hin). lia.
Qed.

End Indices.

(** ** Disconnecting, and what a connect call keeps *)

Section Disconnect.

Implicit Types (a : Audio) (ms : list Module_).

Lemma find_mic_loop_next_index a r a' :
  _find_mic_loop_module a = (r, a') ->
  next_index (server a') = next_index (server a).
Proof.
  unfold _find_mic_loop_module, bind. intros Ef.
  destruct (_run list_modules_cmd a) as [[cp|e] a2] eqn:E;
    apply run_inv in E as [E _]; apply subprocess_run_list_keeps in E as [_ E];
    [destruct (negb _)|]; injection Ef as _ <-; assumption.
Qed.

(** A discovery that goes through returns the first mic loopback of the
    listing, runs one query and touches nothing. *)
Lemma find_mic_loop_through n a :
  wf_modules (modules (server a)) = true ->
  goes_through (S n) a = true ->
  exists a',
    _find_mic_loop_module a =
      (Return (option_map listed_id (List.find is_mic_loop (modules (server a)))), a') /\
    router a' = router a /\
    modules (server a') = modules (server a) /\
    next_index (server a') = next_index (server a) /\
    issued (server a') = issued (server a) ++ [list_modules_cmd] /\
    goes_through n a' = true.
Proof.
  intros Hwf Hg.
  pose proof (find_mic_loop_ok a Hwf (goes_through_query _ _ Hg)) as Hr.
  destruct (_find_mic_loop_module a) as [r a'] eqn:E.
  cbn [fst] in Hr. subst r. exists a'. split; [reflexivity|].
  pose proof (find_mic_loop_frame _ _ _ E) as (Hi & Hm & Hro).
  pose proof (find_mic_loop_next_index _ _ _ E) as Hn.
  repeat (split; [assumption|]).
  unfold _find_mic_loop_module, bind in E.
  destruct (_run list_modules_cmd a) as [[cp|e] a1] eqn:Er; [|discriminate].
  pose proof (goes_through_run _ _ _ _ _ Hg Er) as Hg'.
  destruct (negb _); injection E as _ <-; assumption.
Qed.

(** An unload of a loaded module that goes through removes it and exits
    with status 0. *)
Lemma run_unload_through n module_id a :
  goes_through (S n) a = true ->
  existsb (has_index module_id) (modules (server a)) = true ->
  exists cp a',
    _run (unload_cmd module_id) a = (Return cp, a') /\
    returncode cp = 0 /\
    modules (server a') =
      List.filter (fun m => negb (has_index module_id m)) (modules (server a)) /\
    next_index (server a') = next_index (server a) /\
    router a' = router a /\
    issued (server a') = issued (server a) ++ [unload_cmd module_id] /\
    goes_through n a' = true.
Proof.
  intros Hg Hex.
  destruct (_run (unload_cmd module_id) a) as [r a'] eqn:E.
  pose proof (goes_through_run _ _ _ _ _ Hg E) as Hg'.
  pose proof (run_issued _ _ _ _ E) as [Hi Hro].
  pose proof (run_inv _ _ _ _ E) as [E' _].
  assert (Hrc : exists cp, r = Return cp /\ returncode cp = 0).
  { unfold goes_through in Hg. apply andb_prop in Hg as [Hp Hf].
    unfold subprocess_run in E'. rewrite Hp in E'. cbn [negb] in E'.
    change (parse_argv (unload_cmd module_id)) with (UnloadModule module_id) in E'.
    destruct (faults (server a)) as [|[|f|e|] rest]; cbn in Hf; try discriminate;
      cbn [serve record_run modules] in E'; rewrite Hex in E';
      injection E' as <- _; eexists; split; reflexivity. }
  destruct Hrc as (cp & -> & Hrc). exists cp, a'.
  destruct (run_unload_ok _ _ _ _ E Hrc) as [Hm Hn]. auto 10.
Qed.

Lemma listed_id_cons m : exists c s, listed_id m = c :: s.
Proof.
  pose proof (str_of_N_truthy (m_index m)) as Ht. fold (listed_id m) in Ht.
  destruct (listed_id m) as [|c s]; [discriminate|eauto].
Qed.

Lemma find_existsb_index ms m0 (p : Module_ -> bool) :
  List.find p ms = Some m0 -> existsb (has_index (listed_id m0)) ms = true.
Proof.
  intros H. apply find_some in H as [Hin _]. apply existsb_exists.
  exists m0. split; [assumption|apply has_index_listed].
Qed.

Lemma uint_str_visible d : forallb (fun c => negb (isspace c)) (uint_str d) = true.
Proof. induction d; cbn [uint_str forallb]; [reflexivity|..]; rewrite IHd; reflexivity. Qed.

Lemma rstrip_line s :
  forallb (fun c => negb (isspace c)) s = true -> rstrip (s ++ [newline]) = s.
Proof.
  induction s as [|c s IH]; [reflexivity|].
  cbn [forallb app]. intros H. apply andb_prop in H as [Hc Hs].
  apply negb_true_iff in Hc. rewrite rstrip_cons, IH by assumption. reflexivity.
Qed.

(** The identifier that [pactl load-module] prints, stripped, is the
    decimal index of the new module. *)
Lemma strip_printed_index n : strip (str_of_N n ++ [newline]) = str_of_N n.
Proof.
  unfold strip, str_of_N.
  pose proof (uint_str_visible (N.to_uint n)) as Hv.
  pose proof (str_of_N_truthy n) as Ht. unfold str_of_N in Ht.
  destruct (uint_str (N.to_uint n)) as [|c s] eqn:E; [discriminate|].
  cbn [forallb] in Hv. apply andb_prop in Hv as [Hc Hs].
  apply negb_true_iff in Hc. cbn [app lstrip]. rewrite Hc.
  change (c :: s ++ [newline]) with ((c :: s) ++ [newline]).
  apply rstrip_line. cbn [forallb]. rewrite Hc, Hs. reflexivity.
Qed.

Lemma run_load_stdout name args a cp a' :
  _run (lit "pactl" :: lit "load-module" :: name :: args) a = (Return cp, a') ->
  returncode cp = 0 ->
  stdout cp = str_of_N (next_index (server a)) ++ [newline].
Proof.
  intros E Hrc. apply run_inv in E as [E _].
  apply subprocess_run_ok_served in E as [rest E]; [|assumption].
  change (parse_argv (lit "pactl" :: lit "load-module" :: name :: args))
    with (LoadModule name args) in E.
  cbn in E. injection E as <- _. reflexivity.
Qed.

Lemma connect_load_remembers source_name a r a' :
  connect_load source_name a = (r, a') -> succeeded r = true ->
  mic_loop_module_id (router a') = Some (str_of_N (next_index (server a))) /\
  next_index (server a') = N.succ (next_index (server a)) /\
  r = Return (true, lit "Mic source connected: " ++ source_name).
Proof.
  unfold connect_load, bind.
  destruct (_run (load_loopback_cmd source_name) a) as [[cp|e] a1] eqn:E.
  - destruct (returncode cp =? 0) eqn:Hrc; cbn [negb].
    + apply Z.eqb_eq in Hrc. intros [= <- <-] _. cbn.
      rewrite (run_load_stdout _ _ _ _ _ E Hrc), strip_printed_index.
      apply run_load_ok in E as [_ Hn]; auto.
    + intros [= <- <-]. discriminate.
  - intros [= <- <-]. discriminate.
Qed.

End Disconnect.

Section DisconnectTheorems.

Implicit Types (a : Audio) (ms : list Module_).

(** X1. With a readable listing that shows no mic loopback and a query that
    exits with status 0, disconnecting reports that the source is already
    disconnected, runs the query and nothing else, and leaves the module
    graph and the router's fields as they were. *)
Theorem disconnect_without_mic_loop a :
  wf_modules (modules (server a)) = true ->
  modules_query_ok a = true ->
  mic_loops (modules (server a)) = [] ->
  exists a',
    disconnect_input_source_from_soundpad a =
      (Return (true, lit "Mic source already disconnected"), a') /\
    issued (server a') = issued (server a) ++ [list_modules_cmd] /\
    modules (server a') = modules (server a) /\
    router a' = router a.
Proof.
  intros Hwf Hq Hnone.
  pose proof (find_mic_loop_ok a Hwf Hq) as Hfound.
  unfold mic_loops in Hnone. rewrite (filter_nil_find_none _ _ Hnone) in Hfound.
  unfold disconnect_input_source_from_soundpad, bind.
  destruct (_find_mic_loop_module a) as [r a1] eqn:Ef. cbn [fst option_map] in Hfound.
  subst r. exists a1. split; [reflexivity|]. exact (find_mic_loop_frame _ _ _ Ef).
Qed.

Lemma disconnect_without_mic_loop_witness :
  exists a',
    disconnect_input_source_from_soundpad demo_audio =
      (Return (true, lit "Mic source already disconnected"), a') /\
    issued (server a') = issued (server demo_audio) ++ [list_modules_cmd] /\
    modules (server a') = modules (server demo_audio) /\
    router a' = router demo_audio.
Proof.
  apply (disconnect_without_mic_loop demo_audio); reflexivity.
Defined.

(** X2. On a server whose module indices ascend and whose listing is
    readable and shows at most one mic loopback, a disconnect that succeeds
    leaves exactly the modules that are not mic loopbacks, in their order:
    the monitor loopback, the virtual devices and foreign modules stay. *)
Theorem disconnect_removes_only_mic_loop a r a' :
  wf_modules (modules (server a)) = true ->
  well_indexed (server a) = true ->
  modules_query_ok a = true ->
  (length (mic_loops (modules (server a))) <= 1)%nat ->
  disconnect_input_source_from_soundpad a = (r, a') ->
  succeeded r = true ->
  modules (server a') =
    List.filter (fun m => negb (is_mic_loop m)) (modules (server a)) /\
  next_index (server a') = next_index (server a) /\
  well_indexed (server a') = true.
Proof.
  intros Hwf Hwi Hq Hlen E Hs.
  pose proof (find_mic_loop_ok a Hwf Hq) as Hfound.
  unfold disconnect_input_source_from_soundpad, bind in E.
  destruct (_find_mic_loop_module a) as [r1 a1] eqn:Ef. cbn [fst] in Hfound. subst r1.
  pose proof (find_mic_loop_frame _ _ _ Ef) as (_ & Hm1 & _).
  pose proof (find_mic_loop_next_index _ _ _ Ef) as Hn1.
  destruct (List.find is_mic_loop (modules (server a))) as [m0|] eqn:Hfind;
    cbn [option_map] in E.
  - destruct (listed_id_cons m0) as (c & s & Hid). rewrite Hid in E.
    destruct (_run (unload_cmd (c :: s)) a1) as [[cp|e] a2] eqn:Eu;
      [|injection E as <- _; discriminate].
    destruct (returncode cp =? 0) eqn:Hrc; cbn [negb] in E;
      [|injection E as <- _; discriminate].
    apply Z.eqb_eq in Hrc. apply run_unload_ok in Eu as [Hm2 Hn2]; [|assumption].
    injection E as _ <-. cbn [server set_mic_loop_module_id modify snd].
    unfold well_indexed in *.
    rewrite Hm2, Hn2, Hm1, Hn1, <- Hid.
    rewrite (unload_found_is_filter is_mic_loop _ _ _ _ Hwi Hfind Hlen).
    split; [reflexivity|]. split; [reflexivity|].
    apply indices_ascend_filter. assumption.
  - injection E as _ <-. unfold well_indexed in *. rewrite Hm1, Hn1.
    apply find_none_mic_loops in Hfind. unfold mic_loops in Hfind.
    rewrite (filter_nothing _ _ Hfind). auto.
Qed.

Lemma disconnect_removes_only_mic_loop_witness :
  modules (server (snd (disconnect_input_source_from_soundpad routed_audio_clear))) =
    List.filter (fun m => negb (is_mic_loop m)) (modules (server routed_audio_clear)) /\
  next_index (server (snd (disconnect_input_source_from_soundpad routed_audio_clear))) =
    next_index (server routed_audio_clear) /\
  well_indexed (server (snd (disconnect_input_source_from_soundpad routed_audio_clear))) = true.
Proof.
  apply (disconnect_removes_only_mic_loop routed_audio_clear
           (fst (disconnect_input_source_from_soundpad routed_audio_clear))
           (snd (disconnect_input_source_from_soundpad routed_audio_clear)));
    reflexivity.
Defined.

(** X3. Under the same conditions a connect that succeeds leaves every
    module that is not a mic loopback where it was, appends the new
    loopback with the server's next index, and remembers that index as the
    identifier of the mic loopback. *)
Theorem connect_keeps_other_modules source_name a r a' :
  wf_modules (modules (server a)) = true ->
  well_indexed (server a) = true ->
  modules_query_ok a = true ->
  (length (mic_loops (modules (server a))) <= 1)%nat ->
  connect_input_source_to_soundpad source_name a = (r, a') ->
  succeeded r = true ->
  modules (server a') =
    List.filter (fun m => negb (is_mic_loop m)) (modules (server a)) ++
    [loopback_module (next_index (server a)) source_name] /\
  mic_loop_module_id (router a') = Some (str_of_N (next_index (server a))) /\
  well_indexed (server a') = true.
Proof.
  intros Hwf Hwi Hq Hlen E Hs.
  pose proof (find_mic_loop_ok a Hwf Hq) as Hfound.
  unfold connect_input_source_to_soundpad, bind in E.
  destruct (_find_mic_loop_module a) as [r1 a1] eqn:Ef. cbn [fst] in Hfound. subst r1.
  pose proof (find_mic_loop_frame _ _ _ Ef) as (_ & Hm1 & _).
  pose proof (find_mic_loop_next_index _ _ _ Ef) as Hn1.
  unfold well_indexed in *.
  destruct (List.find is_mic_loop (modules (server a))) as [m0|] eqn:Hfind;
    cbn [option_map] in E.
  - destruct (listed_id_cons m0) as (c & s & Hid). rewrite Hid in E.
    destruct (_run (unload_cmd (c :: s)) a1) as [[cp|e] a2] eqn:Eu;
      [|injection E as <- _; discriminate].
    destruct (returncode cp =? 0) eqn:Hrc; cbn [negb] in E;
      [|injection E as <- _; discriminate].
    apply Z.eqb_eq in Hrc. apply run_unload_ok in Eu as [Hm2 Hn2]; [|assumption].
    cbn [set_mic_loop_module_id modify] in E.
    pose proof (connect_load_inv _ _ _ _ E Hs) as [Hm3 _].
    pose proof (connect_load_remembers _ _ _ _ E Hs) as (Hid3 & Hn3 & _).
    cbn [server] in Hm3, Hid3, Hn3.
    rewrite Hm3, Hid3, Hn3, Hm2, Hn2, Hm1, Hn1, <- Hid.
    rewrite (unload_found_is_filter is_mic_loop _ _ _ _ Hwi Hfind Hlen).
    split; [reflexivity|]. split; [reflexivity|].
    apply indices_ascend_snoc; [|reflexivity].
    apply indices_ascend_filter. assumption.
  - pose proof (connect_load_inv _ _ _ _ E Hs) as [Hm3 _].
    pose proof (connect_load_remembers _ _ _ _ E Hs) as (Hid3 & Hn3 & _).
    rewrite Hm3, Hid3, Hn3, Hm1, Hn1.
    apply find_none_mic_loops in Hfind. unfold mic_loops in Hfind.
    rewrite (filter_nothing _ _ Hfind).
    split; [reflexivity|]. split; [reflexivity|].
    apply indices_ascend_snoc; [assumption|reflexivity].
Qed.

Lemma connect_keeps_other_modules_witness :
  modules (server (snd (connect_input_source_to_soundpad (lit "alsa_input.b") routed_audio_clear))) =
    List.filter (fun m => negb (is_mic_loop m)) (modules (server routed_audio_clear)) ++
    [loopback_module 3 (lit "alsa_input.b")] /\
  mic_loop_module_id (router (snd (connect_input_source_to_soundpad (lit "alsa_input.b")
                                     routed_audio_clear))) = Some (lit "3") /\
  well_indexed (server (snd (connect_input_source_to_soundpad (lit "alsa_input.b")
                               routed_audio_clear))) = true.
Proof.
  apply (connect_keeps_other_modules (lit "alsa_input.b") routed_audio_clear
           (fst (connect_input_source_to_soundpad (lit "alsa_input.b") routed_audio_clear))
           (snd (connect_input_source_to_soundpad (lit "alsa_input.b") routed_audio_clear)));
    reflexivity.
Defined.

(** X4. Connect, then disconnect: from a state without mic loopback, with
    ascending indices, a readable listing and four runs that go through,
    connecting a source whose name is free of tabs and line breaks and does
    not read as the sink's monitor, and then disconnecting, restores the
    module graph. The two calls run query, load, query, unload, and the
    router forgets the identifier. *)
Theorem connect_then_disconnect_restores source_name a :
  wf_modules (modules (server a)) = true ->
  well_indexed (server a) = true ->
  mic_loops (modules (server a)) = [] ->
  clean source_name = true ->
  is_mic_loop_args (join (lit " ") (loopback_args source_name)) = true ->
  goes_through 4 a = true ->
  exists a1 a2,
    connect_input_source_to_soundpad source_name a =
      (Return (true, lit "Mic source connected: " ++ source_name), a1) /\
    disconnect_input_source_from_soundpad a1 =
      (Return (true, lit "Mic source disconnected"), a2) /\
    modules (server a2) = modules (server a) /\
    issued (server a2) =
      issued (server a) ++
      [list_modules_cmd; load_loopback_cmd source_name;
       list_modules_cmd; unload_cmd (str_of_N (next_index (server a)))] /\
    mic_loop_module_id (router a2) = None.
Proof.
  intros Hwf Hwi Hnone Hclean Hmic Hg.
  (* the connect call *)
  destruct (find_mic_loop_through 3 a Hwf Hg) as (b1 & Ef & Hro1 & Hm1 & Hn1 & Hi1 & Hg1).
  unfold mic_loops in Hnone. rewrite (filter_nil_find_none _ _ Hnone) in Ef.
  cbn [option_map] in Ef.
  destruct (run_load_through 2 (lit "module-loopback") (loopback_args source_name) b1 Hg1)
    as (cp & b2 & El & Hrc & Hm2 & Hro2 & Hg2).
  pose proof (run_issued _ _ _ _ El) as [Hi2 _].
  pose proof (run_load_stdout _ _ _ _ _ El Hrc) as Hout.
  pose proof (run_load_ok _ _ _ _ _ El Hrc) as [_ Hn2].
  set (new := loopback_module (next_index (server a)) source_name).
  set (a1 := snd (set_mic_loop_module_id (Some (strip (stdout cp))) b2)).
  assert (Ec : connect_input_source_to_soundpad source_name a =
               (Return (true, lit "Mic source connected: " ++ source_name), a1)).
  { unfold connect_input_source_to_soundpad, bind. rewrite Ef.
    unfold connect_load, bind. fold (load_loopback_cmd source_name) in El. rewrite El.
    apply Z.eqb_eq in Hrc. rewrite Hrc. reflexivity. }
  assert (Hma1 : modules (server a1) = modules (server a) ++ [new]).
  { subst a1 new. cbn. rewrite Hm2, Hm1, Hn1. reflexivity. }
  assert (Hia1 : issued (server a1) =
                 issued (server a) ++ [list_modules_cmd; load_loopback_cmd source_name]).
  { subst a1. cbn. rewrite Hi2, Hi1, <- app_assoc. reflexivity. }
  assert (Hga1 : goes_through 2 a1 = true) by exact Hg2.
  (* the disconnect call *)
  assert (Hwf1 : wf_modules (modules (server a1)) = true).
  { rewrite Hma1. apply wf_modules_snoc; assumption. }
  destruct (find_mic_loop_through 1 a1 Hwf1 Hga1)
    as (c1 & Ef1 & Hro3 & Hm3 & Hn3 & Hi3 & Hg3).
  assert (Hfind : List.find is_mic_loop (modules (server a1)) = Some new).
  { rewrite Hma1. clear -Hnone Hmic. induction (modules (server a)) as [|m ms IH].
    - cbn [app List.find]. subst new. rewrite is_mic_loop_loopback_module, Hmic. reflexivity.
    - cbn [List.filter] in Hnone. cbn [app List.find].
      destruct (is_mic_loop m); [discriminate|auto]. }
  rewrite Hfind in Ef1. cbn [option_map] in Ef1.
  change (listed_id new) with (str_of_N (next_index (server a))) in Ef1.
  destruct (run_unload_through 0 (str_of_N (next_index (server a))) c1 Hg3)
    as (cp2 & c2 & Eu & Hrc2 & Hm4 & Hn4 & Hro4 & Hi4 & _).
  { rewrite Hm3. change (str_of_N (next_index (server a))) with (listed_id new).
    eapply find_existsb_index. exact Hfind. }
  exists a1, (snd (set_mic_loop_module_id None c2)). split; [exact Ec|].
  split.
  { unfold disconnect_input_source_from_soundpad, bind. rewrite Ef1.
    destruct (listed_id_cons new) as (c & s & Hid).
    change (listed_id new) with (str_of_N (next_index (server a))) in Hid.
    rewrite Hid in Eu |- *. rewrite Eu.
    apply Z.eqb_eq in Hrc2. rewrite Hrc2. reflexivity. }
  cbn [snd set_mic_loop_module_id modify server router mic_loop_module_id].
  split; [|split; [|reflexivity]].
  - rewrite Hm4, Hm3, Hma1, List.filter_app.
    cbn [List.filter]. change (str_of_N (next_index (server a))) with (listed_id new).
    rewrite has_index_listed. cbn [negb]. rewrite app_nil_r.
    apply (unload_fresh_is_nothing _ 0). exact Hwi.
  - rewrite Hi4, Hi3, Hia1, <- !app_assoc. reflexivity.
Qed.

Lemma connect_then_disconnect_restores_witness :
  exists a1 a2,
    connect_input_source_to_soundpad (lit "alsa_input.usb") demo_audio =
      (Return (true, lit "Mic source connected: " ++ lit "alsa_input.usb"), a1) /\
    disconnect_input_source_from_soundpad a1 =
      (Return (true, lit "Mic source disconnected"), a2) /\
    modules (server a2) = modules (server demo_audio) /\
    issued (server a2) =
      issued (server demo_audio) ++
      [list_modules_cmd; load_loopback_cmd (lit "alsa_input.usb");
       list_modules_cmd; unload_cmd (str_of_N (next_index (server demo_audio)))] /\
    mic_loop_module_id (router a2) = None.
Proof.
  apply (connect_then_disconnect_restores (lit "alsa_input.usb") demo_audio); reflexivity.
Defined.

End DisconnectTheorems.

(** ** The local monitor *)

Section Monitor.

Implicit Types (a : Audio) (ms : list Module_).

Lemma monitor_module_not_mic_loop index : is_mic_loop (monitor_module index) = false.
Proof. reflexivity. Qed.

Lemma monitor_module_is_monitor index : is_monitor_loop (monitor_module index) = true.
Proof. reflexivity. Qed.

Lemma monitor_module_wf index : wf_modules [monitor_module index] = true.
Proof. reflexivity. Qed.

Lemma filter_snoc_false {A} (p : A -> bool) (l : list A) x :
  p x = false -> List.filter p (l ++ [x]) = List.filter p l.
Proof. intros H. rewrite List.filter_app. cbn [List.filter]. rewrite H. apply app_nil_r. Qed.

(** X5. From a readable listing and with two runs that go through,
    [ensure_local_monitor] succeeds. When a monitor loopback is listed it
    loads nothing and remembers the listed one; otherwise it appends one
    monitor loopback with the server's next index. Either way a monitor
    loopback is loaded afterwards and the mic loopbacks are untouched. *)
Theorem ensure_local_monitor_establishes a :
  wf_modules (modules (server a)) = true ->
  goes_through 2 a = true ->
  exists a',
    ensure_local_monitor a =
      (Return (true, if existsb is_monitor_loop (modules (server a))
                     then lit "Local monitor ready" else lit "Local monitor enabled"), a') /\
    modules (server a') =
      modules (server a) ++
      (if existsb is_monitor_loop (modules (server a)) then []
       else [monitor_module (next_index (server a))]) /\
    monitor_module_id (router a') =
      Some (match List.find is_monitor_loop (modules (server a)) with
            | Some m => listed_id m
            | None => str_of_N (next_index (server a))
            end) /\
    existsb is_monitor_loop (modules (server a')) = true /\
    mic_loops (modules (server a')) = mic_loops (modules (server a)) /\
    wf_modules (modules (server a')) = true.
Proof.
  intros Hwf Hg.
  destruct (module_id_by_name_through 1 (lit "module-loopback")
              (lit "source=" ++ SINK_NAME ++ lit ".monitor") a Hwf Hg)
    as (a1 & E & Hro & Hm & Hi & Hg1).
  fold is_monitor_loop in E.
  assert (Hn1 : next_index (server a1) = next_index (server a)).
  { clear -E. unfold _module_id_by_name, bind in E.
    destruct (_run list_modules_cmd a) as [[cp|e] a2] eqn:Er;
      apply run_inv in Er as [Er _]; apply subprocess_run_list_keeps in Er as [_ Er];
      [destruct (negb _)|]; injection E as _ <-; assumption. }
  unfold ensure_local_monitor, bind. rewrite E.
  cbn [set_monitor_module_id modify].
  destruct (existsb is_monitor_loop (modules (server a))) eqn:Hex.
  - pose proof Hex as Hex'. apply existsb_find in Hex as [m Hfind]. rewrite Hfind.
    cbn [option_map id_truthy]. pose proof (str_of_N_truthy (m_index m)) as Ht.
    fold (listed_id m) in Ht. rewrite Ht. eexists. split; [reflexivity|].
    cbn [server router monitor_module_id]. rewrite app_nil_r, Hm. auto.
  - assert (Hfind : List.find is_monitor_loop (modules (server a)) = None).
    { clear -Hex. induction (modules (server a)) as [|m ms IH]; [reflexivity|].
      cbn [existsb List.find] in *. apply orb_false_elim in Hex as [-> Hex]. auto. }
    rewrite Hfind. cbn [option_map id_truthy].
    match goal with |- context [_run load_monitor_cmd ?s] => set (b := s) end.
    destruct (run_load_through 0 (lit "module-loopback")
                [lit "source=" ++ SINK_NAME ++ lit ".monitor";
                 lit "sink=@DEFAULT_SINK@"; lit "latency_msec=30"] b Hg1)
      as (cp & b2 & El & Hrc & Hm2 & Hro2 & _).
    fold load_monitor_cmd in El. rewrite El.
    pose proof (run_load_stdout _ _ _ _ _ El Hrc) as Hout.
    apply Z.eqb_eq in Hrc. rewrite Hrc. cbn [negb].
    eexists. split; [reflexivity|].
    cbn [server router monitor_module_id set_monitor_module_id modify snd].
    rewrite Hout, strip_printed_index. subst b. cbn [server] in *.
    rewrite Hm2, Hm, Hn1.
    change {| m_index := next_index (server a); m_name := lit "module-loopback";
              m_argument := _ |} with (monitor_module (next_index (server a))).
    split; [reflexivity|]. split; [reflexivity|]. split; [|split].
    + rewrite existsb_app. cbn [existsb]. rewrite monitor_module_is_monitor.
      apply orb_true_r.
    + unfold mic_loops. apply filter_snoc_false, monitor_module_not_mic_loop.
    + rewrite wf_modules_app, Hwf. reflexivity.
Qed.

Lemma ensure_local_monitor_establishes_witness :
  exists a',
    ensure_local_monitor plain_audio =
      (Return (true, if existsb is_monitor_loop (modules (server plain_audio))
                     then lit "Local monitor ready" else lit "Local monitor enabled"), a') /\
    modules (server a') =
      modules (server plain_audio) ++
      (if existsb is_monitor_loop (modules (server plain_audio)) then []
       else [monitor_module (next_index (server plain_audio))]) /\
    monitor_module_id (router a') =
      Some (match List.find is_monitor_loop (modules (server plain_audio)) with
            | Some m => listed_id m
            | None => str_of_N (next_index (server plain_audio))
            end) /\
    existsb is_monitor_loop (modules (server a')) = true /\
    mic_loops (modules (server a')) = mic_loops (modules (server plain_audio)) /\
    wf_modules (modules (server a')) = true.
Proof.
  apply (ensure_local_monitor_establishes plain_audio); reflexivity.
Defined.

(** X6. Speakers on, then off: with ascending indices, a readable listing
    that shows at most one monitor loopback and three runs that go through,
    [ensure_local_monitor] followed by [unload_monitor] leaves exactly the
    modules that are not monitor loopbacks, whether the monitor was found
    or had to be loaded, and the router forgets its identifier. *)
Theorem monitor_on_then_off a :
  wf_modules (modules (server a)) = true ->
  well_indexed (server a) = true ->
  (length (List.filter is_monitor_loop (modules (server a))) <= 1)%nat ->
  goes_through 3 a = true ->
  exists msg a1 a2,
    ensure_local_monitor a = (Return (true, msg), a1) /\
    unload_monitor a1 = (Return (true, lit "Speaker monitor muted"), a2) /\
    modules (server a2) =
      List.filter (fun m => negb (is_monitor_loop m)) (modules (server a)) /\
    monitor_module_id (router a2) = None.
Proof.
  intros Hwf Hwi Hlen Hg.
  destruct (module_id_by_name_through 2 (lit "module-loopback")
              (lit "source=" ++ SINK_NAME ++ lit ".monitor") a Hwf Hg)
    as (a1 & E & Hro & Hm & Hi & Hg1).
  fold is_monitor_loop in E.
  assert (Hn1 : next_index (server a1) = next_index (server a)).
  { clear -E. unfold _module_id_by_name, bind in E.
    destruct (_run list_modules_cmd a) as [[cp|e] a2] eqn:Er;
      apply run_inv in Er as [Er _]; apply subprocess_run_list_keeps in Er as [_ Er];
      [destruct (negb _)|]; injection E as _ <-; assumption. }
  unfold ensure_local_monitor, bind. rewrite E.
  cbn [set_monitor_module_id modify]. unfold well_indexed in Hwi.
  destruct (List.find is_monitor_loop (modules (server a))) as [m0|] eqn:Hfind;
    cbn [option_map id_truthy].
  - pose proof (str_of_N_truthy (m_index m0)) as Ht. fold (listed_id m0) in Ht.
    rewrite Ht.
    set (b := snd (set_monitor_module_id (Some (listed_id m0)) a1)).
    exists (lit "Local monitor ready"), b.
    destruct (run_unload_through 1 (listed_id m0) b) as
      (cp & b2 & Eu & Hrc & Hm2 & _ & _ & _ & _).
    { exact Hg1. }
    { subst b. cbn [server snd set_monitor_module_id modify]. rewrite Hm.
      eapply find_existsb_index. exact Hfind. }
    exists (snd (set_monitor_module_id None b2)). split; [reflexivity|]. split.
    + unfold unload_monitor, bind, gets. subst b.
      cbn [router monitor_module_id snd set_monitor_module_id modify].
      destruct (listed_id_cons m0) as (c & s & Hid). rewrite Hid in Eu |- *.
      cbn [snd set_monitor_module_id modify] in Eu. rewrite Eu. apply Z.eqb_eq in Hrc. rewrite Hrc. reflexivity.
    + cbn [snd set_monitor_module_id modify server router monitor_module_id].
      split; [|reflexivity]. rewrite Hm2. subst b.
      cbn [server snd set_monitor_module_id modify]. rewrite Hm.
      apply (unload_found_is_filter is_monitor_loop _ _ _ _ Hwi Hfind Hlen).
  - match goal with |- context [_run load_monitor_cmd ?s] => set (b := s) end.
    destruct (run_load_through 1 (lit "module-loopback")
                [lit "source=" ++ SINK_NAME ++ lit ".monitor";
                 lit "sink=@DEFAULT_SINK@"; lit "latency_msec=30"] b Hg1)
      as (cp & b2 & El & Hrc & Hm2 & Hro2 & Hg2).
    fold load_monitor_cmd in El. rewrite El.
    pose proof (run_load_stdout _ _ _ _ _ El Hrc) as Hout.
    apply Z.eqb_eq in Hrc. rewrite Hrc. cbn [negb].
    rewrite Hout, strip_printed_index. subst b. cbn [server] in *.
    rewrite Hn1 in *. rewrite Hm in Hm2.
    set (b3 := snd (set_monitor_module_id (Some (str_of_N (next_index (server a)))) b2)).
    exists (lit "Local monitor enabled"), b3.
    destruct (run_unload_through 0 (str_of_N (next_index (server a))) b3) as
      (cp3 & b4 & Eu & Hrc3 & Hm4 & _ & _ & _ & _).
    { exact Hg2. }
    { subst b3. cbn [server snd set_monitor_module_id modify]. rewrite Hm2.
      rewrite existsb_app. cbn [existsb].
      change (str_of_N (next_index (server a)))
        with (listed_id (monitor_module (next_index (server a)))).
      rewrite has_index_listed. apply orb_true_r. }
    exists (snd (set_monitor_module_id None b4)). split; [reflexivity|]. split.
    + unfold unload_monitor, bind, gets. subst b3.
      cbn [router monitor_module_id snd set_monitor_module_id modify].
      destruct (listed_id_cons (monitor_module (next_index (server a)))) as (c & s & Hid).
      change (listed_id (monitor_module (next_index (server a))))
        with (str_of_N (next_index (server a))) in Hid.
      rewrite Hid in Eu |- *. cbn [snd set_monitor_module_id modify] in Eu.
      rewrite Eu. apply Z.eqb_eq in Hrc3. rewrite Hrc3. reflexivity.
    + cbn [snd set_monitor_module_id modify server router monitor_module_id].
      split; [|reflexivity]. rewrite Hm4. subst b3.
      cbn [snd set_monitor_module_id modify server]. rewrite Hm2.
      rewrite List.filter_app. cbn [List.filter].
      change {| m_index := next_index (server a); m_name := lit "module-loopback";
                m_argument := _ |} with (monitor_module (next_index (server a))).
      change (str_of_N (next_index (server a)))
        with (listed_id (monitor_module (next_index (server a)))) at 2.
      rewrite has_index_listed. cbn [negb]. rewrite app_nil_r.
      rewrite (unload_fresh_is_nothing _ 0) by exact Hwi.
      symmetry. apply filter_nothing. apply filter_none. intros m Hin.
      destruct (is_monitor_loop m) eqn:Hp; [|reflexivity].
      pose proof (find_none _ _ Hfind m Hin). congruence.
Qed.

Lemma monitor_on_then_off_witness :
  exists msg a1 a2,
    ensure_local_monitor demo_audio = (Return (true, msg), a1) /\
    unload_monitor a1 = (Return (true, lit "Speaker monitor muted"), a2) /\
    modules (server a2) =
      List.filter (fun m => negb (is_monitor_loop m)) (modules (server demo_audio)) /\
    monitor_module_id (router a2) = None.
Proof.
  apply (monitor_on_then_off demo_audio); [reflexivity|reflexivity| |reflexivity].
  vm_compute. lia.
Defined.

End Monitor.

(** ** Input sources and the default source *)

Section Sources.

Implicit Types (a : Audio) (lines : list str).

Lemma splitlines_render_lines lines :
  forallb no_linebreak lines = true -> splitlines (render_lines lines) = lines.
Proof.
  unfold splitlines, render_lines. induction lines as [|l lines IH]; [reflexivity|].
  cbn [forallb map concat]. intros H. apply andb_prop in H as [Hl Hr].
  rewrite <- app_assoc. cbn [app]. rewrite splitlines_line by exact Hl.
  rewrite IH by assumption. reflexivity.
Qed.

(** A run that goes through returns what the server answers. *)
Lemma run_through_served argv a :
  goes_through 1 a = true ->
  fst (_run argv a) =
  Return (fst (serve (parse_argv argv)
                 (record_run argv (tl (faults (server a))) (server a)))).
Proof.
  unfold goes_through, _run, subprocess_run. intros H. apply andb_prop in H as [Hp Hf].
  rewrite Hp. cbn [negb].
  destruct (faults (server a)) as [|[|f|e|] rest]; cbn in Hf; try discriminate; cbn [tl];
    destruct (serve _ _); reflexivity.
Qed.

(** A run raises what [subprocess.run] raised. *)
Lemma run_raises argv a e a' :
  _run argv a = (Raise e, a') -> raised_by_run (server a) e.
Proof.
  intros E. pose proof (proj2 (transparent_run argv a)) as H.
  rewrite E in H. exact H.
Qed.

Lemma list_input_sources_loop_sound lines :
  Forall (fun n => is_virtual_name n = false /\ strip n = n)
         (list_input_sources_loop lines).
Proof.
  induction lines as [|line lines IH]; [constructor|].
  cbn [list_input_sources_loop].
  destruct (split tab line) as [|x0 [|name rest]]; try exact IH.
  cbv zeta. fold (is_virtual_name (strip name)).
  destruct (is_virtual_name (strip name)) eqn:Hv; [exact IH|].
  constructor; [|exact IH]. split; [exact Hv|]. apply strip_strip.
Qed.

(** X7. Whatever the server prints, the input sources that
    [list_input_sources] returns never include [soundpad_mic] or a name
    ending in [.monitor], and each is free of surrounding white space; an
    exception that leaves the call is the one that its call of
    [subprocess.run] raised. *)
Theorem list_input_sources_excludes_virtual a :
  match fst (list_input_sources a) with
  | Return names =>
      Forall (fun n => n <> SOURCE_NAME /\ endswith (lit ".monitor") n = false /\
                       strip n = n) names
  | Raise e => raised_by_run (server a) e
  end.
Proof.
  unfold list_input_sources, bind.
  destruct (_run _ a) as [[cp|e] a1] eqn:E; cbn [fst].
  - destruct (negb _); cbn [ret fst]; [constructor|].
    eapply List.Forall_impl; [|apply list_input_sources_loop_sound].
    intros n [Hv Hs]. unfold is_virtual_name in Hv. apply orb_false_elim in Hv as [Hn Hm].
    unfold eqb in Hn. apply bool_decide_eq_false in Hn. auto.
  - exact (run_raises _ _ _ _ E).
Qed.

Lemma split_render_source row :
  clean (s_name row) = true ->
  exists rest, split tab (render_source row) = str_of_N (s_index row) :: s_name row :: rest.
Proof.
  intros Hn. unfold render_source.
  rewrite split_field by apply uint_str_clean.
  destruct (s_detail row) as [|c d] eqn:Hd.
  - rewrite split_field by exact Hn. eauto.
  - rewrite split_field by exact Hn. eauto.
Qed.

Lemma list_input_sources_loop_rows rows :
  forallb (fun row => clean (s_name row)) rows = true ->
  list_input_sources_loop (map render_source rows) =
  List.filter (fun n => negb (is_virtual_name n)) (map (fun row => strip (s_name row)) rows).
Proof.
  induction rows as [|row rows IH]; [reflexivity|].
  cbn [forallb map list_input_sources_loop List.filter].
  intros H. apply andb_prop in H as [Hn Hr].
  destruct (split_render_source row Hn) as [rest ->].
  cbv zeta. fold (is_virtual_name (strip (s_name row))).
  destruct (is_virtual_name (strip (s_name row))); cbn [negb]; rewrite IH by assumption;
    reflexivity.
Qed.

(** X8. When the server lists its sources one per line, index, name and
    further columns separated by tabs, a query that goes through returns
    the names in listing order, stripped of surrounding white space, minus
    [soundpad_mic] and the names ending in [.monitor]. *)
Theorem list_input_sources_of_listing a rows :
  goes_through 1 a = true ->
  sources_text (server a) = render_sources rows ->
  forallb (fun row => clean (s_name row) && no_linebreak (s_detail row)) rows = true ->
  fst (list_input_sources a) =
  Return (List.filter (fun n => negb (is_virtual_name n))
            (map (fun row => strip (s_name row)) rows)).
Proof.
  intros Hg Htext Hrows.
  unfold list_input_sources, bind.
  pose proof (run_through_served [lit "pactl"; lit "list"; lit "short"; lit "sources"] a Hg)
    as Hr.
  change (parse_argv _) with ListSources in Hr. cbn [serve fst record_run sources_text] in Hr.
  destruct (_run _ a) as [r a1]. cbn [fst] in Hr. subst r.
  cbn [ok returncode stdout Z.eqb negb ret fst]. rewrite Htext.
  unfold render_sources. rewrite splitlines_render_lines.
  - rewrite list_input_sources_loop_rows; [reflexivity|].
    clear -Hrows. induction rows as [|row rows IH]; [reflexivity|].
    cbn [forallb] in *. apply andb_prop in Hrows as [H1 H2].
    apply andb_prop in H1 as [-> _]. auto.
  - clear -Hrows. induction rows as [|row rows IH]; [reflexivity|].
    cbn [forallb map] in *. apply andb_prop in Hrows as [H1 H2].
    apply andb_prop in H1 as [Hn Hd]. rewrite IH by assumption. rewrite andb_true_r.
    unfold no_linebreak, render_source, str_of_N in *.
    rewrite forallb_app. cbn [forallb]. rewrite forallb_app. cbn [forallb].
    rewrite Hd, (clean_no_linebreak _ Hn), (clean_no_linebreak _ (uint_str_clean _)).
    reflexivity.
Qed.

Lemma list_input_sources_of_listing_witness :
  fst (list_input_sources usb_audio) =
  Return (List.filter (fun n => negb (is_virtual_name n))
            (map (fun row => strip (s_name row)) usb_rows)).
Proof.
  apply (list_input_sources_of_listing usb_audio usb_rows); reflexivity.
Defined.

End Sources.

Section DefaultSource.

Implicit Types (a : Audio) (lines : list str).

Lemma get_default_source_loop_first before value after a :
  forallb (fun l => negb (startswith (lit "Default Source:") l)) before = true ->
  get_default_source_loop (before ++ (lit "Default Source:" ++ value) :: after) a =
  (Return (strip value), a).
Proof.
  induction before as [|l before IH]; cbn [forallb app get_default_source_loop].
  - intros _. reflexivity.
  - intros H. apply andb_prop in H as [Hl Hb]. apply negb_true_iff in Hl. rewrite Hl. auto.
Qed.

(** X9. When [pactl info] goes through and prints its fields one per line,
    [get_default_source] returns what follows the first colon of the first
    line starting with [Default Source:], stripped of surrounding white
    space: a source name with colons in it comes back whole, and later
    lines are not read. *)
Theorem get_default_source_of_listing a before value after :
  goes_through 1 a = true ->
  info_text (server a) =
    render_lines (before ++ (lit "Default Source:" ++ value) :: after) ->
  forallb no_linebreak (before ++ (lit "Default Source:" ++ value) :: after) = true ->
  forallb (fun l => negb (startswith (lit "Default Source:") l)) before = true ->
  fst (get_default_source a) = Return (strip value).
Proof.
  intros Hg Htext Hlines Hbefore.
  unfold get_default_source, bind.
  pose proof (run_through_served [lit "pactl"; lit "info"] a Hg) as Hr.
  change (parse_argv _) with Info in Hr. cbn [serve fst record_run info_text] in Hr.
  destruct (_run _ a) as [r a1]. cbn [fst] in Hr. subst r.
  cbn [ok returncode stdout Z.eqb negb]. rewrite Htext.
  rewrite splitlines_render_lines by exact Hlines.
  rewrite get_default_source_loop_first by exact Hbefore. reflexivity.
Qed.

Lemma get_default_source_of_listing_witness :
  fst (get_default_source usb_audio) = Return (lit "bluez_input.AA:BB").
Proof.
  apply (get_default_source_of_listing usb_audio [lit "Server Name: PulseAudio"]
           (lit " bluez_input.AA:BB ") [lit "Default Source: other"]); reflexivity.
Defined.

End DefaultSource.

(** ** Further properties of chord texts *)

Section Chords.

Implicit Types (s text : str) (tokens : list str).

Lemma lstrip_lower s : lstrip (lower s) = lower (lstrip s).
Proof.
  induction s as [|c s IH]; [reflexivity|].
  cbn [lower map lstrip]. rewrite isspace_lower_char.
  destruct (isspace c); [exact IH|reflexivity].
Qed.

Lemma rstrip_lower s : rstrip (lower s) = lower (rstrip s).
Proof.
  induction s as [|c s IH]; [reflexivity|].
  cbn [lower map rstrip]. fold (lower s). rewrite IH.
  destruct (rstrip s) as [|c' r]; cbn [lower map]; [|reflexivity].
  rewrite isspace_lower_char. destruct (isspace c); reflexivity.
Qed.

Lemma strip_lower s : strip (lower s) = lower (strip s).
Proof. unfold strip. rewrite lstrip_lower, rstrip_lower. reflexivity. Qed.

Lemma split_lower s : split plus (lower s) = map lower (split plus s).
Proof.
  induction s as [|c s IH]; [reflexivity|].
  cbn [lower map split]. fold (lower s). rewrite lower_char_plus, IH.
  destruct (bool_decide (c = plus)); [reflexivity|].
  destruct (split plus s) as [|p ps]; reflexivity.
Qed.

Lemma chord_tokens_lower s : chord_tokens (lower s) = map lower (chord_tokens s).
Proof.
  unfold chord_tokens. rewrite split_lower.
  induction (split plus s) as [|p ps IH]; [reflexivity|].
  cbn [map List.filter]. rewrite strip_lower, truthy_lower.
  destruct (truthy (strip p)); cbn [map]; rewrite IH; reflexivity.
Qed.

Lemma modifier_name_lower token : modifier_name (lower token) = modifier_name token.
Proof. unfold modifier_name. rewrite lower_idem. reflexivity. Qed.

Lemma modifiers_loop_lower tokens : forall acc,
  modifiers_loop acc (map lower tokens) = modifiers_loop acc tokens.
Proof.
  induction tokens as [|t tokens IH]; intros acc; [reflexivity|].
  cbn [map modifiers_loop]. rewrite modifier_name_lower.
  destruct (modifier_name t); [apply IH|reflexivity].
Qed.

(** X10. Chord texts are read without regard to case: a text and its
    lower-case form parse to the same modifiers and the same key, or are
    both rejected. *)
Theorem hotkey_to_parts_ignores_case text :
  _hotkey_to_parts (lower text) = _hotkey_to_parts text.
Proof.
  pose proof (chord_tokens_lower (strip text)) as Hl. rewrite <- strip_lower in Hl.
  destruct (chord_tokens (strip text)) as [|p ps] eqn:E.
  - rewrite !hotkey_to_parts_by_tokens, Hl, E. reflexivity.
  - destruct (exists_last (l := p :: ps)) as (names & key & Hparts); [discriminate|].
    rewrite Hparts in Hl. rewrite map_app in Hl. cbn [map] in Hl.
    rewrite (hotkey_to_parts_snoc _ _ _ Hl).
    rewrite <- E in Hparts. rewrite (hotkey_to_parts_snoc _ _ _ Hparts).
    rewrite modifiers_loop_lower, lower_idem. reflexivity.
Qed.

Lemma hotkey_to_parts_mods_canonical text mods key :
  _hotkey_to_parts text = Some (mods, key) ->
  forall name, name ∈ mods -> In name canonical_modifiers.
Proof.
  intros H. apply hotkey_to_parts_inv in H as (names & key0 & Htok & -> & Hloop).
  intros name Hin. apply (modifiers_loop_elem _ _ _ Hloop) in Hin.
  destruct Hin as [Hin | (token & _ & Hn)].
  - exfalso. revert Hin. apply not_elem_of_empty.
  - exact (modifier_name_canonical _ _ Hn).
Qed.

(** X11. What the parser returns is well formed: every modifier is one of
    [control], [alt], [shift] and [super], and the key is non-empty, in
    lower case, free of [+] and of surrounding white space. *)
Theorem hotkey_to_parts_shape text mods key :
  _hotkey_to_parts text = Some (mods, key) ->
  (forall name, name ∈ mods -> In name canonical_modifiers) /\
  truthy key = true /\ lower key = key /\ plus_free key = true /\ trimmed key = true.
Proof.
  intros H. split; [exact (hotkey_to_parts_mods_canonical _ _ _ H)|].
  apply hotkey_to_parts_inv in H as (names & key0 & Htok & -> & Hloop).
  { pose proof (chord_tokens_are_tokens (strip text)) as Hall.
    rewrite Htok, forallb_app in Hall. apply andb_prop in Hall as [_ Hk].
    cbn [forallb] in Hk. rewrite andb_true_r in Hk.
    apply is_token_inv in Hk as (Ht & Htr & Hp).
    rewrite truthy_lower, lower_idem, plus_free_lower, trimmed_lower. auto. }
Qed.

Lemma hotkey_to_parts_shape_witness :
  (forall name, name ∈ ({[ lit "control"; lit "alt" ]} : gset str) ->
                In name canonical_modifiers) /\
  truthy (lit "m") = true /\ lower (lit "m") = lit "m" /\
  plus_free (lit "m") = true /\ trimmed (lit "m") = true.
Proof.
  apply (hotkey_to_parts_shape (lit " CTRL + Alt+M ")). vm_compute. reflexivity.
Defined.

Lemma tk_modifiers_loop_agrees tokens : forall acc acc',
  tk_modifiers_loop acc tokens = None <-> modifiers_loop acc' tokens = None.
Proof.
  induction tokens as [|t tokens IH]; intros acc acc';
    cbn [tk_modifiers_loop modifiers_loop].
  - split; discriminate.
  - unfold modifier_name. cbv zeta.
    destruct (eqb (lower t) (lit "ctrl") || eqb (lower t) (lit "control")); [apply IH|].
    destruct (eqb (lower t) (lit "alt")); [apply IH|].
    destruct (eqb (lower t) (lit "shift")); [apply IH|].
    destruct (eqb (lower t) (lit "super") || eqb (lower t) (lit "win") ||
              eqb (lower t) (lit "mod4")); [apply IH|].
    split; reflexivity.
Qed.

(** X12. The parser of the hotkey dialog and the parser of the global
    hotkey manager accept the same texts: a chord for which
    [_hotkey_to_tk_sequence] builds a Tk sequence is one that
    [_hotkey_to_parts] parses, and the other way round. *)
Theorem hotkey_parsers_agree text :
  _hotkey_to_tk_sequence text = None <-> _hotkey_to_parts text = None.
Proof.
  unfold _hotkey_to_tk_sequence, _hotkey_to_parts. cbv zeta.
  destruct (negb (truthy (strip text))); [split; reflexivity|].
  destruct (chord_tokens (strip text)) as [|p ps] eqn:E; [split; reflexivity|].
  pose proof (tk_modifiers_loop_agrees (removelast (p :: ps)) [] ∅) as Hagree.
  destruct (tk_modifiers_loop [] (removelast (p :: ps)));
    destruct (modifiers_loop ∅ (removelast (p :: ps))).
  - split; discriminate.
  - destruct Hagree as [_ Hagree]. specialize (Hagree eq_refl). discriminate.
  - destruct Hagree as [Hagree _]. specialize (Hagree eq_refl). discriminate.
  - split; reflexivity.
Qed.

End Chords.

(** ** Modifier masks and the capture loop *)

Section Masks.

Implicit Types (mods : gset str) (h : Hotkeys) (xs : XServer).

Lemma modifier_mask_of mods :
  _modifier_mask mods =
  mask_of (bool_decide (lit "control" ∈ mods)) (bool_decide (lit "alt" ∈ mods))
          (bool_decide (lit "shift" ∈ mods)) (bool_decide (lit "super" ∈ mods)).
Proof.
  unfold _modifier_mask, mask_of. cbv zeta.
  destruct (bool_decide (lit "control" ∈ mods)), (bool_decide (lit "alt" ∈ mods)),
    (bool_decide (lit "shift" ∈ mods)), (bool_decide (lit "super" ∈ mods)); reflexivity.
Qed.

Lemma mask_of_inj c a s w c' a' s' w' :
  mask_of c a s w = mask_of c' a' s' w' -> c = c' /\ a = a' /\ s = s' /\ w = w'.
Proof.
  destruct c, a, s, w, c', a', s', w'; intros H; try discriminate H; auto.
Qed.

Lemma mask_of_lock_free c a s w extra :
  In extra lock_variants ->
  Z.land (Z.lor (mask_of c a s w) extra)
    (Z.lor (Z.lor (Z.lor X.ShiftMask X.ControlMask) X.Mod1Mask) X.Mod4Mask) =
  mask_of c a s w.
Proof.
  intros Hin. cbn [lock_variants In] in Hin.
  destruct Hin as [<-|[<-|[<-|[<-|[]]]]]; destruct c, a, s, w; reflexivity.
Qed.

End Masks.

Section CaptureLoop.

Implicit Types (mods : gset str) (h : Hotkeys) (xs : XServer)
  (table : gmap (Z * Z) Action).

(** X13. Two chords that parse get the same base mask only if they have
    the same modifiers: no two modifier sets share an entry of the action
    table. *)
Theorem modifier_mask_injective text text' mods mods' key key' :
  _hotkey_to_parts text = Some (mods, key) ->
  _hotkey_to_parts text' = Some (mods', key') ->
  _modifier_mask mods = _modifier_mask mods' ->
  mods = mods'.
Proof.
  intros Hp Hp' Hmask.
  pose proof (hotkey_to_parts_mods_canonical _ _ _ Hp) as Hc.
  pose proof (hotkey_to_parts_mods_canonical _ _ _ Hp') as Hc'.
  rewrite !modifier_mask_of in Hmask.
  apply mask_of_inj in Hmask as (H1 & H2 & H3 & H4).
  assert (Hsub : forall (m m' : gset str),
            (forall name, name ∈ m -> In name canonical_modifiers) ->
            bool_decide (lit "control" ∈ m) = bool_decide (lit "control" ∈ m') ->
            bool_decide (lit "alt" ∈ m) = bool_decide (lit "alt" ∈ m') ->
            bool_decide (lit "shift" ∈ m) = bool_decide (lit "shift" ∈ m') ->
            bool_decide (lit "super" ∈ m) = bool_decide (lit "super" ∈ m') ->
            forall name, name ∈ m -> name ∈ m').
  { intros m m' Hm E1 E2 E3 E4 name Hin. pose proof (Hm name Hin) as Hname.
    cbn [canonical_modifiers In] in Hname.
    destruct Hname as [<-|[<-|[<-|[<-|[]]]]].
    - apply (bool_decide_eq_true_1 _). rewrite <- E1. apply bool_decide_eq_true_2, Hin.
    - apply (bool_decide_eq_true_1 _). rewrite <- E2. apply bool_decide_eq_true_2, Hin.
    - apply (bool_decide_eq_true_1 _). rewrite <- E3. apply bool_decide_eq_true_2, Hin.
    - apply (bool_decide_eq_true_1 _). rewrite <- E4. apply bool_decide_eq_true_2, Hin. }
  apply set_eq. intros name. split.
  - apply Hsub; assumption.
  - apply Hsub; auto.
Qed.

Lemma modifier_mask_injective_witness :
  ({[ lit "control"; lit "alt" ]} : gset str) = {[ lit "alt"; lit "control" ]}.
Proof.
  apply (modifier_mask_injective (lit "Ctrl+Alt+M") (lit "alt+control+1")
           {[ lit "control"; lit "alt" ]} {[ lit "alt"; lit "control" ]}
           (lit "m") (lit "1")); vm_compute; reflexivity.
Defined.

Lemma table_of_other xs key entries : forall table,
  none_resolves xs key entries = true ->
  table_of xs entries table !! key = table !! key.
Proof.
  induction entries as [|[action hotkey] rest IH]; intros table; [reflexivity|].
  unfold none_resolves in *. cbn [forallb table_of snd]. intros H.
  apply andb_prop in H as [Hh Hr]. apply negb_true_iff, bool_decide_eq_false in Hh.
  destruct (resolve xs hotkey) as [[[kc|] base]|]; [|auto..].
  rewrite IH by assumption.
  destruct (any_recorded xs kc base); [|reflexivity].
  apply lookup_insert_ne. intros E. apply Hh. destruct key. cbn [fst snd].
  injection E as -> ->. reflexivity.
Qed.

Lemma register_bindings entries h d w :
  running (manager h) = true -> display (manager h) = Some d -> root (manager h) = Some w ->
  bindings (manager (snd (register entries h))) = table_of (xserver h) entries ∅.
Proof.
  intros Hr Hd Hw. rewrite (register_run entries h d w Hr Hd Hw). cbn [snd].
  destruct (note_entries_effect entries (note_reset h)) as [_ Hb]. rewrite Hb.
  unfold note_reset. cbn [manager xserver bindings].
  apply table_of_oracles; apply note_ungrabs_frame.
Qed.

(** The loop body masks the lock bits out of the event's state before it
    looks the key up. *)
Lemma loop_event_lookup table xs hotkey resolved keycode base_mask extra pressed action :
  table !! (keycode, base_mask) = Some action ->
  resolve xs hotkey = Some (resolved, base_mask) ->
  In extra lock_variants ->
  _loop_event table (key_event pressed keycode (Z.lor base_mask extra)) =
  Some (action, pressed).
Proof.
  intros Hlook Hres Hextra.
  assert (Hmask : Z.land (Z.lor base_mask extra)
            (Z.lor (Z.lor (Z.lor X.ShiftMask X.ControlMask) X.Mod1Mask) X.Mod4Mask) =
          base_mask).
  { unfold resolve in Hres. destruct (_hotkey_to_parts hotkey) as [[mods key_name]|];
      [|discriminate]. injection Hres as _ <-.
    rewrite modifier_mask_of. apply mask_of_lock_free. exact Hextra. }
  unfold _loop_event, key_event. cbn [e_type e_detail e_state]. cbv zeta.
  rewrite Hmask, Hlook. destruct pressed; reflexivity.
Qed.

(** X14. Why the chords are grabbed under the lock variants: after
    [register], a press or release of a bound key that arrives with the
    chord's modifiers and any combination of Caps Lock and Num Lock makes
    the capture loop call [on_trigger] with the binding's action, provided
    one of the grabs was granted and no later binding resolves to the same
    key and modifiers. *)
Theorem loop_event_under_locks entries h d w before action hotkey after
    keycode base_mask extra pressed :
  running (manager h) = true -> display (manager h) = Some d -> root (manager h) = Some w ->
  entries = before ++ (action, hotkey) :: after ->
  resolve (xserver h) hotkey = Some (Some keycode, base_mask) ->
  any_granted (xserver h) keycode base_mask = true ->
  none_resolves (xserver h) (keycode, base_mask) after = true ->
  In extra lock_variants ->
  _loop_event (bindings (manager (snd (register entries h))))
    (key_event pressed keycode (Z.lor base_mask extra)) = Some (action, pressed).
Proof.
  intros Hr Hd Hw -> Hres Hany Hafter Hextra.
  rewrite (register_bindings _ h d w Hr Hd Hw).
  apply (loop_event_lookup _ (xserver h) hotkey (Some keycode)); [|exact Hres|exact Hextra].
  change (before ++ (action, hotkey) :: after)
    with (before ++ [(action, hotkey)] ++ after).
  rewrite app_assoc, table_of_app, table_of_other by exact Hafter.
  exact (table_of_entered _ _ _ _ _ _ _ Hres (any_granted_recorded _ _ _ Hany)).
Qed.

Lemma loop_event_under_locks_witness :
  _loop_event (bindings (manager (snd (register demo_entries demo_hotkeys))))
    (key_event true 59 (Z.lor 9 X.Mod2Mask)) = Some (Clip 2, true).
Proof.
  apply (loop_event_under_locks demo_entries demo_hotkeys (Display_ 0) (RootWindow 0)
           [(Clip 0, lit "Alt+1"); (Clip 1, lit "Alt+2")] (Clip 2) (lit "Shift+Alt+3")
           [(Clip 3, lit "Hyper+4"); (Clip 4, lit "Alt+F13");
            (Named (lit "__stop__"), lit "Alt+\")]
           59 9 X.Mod2Mask true); try reflexivity.
  cbn. auto.
Defined.

End CaptureLoop.

(** ** The life cycle of the hotkey manager *)

Section LifeCycle.

Implicit Types (h : Hotkeys) (xs : XServer) (entries : list (Action * str)).

Lemma start_idle h :
  XLIB_AVAILABLE (xserver h) = false \/ running (manager h) = true ->
  start h = (Return false, h).
Proof.
  unfold start, bind, gets.
  intros [H|H]; rewrite H; [|rewrite orb_true_r]; reflexivity.
Qed.

(** [start] on a manager that is not running, with python-xlib there. *)
Lemma start_fresh h :
  XLIB_AVAILABLE (xserver h) = true -> running (manager h) = false ->
  let went := display_opens (xserver h) && screen_answers (xserver h) &&
              thread_starts (xserver h) in
  exists h',
    start h = (Return went, h') /\
    display (manager h') = (if went then Some (Display_ (connections (xserver h))) else None) /\
    root (manager h') = (if went then Some (RootWindow (connections (xserver h))) else None) /\
    running (manager h') = went /\
    bindings (manager h') = bindings (manager h) /\
    registered (manager h') = registered (manager h) /\
    grabs (xserver h') = grabs (xserver h) /\
    requests (xserver h') = requests (xserver h) /\
    XLIB_AVAILABLE (xserver h') = true.
Proof.
  intros Hav Hr. cbv zeta.
  cbv [start bind gets ret raise modify try_except Display_open screen_root set_display
       set_root set_running set_thread set_manager modify_xserver Thread_new Thread_start].
  cbn [xserver manager XLIB_AVAILABLE display_opens screen_answers thread_starts
       connections set_xserver display root running thread bindings registered].
  rewrite Hav, Hr. cbn [negb orb].
  destruct (display_opens (xserver h));
    cbn [negb andb xserver manager XLIB_AVAILABLE display_opens screen_answers
         thread_starts connections set_xserver display root running thread bindings
         registered];
    [|eexists; split; [reflexivity|]; cbn; auto 10].
  destruct (screen_answers (xserver h));
    cbn [negb andb xserver manager XLIB_AVAILABLE display_opens screen_answers
         thread_starts connections set_xserver display root running thread bindings
         registered];
    [|eexists; split; [reflexivity|]; cbn; auto 10].
  destruct (thread_starts (xserver h));
    cbn [negb andb]; (eexists; split; [reflexivity|]); cbn; auto 10.
Qed.

(** X15. On a coherent manager [start] returns [True] exactly when
    python-xlib is there, the manager is not running, and opening the
    display, asking for the root window and starting the thread all go
    well; a failure on the way leaves the manager stopped without display
    and root. Either way the manager stays coherent, and neither the action
    table, nor the list of grabs, nor the server's grabs change. A second
    [start] on a running manager returns [False] and changes nothing. *)
Theorem start_outcome h :
  coherent (manager h) = true ->
  exists h',
    start h = (Return (startable h), h') /\
    coherent (manager h') = true /\
    running (manager h') = running (manager h) || startable h /\
    bindings (manager h') = bindings (manager h) /\
    registered (manager h') = registered (manager h) /\
    grabs (xserver h') = grabs (xserver h) /\
    requests (xserver h') = requests (xserver h) /\
    (startable h = true ->
       display (manager h') = Some (Display_ (connections (xserver h))) /\
       root (manager h') = Some (RootWindow (connections (xserver h))) /\
       start h' = (Return false, h')).
Proof.
  intros Hc. unfold startable.
  destruct (XLIB_AVAILABLE (xserver h)) eqn:Hav; cbn [andb];
    [destruct (running (manager h)) eqn:Hr; cbn [andb negb]|].
  - exists h. split; [apply start_idle; auto|]. split; [exact Hc|].
    split; [rewrite Hr; reflexivity|]. do 4 (split; [reflexivity|]).
    intros H. discriminate H.
  - destruct (start_fresh h Hav Hr) as (h' & E & Hd & Hw & Hr' & Hb & Hreg & Hg & Hq & Hav').
    exists h'. split; [exact E|]. cbn [orb].
    split; [unfold coherent; rewrite Hd, Hw, Hr'; destruct (_ && _); reflexivity|].
    split; [exact Hr'|]. do 4 (split; [assumption|]).
    intros Hb'. rewrite Hb' in *. do 2 (split; [assumption|]).
    apply start_idle. auto.
  - exists h. split; [apply start_idle; auto|]. split; [exact Hc|].
    split; [rewrite orb_false_r; reflexivity|]. do 4 (split; [reflexivity|]).
    intros H. discriminate H.
Qed.

Lemma start_outcome_witness :
  exists h',
    start fresh_hotkeys = (Return (startable fresh_hotkeys), h') /\
    coherent (manager h') = true /\
    running (manager h') = running (manager fresh_hotkeys) || startable fresh_hotkeys /\
    bindings (manager h') = bindings (manager fresh_hotkeys) /\
    registered (manager h') = registered (manager fresh_hotkeys) /\
    grabs (xserver h') = grabs (xserver fresh_hotkeys) /\
    requests (xserver h') = requests (xserver fresh_hotkeys) /\
    (startable fresh_hotkeys = true ->
       display (manager h') = Some (Display_ (connections (xserver fresh_hotkeys))) /\
       root (manager h') = Some (RootWindow (connections (xserver fresh_hotkeys))) /\
       start h' = (Return false, h')).
Proof.
  apply (start_outcome fresh_hotkeys). reflexivity.
Defined.

Lemma note_ungrabs_split pairs : forall h,
  note_ungrabs pairs h = {| manager := manager h; xserver := ungrabbed pairs (xserver h) |}.
Proof.
  induction pairs as [|[keycode mask] rest IH]; intros h; [destruct h; reflexivity|].
  cbn [note_ungrabs ungrabbed]. rewrite IH. reflexivity.
Qed.

Lemma ungrabbed_oracles pairs : forall xs,
  ungrab_fails (ungrabbed pairs xs) = ungrab_fails xs /\
  close_fails (ungrabbed pairs xs) = close_fails xs /\
  connections (ungrabbed pairs xs) = connections xs /\
  requests (ungrabbed pairs xs) =
    requests xs ++ map (fun p => UngrabKey (fst p) (snd p)) pairs.
Proof.
  induction pairs as [|[keycode mask] rest IH]; intros xs.
  - cbn. rewrite app_nil_r. auto.
  - cbn [ungrabbed map fst snd]. destruct (IH (set_xserver (connections xs)
      (if ungrab_fails xs keycode mask then grabs xs
       else List.filter (fun g => negb (pair_eqb g (keycode, mask))) (grabs xs))
      (requests xs ++ [UngrabKey keycode mask]) xs)) as (H1 & H2 & H3 & H4).
    rewrite H1, H2, H3, H4. cbn [set_xserver ungrab_fails close_fails connections requests].
    rewrite <- app_assoc. auto.
Qed.

Lemma stop_run h d w :
  running (manager h) = true -> display (manager h) = Some d -> root (manager h) = Some w ->
  stop h = (Return tt, note_stop h).
Proof.
  intros Hr Hd Hw. unfold stop. unfold bind at 1. unfold gets at 1. rewrite Hr. cbn [negb].
  unfold bind at 1. unfold set_running at 1. unfold set_manager, modify.
  unfold bind at 1. unfold gets at 1. cbn [manager thread].
  unfold bind at 1.
  assert (Hjoin : forall h0 : Hotkeys,
            match thread (manager h) with Some t => Thread_join t | None => ret tt end h0 =
            (Return tt, h0)).
  { intros h0. destruct (thread (manager h)); reflexivity. }
  rewrite Hjoin. unfold bind at 1.
  unfold _unregister_all. unfold bind at 1 2. unfold gets at 1 2.
  cbn [manager display root]. rewrite Hd, Hw.
  unfold bind at 1. unfold gets at 1. unfold bind at 1.
  cbn [manager registered]. rewrite unregister_all_loop_run. unfold bind at 1.
  unfold set_registered at 1. unfold set_manager, modify.
  rewrite flush_guarded_run. rewrite note_ungrabs_split.
  cbn [manager xserver display root running thread bindings registered].
  unfold bind at 1. unfold try_except, bind, gets.
  cbn [manager display].
  unfold Display_close, bind, gets, raise, modify_xserver, modify, ret.
  cbn [xserver manager]. unfold note_stop.
  destruct (close_fails (ungrabbed (registered (manager h)) (xserver h))); reflexivity.
Qed.

Lemma ungrabbed_grabs_subset pairs : forall xs g,
  In g (grabs (ungrabbed pairs xs)) -> In g (grabs xs).
Proof.
  induction pairs as [|[keycode mask] rest IH]; intros xs g; [auto|].
  cbn [ungrabbed]. intros H. apply IH in H. cbn [set_xserver grabs] in H.
  destruct (ungrab_fails xs keycode mask); [assumption|].
  apply filter_In in H as [H _]. assumption.
Qed.

Lemma ungrabbed_grabs_released pairs : forall xs g,
  releases xs -> In g (grabs (ungrabbed pairs xs)) -> ~ In g pairs.
Proof.
  induction pairs as [|[keycode mask] rest IH]; intros xs g Hrel; [auto|].
  cbn [ungrabbed]. intros H [Heq | Hin].
  - apply ungrabbed_grabs_subset in H. cbn [set_xserver grabs] in H.
    rewrite Hrel in H. apply filter_In in H as [_ H]. subst g.
    unfold pair_eqb in H. rewrite bool_decide_eq_true_2 in H by reflexivity. discriminate.
  - revert Hin. eapply IH; [|exact H]. intros k m. cbn [set_xserver ungrab_fails].
    apply Hrel.
Qed.

Lemma ungrabbed_all pairs xs :
  releases xs -> incl (grabs xs) pairs -> grabs (ungrabbed pairs xs) = [].
Proof.
  intros Hrel Hg.
  destruct (grabs (ungrabbed pairs xs)) as [|g gs] eqn:E; [reflexivity|].
  assert (Hin : In g (grabs (ungrabbed pairs xs))) by (rewrite E; left; reflexivity).
  exfalso. apply (ungrabbed_grabs_released pairs xs g Hrel Hin).
  apply Hg. apply (ungrabbed_grabs_subset pairs). exact Hin.
Qed.

Lemma won_grabs_oracles xs xs' entry :
  string_to_keysym xs' = string_to_keysym xs ->
  keysym_to_keycode xs' = keysym_to_keycode xs ->
  grab_answer xs' = grab_answer xs ->
  won_grabs xs' entry = won_grabs xs entry.
Proof.
  intros H1 H2 H3. unfold won_grabs. rewrite (resolve_oracles xs xs') by assumption.
  destruct (resolve xs (snd entry)) as [[[kc|] base]|]; try reflexivity.
  f_equal. apply filter_ext. intros mask. unfold granted. rewrite H3. reflexivity.
Qed.

Lemma noted_grabs_oracles xs xs' entry :
  string_to_keysym xs' = string_to_keysym xs ->
  keysym_to_keycode xs' = keysym_to_keycode xs ->
  grab_answer xs' = grab_answer xs ->
  noted_grabs xs' entry = noted_grabs xs entry.
Proof.
  intros H1 H2 H3. unfold noted_grabs. rewrite (resolve_oracles xs xs') by assumption.
  destruct (resolve xs (snd entry)) as [[[kc|] base]|]; try reflexivity.
  f_equal. apply filter_ext. intros mask. unfold recorded. rewrite H3. reflexivity.
Qed.

(** Of the grabs recorded for a binding, the server holds those it
    granted. *)
Lemma won_grabs_of_noted xs entry :
  won_grabs xs entry = List.filter (is_granted xs) (noted_grabs xs entry).
Proof.
  unfold won_grabs, noted_grabs.
  destruct (resolve xs (snd entry)) as [[[kc|] base]|]; try reflexivity.
  induction (variant_masks base) as [|mask masks IH]; [reflexivity|].
  cbn [List.filter]. unfold is_granted in *.
  destruct (granted xs kc mask) eqn:Hg.
  - rewrite (granted_recorded _ _ _ Hg). cbn [map List.filter fst snd].
    rewrite Hg, IH. reflexivity.
  - destruct (recorded xs kc mask); cbn [map List.filter fst snd];
      rewrite ?Hg; exact IH.
Qed.

Lemma won_grabs_concat xs entries :
  concat (map (won_grabs xs) entries) =
  List.filter (is_granted xs) (concat (map (noted_grabs xs) entries)).
Proof.
  induction entries as [|e rest IH]; [reflexivity|].
  cbn [map concat]. rewrite List.filter_app, IH, won_grabs_of_noted. reflexivity.
Qed.

(** What the loop of [register] leaves in the list of grabs and at the
    server: the recorded grabs of the bindings and the granted ones, in
    order. *)
Lemma note_entries_won entries : forall h,
  registered (manager (note_entries entries h)) =
    registered (manager h) ++ concat (map (noted_grabs (xserver h)) entries) /\
  grabs (xserver (note_entries entries h)) =
    grabs (xserver h) ++ concat (map (won_grabs (xserver h)) entries) /\
  ungrab_fails (xserver (note_entries entries h)) = ungrab_fails (xserver h) /\
  close_fails (xserver (note_entries entries h)) = close_fails (xserver h) /\
  display (manager (note_entries entries h)) = display (manager h) /\
  root (manager (note_entries entries h)) = root (manager h) /\
  running (manager (note_entries entries h)) = running (manager h) /\
  thread (manager (note_entries entries h)) = thread (manager h).
Proof.
  induction entries as [|[action hotkey] rest IH]; intros h.
  - cbn. rewrite !app_nil_r. auto 10.
  - cbn [note_entries map concat].
    assert (Hw : won_grabs (xserver h) (action, hotkey) =
                 match resolve (xserver h) hotkey with
                 | Some (Some kc, base) =>
                     map (pair kc) (List.filter (granted (xserver h) kc) (variant_masks base))
                 | _ => []
                 end) by reflexivity.
    assert (Hn : noted_grabs (xserver h) (action, hotkey) =
                 match resolve (xserver h) hotkey with
                 | Some (Some kc, base) =>
                     map (pair kc) (List.filter (recorded (xserver h) kc) (variant_masks base))
                 | _ => []
                 end) by reflexivity.
    rewrite Hw, Hn. clear Hw Hn.
    destruct (resolve (xserver h) hotkey) as [[[kc|] base]|]; [|apply IH..].
    set (h1 := note_grabs kc (variant_masks base) h).
    assert (Hsame : forall e, won_grabs (xserver h1) e = won_grabs (xserver h) e).
    { intros e. apply won_grabs_oracles; reflexivity. }
    assert (Hsame' : forall e, noted_grabs (xserver h1) e = noted_grabs (xserver h) e).
    { intros e. apply noted_grabs_oracles; reflexivity. }
    destruct (any_recorded (xserver h) kc base).
    + destruct (IH (note_binding (kc, base) action h1)) as (H1 & H2 & H3 & H4 & H5 & H6 & H7 & H8).
      rewrite H1, H2, H3, H4, H5, H6, H7, H8.
      cbn [note_binding xserver manager registered display root running thread].
      rewrite (map_ext _ _ Hsame), (map_ext _ _ Hsame'). subst h1.
      cbn [note_grabs xserver manager registered set_xserver grabs ungrab_fails close_fails
           display root running thread].
      rewrite <- !app_assoc. auto 10.
    + destruct (IH h1) as (H1 & H2 & H3 & H4 & H5 & H6 & H7 & H8).
      rewrite H1, H2, H3, H4, H5, H6, H7, H8.
      rewrite (map_ext _ _ Hsame), (map_ext _ _ Hsame'). subst h1.
      cbn [note_grabs xserver manager registered set_xserver grabs ungrab_fails close_fails
           display root running thread].
      rewrite <- !app_assoc. auto 10.
Qed.

Lemma note_reset_split h :
  note_reset h =
  {| manager :=
       {| display := display (manager h); root := root (manager h);
          running := running (manager h); thread := thread (manager h);
          bindings := ∅; registered := [] |};
     xserver := ungrabbed (registered (manager h)) (xserver h) |}.
Proof. unfold note_reset. rewrite note_ungrabs_split. reflexivity. Qed.

Lemma ungrabbed_tables pairs : forall xs,
  string_to_keysym (ungrabbed pairs xs) = string_to_keysym xs /\
  keysym_to_keycode (ungrabbed pairs xs) = keysym_to_keycode xs /\
  grab_answer (ungrabbed pairs xs) = grab_answer xs.
Proof.
  induction pairs as [|[keycode mask] rest IH]; intros xs; [auto|].
  cbn [ungrabbed]. destruct (IH (set_xserver (connections xs)
      (if ungrab_fails xs keycode mask then grabs xs
       else List.filter (fun g => negb (pair_eqb g (keycode, mask))) (grabs xs))
      (requests xs ++ [UngrabKey keycode mask]) xs)) as (H1 & H2 & H3).
  rewrite H1, H2, H3. auto.
Qed.

(** The state that [register] leaves on a running manager. *)
Lemma register_state entries h d w :
  running (manager h) = true -> display (manager h) = Some d -> root (manager h) = Some w ->
  let h' := snd (register entries h) in
  registered (manager h') = concat (map (noted_grabs (xserver h)) entries) /\
  grabs (xserver h') =
    grabs (ungrabbed (registered (manager h)) (xserver h)) ++
    concat (map (won_grabs (xserver h)) entries) /\
  ungrab_fails (xserver h') = ungrab_fails (xserver h) /\
  close_fails (xserver h') = close_fails (xserver h) /\
  string_to_keysym (xserver h') = string_to_keysym (xserver h) /\
  keysym_to_keycode (xserver h') = keysym_to_keycode (xserver h) /\
  grab_answer (xserver h') = grab_answer (xserver h) /\
  display (manager h') = Some d /\ root (manager h') = Some w /\
  running (manager h') = true /\ thread (manager h') = thread (manager h).
Proof.
  intros Hr Hd Hw. cbv zeta. rewrite (register_run entries h d w Hr Hd Hw). cbn [snd].
  destruct (note_entries_won entries (note_reset h)) as (H1 & H2 & H3 & H4 & H5 & H6 & H7 & H8).
  destruct (register_loop_run entries [] (note_reset h)) as (_ & T1 & T2 & T3).
  rewrite H1, H2, H3, H4, H5, H6, H7, H8, T1, T2, T3.
  rewrite note_reset_split. cbn [manager xserver registered display root running thread app].
  destruct (ungrabbed_oracles (registered (manager h)) (xserver h)) as (O1 & O2 & _).
  destruct (ungrabbed_tables (registered (manager h)) (xserver h)) as (O3 & O4 & O5).
  rewrite O1, O2, O3, O4, O5.
  rewrite (map_ext (won_grabs (ungrabbed (registered (manager h)) (xserver h)))
             (won_grabs (xserver h)))
    by (intros e; apply won_grabs_oracles; assumption).
  rewrite (map_ext (noted_grabs (ungrabbed (registered (manager h)) (xserver h)))
             (noted_grabs (xserver h)))
    by (intros e; apply noted_grabs_oracles; assumption).
  auto 12.
Qed.

(** X16. [stop] on a running manager asks the server to release every
    recorded grab, in the order of the record, empties the record and
    drops display and root; thread and action table stay as they were.
    When closing the display goes well no grab is left at the server, and
    when the server releases what it is asked to, none of the recorded
    grabs is left even if closing fails. A second [stop] changes
    nothing. *)
Theorem stop_releases h d w :
  running (manager h) = true -> display (manager h) = Some d -> root (manager h) = Some w ->
  exists h',
    stop h = (Return tt, h') /\
    running (manager h') = false /\
    display (manager h') = None /\ root (manager h') = None /\
    registered (manager h') = [] /\
    thread (manager h') = thread (manager h) /\
    bindings (manager h') = bindings (manager h) /\
    requests (xserver h') =
      requests (xserver h) ++
      map (fun p => UngrabKey (fst p) (snd p)) (registered (manager h)) /\
    (close_fails (xserver h) = false -> grabs (xserver h') = []) /\
    (releases (xserver h) ->
       forall g, In g (registered (manager h)) -> ~ In g (grabs (xserver h'))) /\
    stop h' = (Return tt, h').
Proof.
  intros Hr Hd Hw. exists (note_stop h). split; [exact (stop_run h d w Hr Hd Hw)|].
  destruct (ungrabbed_oracles (registered (manager h)) (xserver h)) as (O1 & O2 & O3 & O4).
  unfold note_stop. cbn [manager xserver running display root registered thread bindings].
  rewrite O2. repeat (split; [reflexivity|]). split; [|split; [|split]].
  - destruct (close_fails (xserver h)); [exact O4|exact O4].
  - intros ->. reflexivity.
  - intros Hrel g Hin Hg. destruct (close_fails (xserver h)).
    + exact (ungrabbed_grabs_released _ _ _ Hrel Hg Hin).
    + destruct Hg.
  - reflexivity.
Qed.

Lemma stop_releases_witness :
  exists h',
    stop (snd (register demo_entries demo_hotkeys)) = (Return tt, h') /\
    running (manager h') = false /\
    display (manager h') = None /\ root (manager h') = None /\
    registered (manager h') = [] /\
    thread (manager h') = thread (manager (snd (register demo_entries demo_hotkeys))) /\
    bindings (manager h') = bindings (manager (snd (register demo_entries demo_hotkeys))) /\
    requests (xserver h') =
      requests (xserver (snd (register demo_entries demo_hotkeys))) ++
      map (fun p => UngrabKey (fst p) (snd p))
        (registered (manager (snd (register demo_entries demo_hotkeys)))) /\
    (close_fails (xserver (snd (register demo_entries demo_hotkeys))) = false ->
       grabs (xserver h') = []) /\
    (releases (xserver (snd (register demo_entries demo_hotkeys))) ->
       forall g, In g (registered (manager (snd (register demo_entries demo_hotkeys)))) ->
                 ~ In g (grabs (xserver h'))) /\
    stop h' = (Return tt, h').
Proof.
  apply (stop_releases (snd (register demo_entries demo_hotkeys))
           (Display_ 0) (RootWindow 0)); reflexivity.
Defined.

Lemma register_requests entries h d w :
  running (manager h) = true -> display (manager h) = Some d -> root (manager h) = Some w ->
  requests (xserver (snd (register entries h))) =
    requests (xserver h)
    ++ map (fun p => UngrabKey (fst p) (snd p)) (registered (manager h))
    ++ concat (map (grab_requests (xserver h)) entries).
Proof.
  intros Hr Hd Hw. rewrite (register_run entries h d w Hr Hd Hw). cbn [snd].
  destruct (note_entries_effect entries (note_reset h)) as [Hq _]. rewrite Hq.
  rewrite note_reset_split. cbn [xserver].
  destruct (ungrabbed_oracles (registered (manager h)) (xserver h)) as (_ & _ & _ & O4).
  destruct (ungrabbed_tables (registered (manager h)) (xserver h)) as (O3 & O5 & _).
  rewrite O4, <- app_assoc. do 2 f_equal.
  rewrite (map_ext _ (grab_requests (xserver h))); [reflexivity|].
  intros e. apply grab_requests_oracles; assumption.
Qed.

(** X17. The list of grabs that [register] leaves is, for the given
    bindings in order, the list of the variants whose grab calls returned,
    be the grab granted or denied by the server, whatever was recorded
    before. Registering the same bindings again therefore returns the same
    conflicts and leaves the same action table and the same list: the
    second call asks the server to release each recorded grab of the first
    and asks for the four variants of each binding again. *)
Theorem register_idempotent entries h d w :
  running (manager h) = true -> display (manager h) = Some d -> root (manager h) = Some w ->
  let h1 := snd (register entries h) in
  let h2 := snd (register entries h1) in
  registered (manager h1) = concat (map (noted_grabs (xserver h)) entries) /\
  fst (register entries h1) = fst (register entries h) /\
  bindings (manager h2) = bindings (manager h1) /\
  registered (manager h2) = registered (manager h1) /\
  requests (xserver h2) =
    requests (xserver h1)
    ++ map (fun p => UngrabKey (fst p) (snd p)) (registered (manager h1))
    ++ concat (map (grab_requests (xserver h)) entries).
Proof.
  intros Hr Hd Hw. cbv zeta.
  destruct (register_state entries h d w Hr Hd Hw)
    as (S1 & _ & _ & _ & S5 & S6 & S7 & S8 & S9 & S10 & _).
  destruct (register_state entries _ d w S10 S8 S9) as (S1' & _).
  split; [exact S1|]. split; [|split; [|split]].
  - rewrite (register_run entries _ d w S10 S8 S9), (register_run entries h d w Hr Hd Hw).
    cbn [fst]. rewrite <- (register_run entries h d w Hr Hd Hw). f_equal.
    apply conflicts_of_oracles; assumption.
  - rewrite (register_bindings entries _ d w S10 S8 S9).
    rewrite (register_bindings entries h d w Hr Hd Hw).
    apply table_of_oracles; assumption.
  - rewrite S1', S1.
    rewrite (map_ext _ (noted_grabs (xserver h))); [reflexivity|].
    intros e. apply noted_grabs_oracles; assumption.
  - rewrite (register_requests entries _ d w S10 S8 S9).
    rewrite (map_ext _ (grab_requests (xserver h))); [reflexivity|].
    intros e. apply grab_requests_oracles; assumption.
Qed.

Lemma register_idempotent_witness :
  let h1 := snd (register demo_entries demo_hotkeys) in
  let h2 := snd (register demo_entries h1) in
  registered (manager h1) = concat (map (noted_grabs (xserver demo_hotkeys)) demo_entries) /\
  fst (register demo_entries h1) = fst (register demo_entries demo_hotkeys) /\
  bindings (manager h2) = bindings (manager h1) /\
  registered (manager h2) = registered (manager h1) /\
  requests (xserver h2) =
    requests (xserver h1)
    ++ map (fun p => UngrabKey (fst p) (snd p)) (registered (manager h1))
    ++ concat (map (grab_requests (xserver demo_hotkeys)) demo_entries).
Proof.
  apply (register_idempotent demo_entries demo_hotkeys (Display_ 0) (RootWindow 0));
    reflexivity.
Defined.

(** X18. The server holds the granted part of the manager's record. When
    the server releases what it is asked to and holds no grab that the
    manager has not recorded, [register] leaves it holding exactly those
    newly recorded grabs that it granted (a denied grab is recorded and
    not held), so that nothing of an earlier registration stays grabbed,
    and a [stop] after it leaves no grab at the server, whether or not
    closing the display works. *)
Theorem register_then_stop_releases entries h d w :
  running (manager h) = true -> display (manager h) = Some d -> root (manager h) = Some w ->
  releases (xserver h) ->
  incl (grabs (xserver h)) (registered (manager h)) ->
  let h1 := snd (register entries h) in
  grabs (xserver h1) = List.filter (is_granted (xserver h)) (registered (manager h1)) /\
  incl (grabs (xserver h1)) (registered (manager h1)) /\
  releases (xserver h1) /\
  grabs (xserver (snd (stop h1))) = [].
Proof.
  intros Hr Hd Hw Hrel Hg. cbv zeta.
  destruct (register_state entries h d w Hr Hd Hw)
    as (S1 & S2 & S3 & _ & _ & _ & _ & S8 & S9 & S10 & _).
  assert (Hheld : grabs (xserver (snd (register entries h))) =
                  List.filter (is_granted (xserver h))
                    (registered (manager (snd (register entries h))))).
  { rewrite S1, S2, (ungrabbed_all _ _ Hrel Hg). cbn [app]. apply won_grabs_concat. }
  assert (Hincl : incl (grabs (xserver (snd (register entries h))))
                       (registered (manager (snd (register entries h))))).
  { rewrite Hheld. intros g Hin. apply filter_In in Hin as [Hin _]. exact Hin. }
  assert (Hrel1 : releases (xserver (snd (register entries h)))).
  { intros k m. rewrite S3. apply Hrel. }
  split; [exact Hheld|]. split; [exact Hincl|]. split; [exact Hrel1|].
  rewrite (stop_run _ d w S10 S8 S9). cbn [snd]. unfold note_stop. cbn [xserver].
  destruct (close_fails _); [|reflexivity].
  apply ungrabbed_all; assumption.
Qed.

Lemma register_then_stop_releases_witness :
  let h1 := snd (register demo_entries demo_hotkeys) in
  grabs (xserver h1) = List.filter (is_granted (xserver demo_hotkeys)) (registered (manager h1)) /\
  incl (grabs (xserver h1)) (registered (manager h1)) /\
  releases (xserver h1) /\
  grabs (xserver (snd (stop h1))) = [].
Proof.
  apply (register_then_stop_releases demo_entries demo_hotkeys (Display_ 0) (RootWindow 0));
    try reflexivity.
  - intros keycode mask. reflexivity.
  - intros g [].
Defined.

Lemma register_idle entries h :
  running (manager h) = false \/ display (manager h) = None \/ root (manager h) = None ->
  register entries h = (Return [], h).
Proof.
  unfold register, bind, gets.
  destruct (running (manager h)), (display (manager h)), (root (manager h));
    intros [H|[H|H]]; try discriminate H; reflexivity.
Qed.

Lemma coherent_running m :
  coherent m = true -> running m = true -> exists d w, display m = Some d /\ root m = Some w.
Proof.
  unfold coherent. destruct (running m), (display m), (root m); try discriminate; eauto.
Qed.

Lemma run_call_coherent c h :
  coherent (manager h) = true -> coherent (manager (run_call c h)) = true.
Proof.
  intros Hc. destruct c as [| |entries]; cbn [run_call].
  - destruct (XLIB_AVAILABLE (xserver h)) eqn:Hav;
      [destruct (running (manager h)) eqn:Hr|].
    + rewrite start_idle by auto. exact Hc.
    + destruct (start_fresh h Hav Hr) as (h' & E & Hd & Hw & Hr' & _).
      rewrite E. cbn [snd]. unfold coherent. rewrite Hd, Hw, Hr'.
      destruct (_ && _); reflexivity.
    + rewrite start_idle by auto. exact Hc.
  - destruct (running (manager h)) eqn:Hr.
    + destruct (coherent_running _ Hc Hr) as (d & w & Hd & Hw).
      rewrite (stop_run h d w Hr Hd Hw). reflexivity.
    + unfold stop, bind, gets. rewrite Hr. exact Hc.
  - destruct (running (manager h)) eqn:Hr.
    + destruct (coherent_running _ Hc Hr) as (d & w & Hd & Hw).
      destruct (register_state entries h d w Hr Hd Hw)
        as (_ & _ & _ & _ & _ & _ & _ & S8 & S9 & S10 & _).
      unfold coherent. rewrite S8, S9, S10. reflexivity.
    + rewrite register_idle by auto. exact Hc.
Qed.

(** X19. Through any sequence of [start], [stop] and [register] calls the
    manager stays coherent: it is running exactly when it holds a display,
    and it holds a display exactly when it holds a root window. The guard
    of [register] and of [_unregister_all] on display and root therefore
    never decides anything that [running] does not. *)
Theorem manager_stays_coherent calls h :
  coherent (manager h) = true ->
  coherent (manager (run_calls calls h)) = true.
Proof.
  unfold run_calls. revert h. induction calls as [|c calls IH]; intros h Hc; [exact Hc|].
  cbn [fold_left]. apply IH, run_call_coherent, Hc.
Qed.

Lemma manager_stays_coherent_witness :
  coherent (manager (run_calls [CallRegister demo_entries; CallStart; CallStart;
                                CallRegister demo_entries; CallStop; CallStop; CallStart]
                       fresh_hotkeys)) = true.
Proof.
  apply (manager_stays_coherent _ fresh_hotkeys). reflexivity.
Defined.

End LifeCycle.

(** ** Push-to-talk under arbitrary key edges *)

Section PushToTalkEdges.

Implicit Types (s : SoundpadApp).

Local Opaque connect_input_source_to_soundpad disconnect_input_source_from_soundpad strip
  _save_settings.












End PushToTalkEdges.

(** ** From the key to the router *)

Section KeyToRouter.

Implicit Types (s : SoundpadApp) (cs : list ClipEntry).

Lemma clip_entries_from cs : forall idx i hk,
  In (Clip i, hk) (clip_entries idx cs) <->
  exists clip, (idx <= i)%nat /\ cs !! (i - idx)%nat = Some clip /\
               strip (hotkey clip) = hk /\ truthy hk = true.
Proof.
  induction cs as [|c cs IH]; intros idx i hk.
  - cbn [clip_entries In]. split; [intros []|]. intros (clip & _ & H & _). discriminate H.
  - cbn [clip_entries]. cbv zeta.
    assert (Hrest : In (Clip i, hk) (clip_entries (S idx) cs) <->
              exists clip, (idx < i)%nat /\ (c :: cs) !! (i - idx)%nat = Some clip /\
                           strip (hotkey clip) = hk /\ truthy hk = true).
    { rewrite IH. split; intros (clip & Hle & Hl & Hrest); exists clip.
      - split; [lia|]. replace (i - idx)%nat with (S (i - S idx)) by lia. auto.
      - split; [lia|]. replace (i - idx)%nat with (S (i - S idx)) in Hl by lia. auto. }
    destruct (truthy (strip (hotkey c))) eqn:Ht.
    + cbn [In]. rewrite Hrest. split.
      * intros [[= <- <-] | (clip & Hlt & H)].
        -- exists c. rewrite Nat.sub_diag. auto.
        -- exists clip. split; [lia|exact H].
      * intros (clip & Hle & Hl & Hs & Hk).
        destruct (Nat.eq_dec i idx) as [->|Hne].
        -- left. rewrite Nat.sub_diag in Hl. injection Hl as <-. rewrite Hs. reflexivity.
        -- right. exists clip. split; [lia|auto].
    + rewrite Hrest. split.
      * intros (clip & Hlt & H). exists clip. split; [lia|exact H].
      * intros (clip & Hle & Hl & Hs & Hk).
        destruct (Nat.eq_dec i idx) as [->|Hne].
        -- rewrite Nat.sub_diag in Hl. injection Hl as <-. congruence.
        -- exists clip. split; [lia|auto].
Qed.

(** X21. The entries that [_register_global_hotkeys] collects from the
    clips point at the right clips: [Clip i] is registered under a chord
    exactly when clip [i] exists and holds that chord, stripped and not
    blank. A clip action therefore never outlives a reordering of the list
    that is followed by [_bind_hotkeys]. *)
Theorem clip_entries_sound cs i hk :
  In (Clip i, hk) (clip_entries 0 cs) <->
  exists clip, cs !! i = Some clip /\ strip (hotkey clip) = hk /\ truthy hk = true.
Proof.
  rewrite clip_entries_from. rewrite Nat.sub_0_r. split.
  - intros (clip & _ & H). eauto.
  - intros (clip & H). exists clip. split; [lia|exact H].
Qed.

Lemma register_global_hotkeys_frame s :
  global_hotkeys_active s = true ->
  let key := strip (ptt_hotkey s) in
  let entries :=
    (clip_entries 0 (clips s) ++ [(Named (lit "__stop__"), lit "Alt+\")]) ++
    (if push_to_talk_enabled s && truthy key then [(PTT, key)] else []) in
  let s' := snd (_register_global_hotkeys s) in
  global_hotkeys s' = snd (register entries (global_hotkeys s)) /\
  push_to_talk_enabled s' = push_to_talk_enabled s /\
  ptt_pressed s' = ptt_pressed s /\
  selected_input_source s' = selected_input_source s /\
  router_calls s' = router_calls s /\
  audio s' = audio s.
Proof.
  intros Ha. cbv zeta.
  unfold _register_global_hotkeys, call_register, bind, gets, modify, ret.
  rewrite Ha. cbn [negb].
  destruct (push_to_talk_enabled s && truthy (strip (ptt_hotkey s))).
  - destruct (register _ (global_hotkeys s)) as [[[|c cf]|e] h']; cbn; auto 10.
  - rewrite app_nil_r.
    destruct (register _ (global_hotkeys s)) as [[[|c cf]|e] h']; cbn; auto 10.
Qed.

Local Opaque connect_input_source_to_soundpad disconnect_input_source_from_soundpad strip
  register.

(** X22. From the key to the router. After [_register_global_hotkeys] on
    an application whose global hotkeys are active, with push-to-talk
    enabled and idle, a source selected and a push-to-talk chord that
    resolves to a key and is granted, a press and a release of that key,
    each under any lock state, make the capture loop report the two
    push-to-talk edges, and these make the application call connect on the
    selected source and then disconnect. *)
Theorem ptt_key_reaches_router s d w keycode base_mask extra extra' :
  global_hotkeys_active s = true ->
  push_to_talk_enabled s = true ->
  ptt_pressed s = false ->
  truthy (strip (selected_input_source s)) = true ->
  running (manager (global_hotkeys s)) = true ->
  display (manager (global_hotkeys s)) = Some d ->
  root (manager (global_hotkeys s)) = Some w ->
  resolve (xserver (global_hotkeys s)) (strip (ptt_hotkey s)) =
    Some (Some keycode, base_mask) ->
  any_granted (xserver (global_hotkeys s)) keycode base_mask = true ->
  In extra lock_variants -> In extra' lock_variants ->
  let s1 := snd (_register_global_hotkeys s) in
  let edges :=
    _loop_pending (bindings (manager (global_hotkeys s1)))
      [key_event true keycode (Z.lor base_mask extra);
       key_event false keycode (Z.lor base_mask extra')] in
  edges = ptt_down_up /\
  router_calls (deliver edges s1) =
    router_calls s ++ [CallConnect (strip (selected_input_source s)); CallDisconnect].
Proof.
  intros Ha He Hp Hs Hr Hd Hw Hres Hany Hx Hx'. cbv zeta.
  assert (Hkey : truthy (strip (ptt_hotkey s)) = true).
  { unfold resolve, _hotkey_to_parts in Hres. cbv zeta in Hres.
    rewrite strip_strip in Hres.
    destruct (truthy (strip (ptt_hotkey s))); [reflexivity|discriminate]. }
  destruct (register_global_hotkeys_frame s Ha) as (Hg & He1 & Hp1 & Hs1 & Hc1 & _).
  rewrite He, Hkey in Hg. cbn [andb] in Hg.
  assert (Hlook : bindings (manager (global_hotkeys (snd (_register_global_hotkeys s))))
                    !! (keycode, base_mask) = Some PTT).
  { rewrite Hg, (register_bindings _ _ d w Hr Hd Hw).
    exact (table_of_entered _ _ _ _ _ _ _ Hres (any_granted_recorded _ _ _ Hany)). }
  assert (Hedges :
    _loop_pending (bindings (manager (global_hotkeys (snd (_register_global_hotkeys s)))))
      [key_event true keycode (Z.lor base_mask extra);
       key_event false keycode (Z.lor base_mask extra')] = ptt_down_up).
  { unfold _loop_pending. cbn [flat_map].
    rewrite (loop_event_lookup _ _ _ _ _ _ _ true _ Hlook Hres Hx).
    rewrite (loop_event_lookup _ _ _ _ _ _ _ false _ Hlook Hres Hx'). reflexivity. }
  split; [exact Hedges|]. rewrite Hedges.
  set (s1 := snd (_register_global_hotkeys s)) in *.
  assert (He' : push_to_talk_enabled s1 = true) by congruence.
  assert (Hp' : ptt_pressed s1 = false) by congruence.
  assert (Hs' : truthy (strip (selected_input_source s1)) = true) by (rewrite Hs1; exact Hs).
  destruct (ptt_press_effect s1 He' Hp' Hs') as [Hp2 Hc2].
  destruct (ptt_release_effect _ Hp2) as [_ Hc3].
  change (deliver ptt_down_up s1) with (snd (_ptt_release (snd (_ptt_press s1)))).
  rewrite Hc3, Hc2, Hs1, Hc1, <- app_assoc. reflexivity.
Qed.

Lemma ptt_key_reaches_router_witness :
  let s1 := snd (_register_global_hotkeys demo_app) in
  let edges :=
    _loop_pending (bindings (manager (global_hotkeys s1)))
      [key_event true 117 (Z.lor 12 X.LockMask);
       key_event false 117 (Z.lor 12 (Z.lor X.LockMask X.Mod2Mask))] in
  edges = ptt_down_up /\
  router_calls (deliver edges s1) =
    router_calls demo_app ++
    [CallConnect (strip (selected_input_source demo_app)); CallDisconnect].
Proof.
  apply (ptt_key_reaches_router demo_app (Display_ 0) (RootWindow 0) 117 12
           X.LockMask (Z.lor X.LockMask X.Mod2Mask)); try reflexivity.
  - cbn. auto.
  - cbn. auto.
Defined.

End KeyToRouter.

(** ** Audio setup and input sources *)

Ltac router_step :=
  first
    [ apply completes_ret; assumption
    | apply completes_run; assumption
    | apply completes_module_id_by_name; assumption
    | apply completes_find_mic_loop_module; assumption
    | apply completes_connect_load; assumption
    | apply completes_ensure_virtual_mic; assumption
    | apply completes_get_default_source_loop; assumption
    | apply completes_modify; assumption
    | apply completes_gets; assumption
    | apply completes_bind; [|intros ? ? ?]
    | match goal with
      | |- completes (if ?b then _ else _) _ => destruct b
      | |- completes (match ?x with _ => _ end) _ => destruct x
      end ].

Section RouterCompletes.

Implicit Types (a : Audio).

Lemma completes_unload_monitor a :
  runs_return a = true -> completes unload_monitor a.
Proof. intros Hp. unfold unload_monitor, set_monitor_module_id. repeat router_step. Qed.

Lemma completes_set_mic_mute muted a :
  runs_return a = true -> completes (set_mic_mute muted) a.
Proof. intros Hp. unfold set_mic_mute. repeat router_step. Qed.

Lemma completes_list_input_sources a :
  runs_return a = true -> completes list_input_sources a.
Proof. intros Hp. unfold list_input_sources. repeat router_step. Qed.

Lemma completes_get_default_source a :
  runs_return a = true -> completes get_default_source a.
Proof. intros Hp. unfold get_default_source. repeat router_step. Qed.

Lemma completes_connect source_name a :
  runs_return a = true ->
  completes (connect_input_source_to_soundpad source_name) a.
Proof.
  intros Hp. unfold connect_input_source_to_soundpad, set_mic_loop_module_id.
  repeat router_step.
Qed.

End RouterCompletes.

Section Finishes.

Implicit Types (s : SoundpadApp).

Lemma undisturbed_runs s : undisturbed s = true -> runs_return (audio s) = true.
Proof. unfold undisturbed. intros H. apply andb_prop in H as [H _]. exact H. Qed.

Lemma finishes_ret {A} (x : A) s :
  undisturbed s = true -> finishes (ret x) s.
Proof. intros H. exists x, s. auto. Qed.

Lemma finishes_bind {A B} (m : M SoundpadApp A) (k : A -> M SoundpadApp B) s :
  finishes m s ->
  (forall x s', undisturbed s' = true -> finishes (k x) s') ->
  finishes (bind m k) s.
Proof.
  intros (x & s1 & E & Hp) Hk. unfold finishes, bind. rewrite E. apply Hk. assumption.
Qed.

Lemma finishes_gets {A} (f : SoundpadApp -> A) s :
  undisturbed s = true -> finishes (gets f) s.
Proof. intros H. exists (f s), s. auto. Qed.

Lemma finishes_modify (f : SoundpadApp -> SoundpadApp) s :
  undisturbed (f s) = true -> finishes (modify f) s.
Proof. intros H. exists tt, (f s). auto. Qed.

Lemma finishes_messagebox title text s :
  undisturbed s = true -> finishes (messagebox title text) s.
Proof. intros H. unfold messagebox. apply finishes_modify. exact H. Qed.

Lemma finishes_on_router {A} (operation : M Audio A) s :
  undisturbed s = true ->
  (runs_return (audio s) = true -> completes operation (audio s)) ->
  finishes (on_router operation) s.
Proof.
  intros Hu Hc. destruct (Hc (undisturbed_runs s Hu)) as (x & a' & E & Hp).
  unfold finishes, on_router. rewrite E.
  exists x, (set_audio a' s). split; [reflexivity|].
  unfold undisturbed in *. cbn [audio host set_audio]. rewrite Hp.
  apply andb_prop in Hu as [_ Hu]. exact Hu.
Qed.

Lemma finishes_call_router {A} call (operation : M Audio A) s :
  undisturbed s = true ->
  (runs_return (audio s) = true -> completes operation (audio s)) ->
  finishes (call_router call operation) s.
Proof.
  intros Hu Hc. destruct (Hc (undisturbed_runs s Hu)) as (x & a' & E & Hp).
  unfold finishes, call_router. cbn [audio set_router_calls].
  rewrite E. eexists. eexists. split; [reflexivity|].
  unfold undisturbed in *. cbn [audio host set_audio set_router_calls]. rewrite Hp.
  apply andb_prop in Hu as [_ Hu]. exact Hu.
Qed.

(** A write whose turn in the schedule holds no fault returns. *)
Lemma finishes_write_text store s :
  undisturbed s = true ->
  (forall hs, write_faults (store hs) = write_faults hs) ->
  finishes (write_text store) s.
Proof.
  unfold undisturbed, finishes, write_text. intros Hu Hstore.
  apply andb_prop in Hu as [Hr Hw].
  destruct (write_faults (host s)) as [|[e|] rest] eqn:Hf; cbn [forallb is_written] in Hw;
    try discriminate.
  - eexists. eexists. split; [reflexivity|]. unfold undisturbed. cbn [audio host set_host].
    rewrite Hr, Hstore, Hf. reflexivity.
  - eexists. eexists. split; [reflexivity|]. unfold undisturbed. cbn [audio host set_host].
    rewrite Hr, Hstore. cbn [write_faults set_files]. exact Hw.
Qed.

Lemma finishes_save_settings s : undisturbed s = true -> finishes _save_settings s.
Proof.
  intros Hu. unfold _save_settings. apply finishes_bind; [apply finishes_gets; exact Hu|].
  intros data s' Hu'. apply finishes_write_text; [exact Hu'|reflexivity].
Qed.

Lemma finishes_save_clips s : undisturbed s = true -> finishes _save_clips s.
Proof.
  intros Hu. unfold _save_clips, _save_profiles, _backup_profiles_snapshot.
  apply finishes_bind; [apply finishes_gets; exact Hu|]. intros cs s1 Hu1.
  apply finishes_bind; [apply finishes_write_text; [exact Hu1|reflexivity]|].
  intros [] s2 Hu2. apply finishes_write_text; [exact Hu2|reflexivity].
Qed.

Lemma finishes_register_global_hotkeys s :
  undisturbed s = true -> finishes _register_global_hotkeys s.
Proof.
  intros Hp. unfold finishes, _register_global_hotkeys, call_register, bind, gets, modify, ret.
  destruct (global_hotkeys_active s); cbn [negb]; [|eauto].
  match goal with |- context [register ?e ?h] =>
    pose proof (register_returns e h) as Hret; destruct (register e h) as [[conflicts|e0] h']
  end; [|discriminate Hret].
  destruct conflicts; eexists; eexists; (split; [reflexivity|exact Hp]).
Qed.

End Finishes.

Ltac app_step :=
  first
    [ apply finishes_ret; assumption
    | apply finishes_gets; assumption
    | apply finishes_modify; assumption
    | apply finishes_messagebox; assumption
    | apply finishes_register_global_hotkeys; assumption
    | apply finishes_save_settings; assumption
    | apply finishes_on_router;
        [ assumption
        | first [ apply completes_ensure_virtual_mic | apply completes_unload_monitor
                | apply completes_set_mic_mute | apply completes_list_input_sources
                | apply completes_get_default_source ] ]
    | apply finishes_call_router; [assumption | apply completes_connect]
    | apply finishes_bind; [|intros ? ? ?]
    | match goal with
      | |- finishes (let '(_, _) := ?x in _) _ => destruct x
      | |- finishes (if ?b then _ else _) _ => destruct b
      | |- finishes (match ?x with _ => _ end) _ => destruct x
      end ].

Section Setup.

Implicit Types (s : SoundpadApp).

Local Opaque _save_settings.

Lemma finishes_refresh_input_sources s :
  undisturbed s = true -> finishes refresh_input_sources s.
Proof. intros Hp. unfold refresh_input_sources. repeat app_step. Qed.

Lemma finishes_auto_connect s :
  undisturbed s = true -> finishes auto_connect_default_input_source s.
Proof.
  intros Hp. unfold auto_connect_default_input_source. repeat app_step.
Qed.

(** X23. [_setup_audio_router] returns in two cases. Without [pactl] it
    runs no command and shows no dialog, and only reports the missing tool
    in the status line. With [pactl] it returns whenever no call of
    [subprocess.run] and no write of the settings file raises, whatever
    the commands answer: nothing on its path handles either exception, and
    nothing else raises. *)
Theorem setup_audio_router_returns s :
  (pactl_present (server (audio s)) = false ->
   _setup_audio_router s =
     (Return tt,
      set_status_text
        (lit "Error: pactl not found. Install pipewire-pulse or pulseaudio.") s)) /\
  (undisturbed s = true -> returned (fst (_setup_audio_router s)) = true).
Proof.
  split.
  - intros Hp. unfold _setup_audio_router, bind, gets. rewrite Hp. reflexivity.
  - intros Hu.
    assert (H : finishes _setup_audio_router s).
    { unfold _setup_audio_router.
      apply finishes_bind; [apply finishes_gets; assumption|]. intros which s1 Hp1.
      destruct (negb which); [apply finishes_modify; assumption|].
      repeat (first [ apply finishes_refresh_input_sources; assumption
                    | apply finishes_auto_connect; assumption
                    | app_step ]). }
    destruct H as (x & s' & E & _). rewrite E. reflexivity.
Qed.

Lemma setup_audio_router_returns_witness :
  _setup_audio_router bare_app =
    (Return tt,
     set_status_text
       (lit "Error: pactl not found. Install pipewire-pulse or pulseaudio.") bare_app) /\
  returned (fst (_setup_audio_router open_mic_app)) = true.
Proof.
  split.
  - apply (proj1 (setup_audio_router_returns bare_app)). reflexivity.
  - apply (proj2 (setup_audio_router_returns open_mic_app)). reflexivity.
Defined.

(** With push-to-talk off and a disk that refuses the write, the settings
    file is written on the automatic connection and [OSError] leaves
    [_setup_audio_router], after the microphone has been routed. *)
Example setup_audio_router_write_fault :
  let s := set_host (set_files [Some OSError] None None 0 demo_host) open_mic_app in
  fst (_setup_audio_router s) = Raise OSError /\
  router_calls (snd (_setup_audio_router s)) = [CallConnect (lit "alsa_input.usb")].
Proof. vm_compute. auto. Qed.

Lemma list_input_sources_sound a :
  match fst (list_input_sources a) with
  | Return names => Forall (fun n => is_virtual_name n = false /\ strip n = n) names
  | Raise e => raised_by_run (server a) e
  end.
Proof.
  unfold list_input_sources, bind.
  destruct (_run _ a) as [[cp|e] a1] eqn:E; cbn [fst].
  - destruct (negb _); cbn [ret fst]; [constructor|]. apply list_input_sources_loop_sound.
  - exact (run_raises _ _ _ _ E).
Qed.

Lemma member_In x xs : member x xs = true -> In x xs.
Proof.
  unfold member. intros H. apply existsb_exists in H as (y & Hin & Hy).
  unfold eqb in Hy. apply bool_decide_eq_true in Hy. subst y. exact Hin.
Qed.


Lemma register_global_hotkeys_calls s :
  router_calls (snd (_register_global_hotkeys s)) = router_calls s /\
  audio (snd (_register_global_hotkeys s)) = audio s.
Proof.
  destruct (global_hotkeys_active s) eqn:Ha.
  - destruct (register_global_hotkeys_frame s Ha) as (_ & _ & _ & _ & H1 & H2). auto.
  - unfold _register_global_hotkeys, bind, gets. rewrite Ha. auto.
Qed.

Lemma ptt_enabled_blocks_connect_calls s :
  push_to_talk_enabled s = true ->
  router_calls (snd (auto_connect_default_input_source s)) = router_calls s.
Proof.
  intros He.
  unfold auto_connect_default_input_source, on_router, bind, gets,
    modify, ret. cbv beta iota.
  destruct (truthy (strip (selected_input_source s))) eqn:Hsel; cbn [negb].
  + rewrite Hsel. cbn [negb]. destruct (list_input_sources (audio s)) as [[available|e] a']; [|reflexivity].
    destruct (member _ available); cbn [negb]; [|reflexivity].
    cbn [push_to_talk_enabled set_selected_input_source set_audio]. rewrite He.
    match goal with |- context [_save_settings ?x] =>
      destruct (save_settings_frame x) as (r & hs' & E); rewrite E; destruct r as [[]|e0]
    end; [|reflexivity].
    match goal with |- context [_register_global_hotkeys ?s0] =>
      destruct (register_global_hotkeys_calls s0) as [Hc _];
      destruct (_register_global_hotkeys s0) as [[[]|e] s1]
    end; cbn [snd] in Hc |- *; cbn; rewrite ?Hc; reflexivity.
  + destruct (get_default_source (audio s)) as [[default|e] a0]; [|reflexivity].
    destruct (truthy (strip default)); cbn [negb]; [|reflexivity].
    cbn [audio set_audio].
    destruct (list_input_sources a0) as [[available|e] a']; [|reflexivity].
    destruct (member _ available); cbn [negb]; [|reflexivity].
    cbn [push_to_talk_enabled set_selected_input_source set_audio]. rewrite He.
    match goal with |- context [_save_settings ?x] =>
      destruct (save_settings_frame x) as (r & hs' & E); rewrite E; destruct r as [[]|e0]
    end; [|reflexivity].
    match goal with |- context [_register_global_hotkeys ?s0] =>
      destruct (register_global_hotkeys_calls s0) as [Hc _];
      destruct (_register_global_hotkeys s0) as [[[]|e] s1]
    end; cbn [snd] in Hc |- *; cbn; rewrite ?Hc; reflexivity.
Qed.

(** X25. With push-to-talk enabled, neither the connect button nor the
    automatic connection calls connect: [connect_selected_input_source]
    and [auto_connect_default_input_source] end without a call of connect
    or disconnect, and the first of them without any command at all. *)
Theorem ptt_enabled_blocks_connect s :
  push_to_talk_enabled s = true ->
  router_calls (snd (connect_selected_input_source s)) = router_calls s /\
  audio (snd (connect_selected_input_source s)) = audio s /\
  router_calls (snd (auto_connect_default_input_source s)) = router_calls s.
Proof.
  intros He.
  assert (H : router_calls (snd (connect_selected_input_source s)) = router_calls s /\
              audio (snd (connect_selected_input_source s)) = audio s).
  { unfold connect_selected_input_source, bind, gets, modify, ret. rewrite He.
    match goal with |- context [_save_settings ?x] =>
      destruct (save_settings_frame x) as (r & hs' & E); rewrite E; destruct r as [[]|e0]
    end; [|split; reflexivity].
    exact (register_global_hotkeys_calls
      (set_host hs'
         (set_status_text (lit "Push-to-talk is enabled; hold PTT key to route mic") s))). }
  destruct H as [H1 H2]. split; [exact H1|]. split; [exact H2|].
  apply ptt_enabled_blocks_connect_calls. exact He.
Qed.

Lemma ptt_enabled_blocks_connect_witness :
  router_calls (snd (connect_selected_input_source demo_app)) = router_calls demo_app /\
  audio (snd (connect_selected_input_source demo_app)) = audio demo_app /\
  router_calls (snd (auto_connect_default_input_source demo_app)) = router_calls demo_app.
Proof.
  apply (ptt_enabled_blocks_connect demo_app). reflexivity.
Defined.

(** X26. [auto_connect_default_input_source] connects only what the
    server lists as an input source: when it calls connect, it does so
    once, push-to-talk is off, and the source is the stripped selection or,
    with a blank selection, the stripped answer of [get_default_source];
    that source is in the list that [list_input_sources] returned just
    before, hence neither [soundpad_mic] nor a monitor, and it is the
    selection afterwards. Otherwise it calls nothing of connect and
    disconnect. *)
Theorem auto_connect_only_listed s :
  let s' := snd (auto_connect_default_input_source s) in
  router_calls s' = router_calls s \/
  exists chosen a0 available a1,
    router_calls s' = router_calls s ++ [CallConnect chosen] /\
    (if truthy (strip (selected_input_source s))
     then chosen = strip (selected_input_source s) /\ a0 = audio s
     else exists default,
            get_default_source (audio s) = (Return default, a0) /\
            chosen = strip default) /\
    list_input_sources a0 = (Return available, a1) /\
    In chosen available /\
    is_virtual_name chosen = false /\
    push_to_talk_enabled s = false /\
    selected_input_source s' = chosen.
Proof.
  cbv zeta.
  destruct (push_to_talk_enabled s) eqn:He.
  { left. apply ptt_enabled_blocks_connect_calls. exact He. }
  unfold auto_connect_default_input_source, on_router, call_router,
    messagebox, bind, gets, modify, ret. cbv beta iota.
  destruct (truthy (strip (selected_input_source s))) eqn:Hsel; cbn [negb].
  - rewrite Hsel. cbn [negb].
    pose proof (list_input_sources_sound (audio s)) as Hsound.
    destruct (list_input_sources (audio s)) as [[available|e] a'] eqn:El; [|left; reflexivity].
    cbn [fst] in Hsound.
    destruct (member _ available) eqn:Hm; cbn [negb]; [|left; reflexivity].
    apply member_In in Hm. rewrite List.Forall_forall in Hsound. destruct (Hsound _ Hm) as [Hv _].
    cbn [push_to_talk_enabled set_selected_input_source set_audio]. rewrite He.
    right. exists (strip (selected_input_source s)), (audio s), available, a'.
    cbn [audio router_calls set_router_calls set_selected_input_source set_audio].
    destruct (connect_input_source_to_soundpad _ _) as [[[[] msg]|e] a2];
      cbv beta iota;
      try match goal with |- context [_save_settings ?x] =>
        destruct (save_settings_frame x) as (r & hs' & E); rewrite E; destruct r as [[]|e0]
      end; cbn; auto 10.
  - destruct (get_default_source (audio s)) as [[default|e] a0] eqn:Ed; [|left; reflexivity].
    destruct (truthy (strip default)); cbn [negb]; [|left; reflexivity].
    cbn [audio set_audio].
    pose proof (list_input_sources_sound a0) as Hsound.
    destruct (list_input_sources a0) as [[available|e] a'] eqn:El; [|left; reflexivity].
    cbn [fst] in Hsound.
    destruct (member _ available) eqn:Hm; cbn [negb]; [|left; reflexivity].
    apply member_In in Hm. rewrite List.Forall_forall in Hsound. destruct (Hsound _ Hm) as [Hv _].
    cbn [push_to_talk_enabled set_selected_input_source set_audio]. rewrite He.
    right. exists (strip default), a0, available, a'.
    cbn [audio router_calls set_router_calls set_selected_input_source set_audio].
    destruct (connect_input_source_to_soundpad _ _) as [[[[] msg]|e] a2];
      cbv beta iota;
      try match goal with |- context [_save_settings ?x] =>
        destruct (save_settings_frame x) as (r & hs' & E); rewrite E; destruct r as [[]|e0]
      end; cbn; eauto 10.
Qed.

Example auto_connect_default_demo :
  router_calls (snd (auto_connect_default_input_source open_mic_app)) =
    [CallConnect (lit "bluez_input.AA:BB")] /\
  selected_input_source (snd (auto_connect_default_input_source open_mic_app)) =
    lit "bluez_input.AA:BB" /\
  selected_input_source (snd (refresh_input_sources open_mic_app)) = lit "alsa_input.usb".
Proof. vm_compute. auto. Qed.

End Setup.

(** ** Speakers muted by default *)

Section MuteByDefault.

Implicit Types (a : Audio).

Lemma extends_refl a : extends a a.
Proof. split; auto. Qed.

Lemma extends_trans a1 a2 a3 : extends a1 a2 -> extends a2 a3 -> extends a1 a3.
Proof. intros [H1 H2] [H3 H4]. split; [congruence|auto]. Qed.

Lemma preserves_ret {A} (x : A) : preserves (ret x : M Audio A).
Proof. intros a. apply extends_refl. Qed.

Lemma preserves_bind {A B} (m : M Audio A) (k : A -> M Audio B) :
  preserves m -> (forall x, preserves (k x)) -> preserves (bind m k).
Proof.
  intros Hm Hk a. unfold bind. specialize (Hm a).
  destruct (m a) as [[x|e] a1]; cbn [snd] in Hm |- *; [|exact Hm].
  eapply extends_trans; [exact Hm|apply Hk].
Qed.

Lemma preserves_run cmd :
  (forall index, parse_argv cmd <> UnloadModule index) -> preserves (_run cmd).
Proof.
  intros Hcmd a. destruct (_run cmd a) as [r a'] eqn:E. cbn [snd].
  pose proof (run_issued _ _ _ _ E) as [_ Hro]. split; [rewrite Hro; reflexivity|].
  apply run_inv in E as [E _]. unfold subprocess_run in E.
  assert (Hserve : forall sv cp sv', serve (parse_argv cmd) sv = (cp, sv') ->
            forall m, In m (modules sv) -> In m (modules sv')).
  { intros sv cp sv'. destruct (parse_argv cmd) eqn:Hp; cbn [serve];
      try (intros [= _ <-]; auto; fail).
    - intros [= _ <-] m Hin. cbn [set_modules modules]. apply in_or_app. auto.
    - exfalso. exact (Hcmd _ eq_refl). }
  destruct (faults (server a)) as [|[|f|e|] rest]; destruct (pactl_present (server a));
    cbn [negb tl] in E;
    try (injection E as _ <-; auto; fail);
    destruct (serve _ _) as [cp sv'] eqn:Es; injection E as _ <-;
    exact (Hserve _ _ _ Es).
Qed.

Lemma preserves_module_id_by_name module_name arg_token :
  preserves (_module_id_by_name module_name arg_token).
Proof.
  unfold _module_id_by_name. apply preserves_bind.
  - apply preserves_run. intros index. discriminate.
  - intros cp. destruct (negb _); apply preserves_ret.
Qed.

Lemma preserves_set_sink v : preserves (set_sink_module_id v).
Proof. intros a. split; [reflexivity|auto]. Qed.

Lemma preserves_set_source v : preserves (set_source_module_id v).
Proof. intros a. split; [reflexivity|auto]. Qed.

Lemma preserves_ensure_virtual_source : preserves ensure_virtual_source.
Proof.
  unfold ensure_virtual_source.
  apply preserves_bind; [apply preserves_module_id_by_name|]. intros found.
  apply preserves_bind; [apply preserves_set_source|]. intros _.
  destruct (negb (id_truthy found)); [|apply preserves_ret].
  apply preserves_bind; [apply preserves_run; intros index; discriminate|]. intros cp.
  destruct (negb _); [apply preserves_ret|].
  apply preserves_bind; [apply preserves_set_source|]. intros _. apply preserves_ret.
Qed.

Lemma preserves_ensure_virtual_mic : preserves ensure_virtual_mic.
Proof.
  unfold ensure_virtual_mic.
  apply preserves_bind; [apply preserves_module_id_by_name|]. intros found.
  apply preserves_bind; [apply preserves_set_sink|]. intros _.
  destruct (negb (id_truthy found)); [|apply preserves_ensure_virtual_source].
  apply preserves_bind; [apply preserves_run; intros index; discriminate|]. intros cp.
  destruct (negb _); [apply preserves_ret|].
  apply preserves_bind; [apply preserves_set_sink|]. intros _.
  apply preserves_ensure_virtual_source.
Qed.

(** X27. Muting the speakers by default does nothing. On a router that
    remembers no monitor, as [__init__] leaves it, the [unload_monitor]
    that follows [ensure_virtual_mic] in [_setup_audio_router] runs no
    command and reports success: [ensure_virtual_mic] unloads nothing and
    leaves [monitor_module_id] alone, so a monitor loopback that an
    earlier session left loaded is still loaded afterwards. *)
Theorem setup_mute_is_idle a :
  monitor_module_id (router a) = None ->
  let a1 := snd (ensure_virtual_mic a) in
  unload_monitor a1 = (Return (true, lit "Speaker monitor already disabled"), a1) /\
  (forall m, In m (modules (server a)) -> In m (modules (server a1))).
Proof.
  intros Hnone. cbv zeta. destruct (preserves_ensure_virtual_mic a) as [Hid Hmods].
  split; [|exact Hmods].
  unfold unload_monitor, bind, gets. rewrite Hid, Hnone. reflexivity.
Qed.

Lemma setup_mute_is_idle_witness :
  let a1 := snd (ensure_virtual_mic demo_audio) in
  unload_monitor a1 = (Return (true, lit "Speaker monitor already disabled"), a1) /\
  (forall m, In m (modules (server demo_audio)) -> In m (modules (server a1))).
Proof.
  apply (setup_mute_is_idle demo_audio). reflexivity.
Defined.

Example stale_monitor_demo :
  existsb is_monitor_loop (modules (server demo_audio)) = true /\
  fst (_setup_audio_router demo_app) = Return tt /\
  existsb is_monitor_loop
    (modules (server (audio (snd (_setup_audio_router demo_app))))) =
    true /\
  Forall (fun cmd => parse_argv cmd <> UnloadModule (lit "1"))
    (issued (server (audio (snd (_setup_audio_router demo_app))))).
Proof.
  vm_compute. repeat split; repeat constructor; discriminate.
Qed.

End MuteByDefault.

(** ** The push-to-talk chord and the clips *)

Section Shadowing.

Implicit Types (s : SoundpadApp).

(** X28. The push-to-talk chord takes its key from the clips. With global
    hotkeys active, push-to-talk enabled and a push-to-talk chord that
    resolves to a key and is granted, the action table after
    [_register_global_hotkeys] maps that key to [__ptt__], whatever the
    clips hold, and the capture loop reports its edges as push-to-talk
    edges: a clip that holds the same chord loses its global hotkey, and
    the conflicts reported do not mention the chord. *)
Theorem ptt_chord_shadows_clips s d w keycode base_mask :
  global_hotkeys_active s = true ->
  push_to_talk_enabled s = true ->
  running (manager (global_hotkeys s)) = true ->
  display (manager (global_hotkeys s)) = Some d ->
  root (manager (global_hotkeys s)) = Some w ->
  resolve (xserver (global_hotkeys s)) (strip (ptt_hotkey s)) =
    Some (Some keycode, base_mask) ->
  any_granted (xserver (global_hotkeys s)) keycode base_mask = true ->
  let s1 := snd (_register_global_hotkeys s) in
  bindings (manager (global_hotkeys s1)) !! (keycode, base_mask) = Some PTT /\
  (forall extra pressed,
     In extra lock_variants ->
     _loop_event (bindings (manager (global_hotkeys s1)))
       (key_event pressed keycode (Z.lor base_mask extra)) = Some (PTT, pressed)) /\
  ~ In (strip (ptt_hotkey s)) (last_hotkey_conflicts s1).
Proof.
  intros Ha He Hr Hd Hw Hres Hany. cbv zeta.
  assert (Hkey : truthy (strip (ptt_hotkey s)) = true).
  { unfold resolve, _hotkey_to_parts in Hres. cbv zeta in Hres.
    rewrite strip_strip in Hres.
    destruct (truthy (strip (ptt_hotkey s))); [reflexivity|discriminate]. }
  destruct (register_global_hotkeys_frame s Ha) as (Hg & _).
  rewrite He, Hkey in Hg. cbn [andb] in Hg.
  assert (Hlook : bindings (manager (global_hotkeys (snd (_register_global_hotkeys s))))
                    !! (keycode, base_mask) = Some PTT).
  { rewrite Hg, (register_bindings _ _ d w Hr Hd Hw).
    exact (table_of_entered _ _ _ _ _ _ _ Hres (any_granted_recorded _ _ _ Hany)). }
  split; [exact Hlook|]. split.
  - intros extra pressed Hextra.
    exact (loop_event_lookup _ _ _ _ _ _ _ pressed _ Hlook Hres Hextra).
  - unfold _register_global_hotkeys, call_register, bind, gets, modify, ret.
    cbv beta iota. rewrite Ha. cbn [negb]. rewrite He, Hkey. cbn [andb].
    rewrite (register_run _ _ d w Hr Hd Hw).
    assert (Hno : ~ In (strip (ptt_hotkey s))
                    (conflicts_of (xserver (global_hotkeys s))
                       ((clip_entries 0 (clips s) ++
                         [(Named (lit "__stop__"), lit "Alt+\")]) ++
                        [(PTT, strip (ptt_hotkey s))]))).
    { intros Hin. apply conflicts_of_In in Hin as [_ Hc].
      unfold in_conflict in Hc. rewrite Hres, (any_granted_recorded _ _ _ Hany) in Hc. discriminate. }
    destruct (conflicts_of _ _); cbn; exact Hno.
Qed.

Lemma ptt_chord_shadows_clips_witness :
  let s1 := snd (_register_global_hotkeys shadowed_app) in
  bindings (manager (global_hotkeys s1)) !! (117, 12) = Some PTT /\
  (forall extra pressed,
     In extra lock_variants ->
     _loop_event (bindings (manager (global_hotkeys s1)))
       (key_event pressed 117 (Z.lor 12 extra)) = Some (PTT, pressed)) /\
  ~ In (strip (ptt_hotkey shadowed_app)) (last_hotkey_conflicts s1).
Proof.
  apply (ptt_chord_shadows_clips shadowed_app (Display_ 0) (RootWindow 0) 117 12);
    reflexivity.
Defined.

Example shadowed_clip_demo :
  resolve (xserver (global_hotkeys shadowed_app)) (lit "ctrl+alt+m") = Some (Some 117, 12) /\
  clip_entries 0 (clips shadowed_app) = [(Clip 0, lit "ctrl+alt+m")] /\
  last_hotkey_conflicts (snd (_register_global_hotkeys shadowed_app)) = [].
Proof. vm_compute. auto. Qed.

End Shadowing.

(** ** The application's flag and the manager *)

Section Synced.

Implicit Types (s : SoundpadApp) (h : Hotkeys).

Lemma start_facts h :
  coherent (manager h) = true -> running (manager h) = false ->
  exists b h', start h = (Return b, h') /\ running (manager h') = b /\
               coherent (manager h') = true.
Proof.
  intros Hc Hr. destruct (XLIB_AVAILABLE (xserver h)) eqn:Hav.
  - destruct (start_fresh h Hav Hr) as (h' & E & Hd & Hw & Hr' & _).
    eexists. exists h'. split; [exact E|]. split; [exact Hr'|].
    unfold coherent. rewrite Hd, Hw, Hr'. destruct (_ && _); reflexivity.
  - exists false, h. rewrite start_idle by auto. auto.
Qed.

Lemma stop_facts h :
  coherent (manager h) = true ->
  exists h', stop h = (Return tt, h') /\ running (manager h') = false /\
             coherent (manager h') = true /\
             (running (manager h) = true -> registered (manager h') = []).
Proof.
  intros Hc. destruct (running (manager h)) eqn:Hr.
  - destruct (coherent_running _ Hc Hr) as (d & w & Hd & Hw).
    exists (note_stop h). split; [exact (stop_run h d w Hr Hd Hw)|]. auto.
  - exists h. unfold stop, bind, gets. rewrite Hr. repeat split; auto. discriminate.
Qed.

Lemma register_facts entries h :
  coherent (manager h) = true ->
  exists conflicts h', register entries h = (Return conflicts, h') /\
    running (manager h') = running (manager h) /\ coherent (manager h') = true.
Proof.
  intros Hc. destruct (running (manager h)) eqn:Hr.
  - destruct (coherent_running _ Hc Hr) as (d & w & Hd & Hw).
    destruct (register_state entries h d w Hr Hd Hw)
      as (_ & _ & _ & _ & _ & _ & _ & S8 & S9 & S10 & _).
    rewrite (register_run entries h d w Hr Hd Hw) in *. cbn [snd] in *.
    eexists. eexists. split; [reflexivity|]. split; [exact S10|].
    unfold coherent. rewrite S8, S9, S10. reflexivity.
  - rewrite register_idle by auto. eauto.
Qed.

Lemma synced_inv s :
  synced s = true ->
  global_hotkeys_active s = running (manager (global_hotkeys s)) /\
  coherent (manager (global_hotkeys s)) = true.
Proof.
  unfold synced. intros H. apply andb_prop in H as [H1 H2]. split; [|exact H2].
  apply eqb_prop. exact H1.
Qed.

Lemma synced_intro s :
  global_hotkeys_active s = running (manager (global_hotkeys s)) ->
  coherent (manager (global_hotkeys s)) = true ->
  synced s = true.
Proof. unfold synced. intros -> ->. rewrite eqb_reflx. reflexivity. Qed.

Lemma register_global_hotkeys_synced s :
  synced s = true ->
  exists s', _register_global_hotkeys s = (Return tt, s') /\ synced s' = true.
Proof.
  intros Hsync. destruct (synced_inv s Hsync) as [Ha Hc].
  unfold _register_global_hotkeys, call_register, bind, gets, modify, ret. cbv beta iota.
  destruct (global_hotkeys_active s) eqn:Hact; cbn [negb]; [|eauto 10].
  match goal with |- context [register ?e ?h] =>
    destruct (register_facts e h Hc) as (conflicts & h' & E & Hr & Hc')
  end.
  rewrite E.
  destruct conflicts; eexists; (split; [reflexivity|]);
    apply synced_intro; cbn; congruence.
Qed.

Lemma toggle_synced enabled s :
  synced s = true -> synced (snd (toggle_global_hotkeys enabled s)) = true.
Proof.
  intros Hsync. destruct (synced_inv s Hsync) as [Ha Hc].
  unfold toggle_global_hotkeys. destruct enabled.
  - unfold bind at 1. unfold gets at 1. destruct (global_hotkeys_active s) eqn:Hact;
      cbn [negb].
    + unfold bind at 1. unfold ret at 1. unfold bind at 1. unfold gets at 1.
      rewrite Hact. cbn [negb].
      destruct (register_global_hotkeys_synced s Hsync) as (s' & E & Hs').
      unfold bind, modify, ret. rewrite E. cbn [snd].
      destruct (synced_inv s' Hs') as [Ha' Hc']. apply synced_intro; assumption.
    + symmetry in Ha.
      destruct (start_facts _ Hc Ha) as (b & h' & E & Hr & Hc').
      unfold bind at 1. unfold bind at 1. unfold call_start. rewrite E.
      unfold modify at 1. unfold bind at 1. unfold gets at 1.
      cbn [global_hotkeys_active set_global_hotkeys_active].
      set (s1 := set_global_hotkeys_active b (set_global_hotkeys h' s)).
      assert (Hs1 : synced s1 = true).
      { apply synced_intro; subst s1; cbn; [congruence|assumption]. }
      destruct b; cbn [negb].
      * destruct (register_global_hotkeys_synced s1 Hs1) as (s' & E' & Hs').
        unfold bind, modify, ret. rewrite E'. cbn [snd].
        destruct (synced_inv s' Hs') as [Ha' Hc'']. apply synced_intro; assumption.
      * exact Hs1.
  - unfold bind at 1. unfold gets at 1. destruct (global_hotkeys_active s) eqn:Hact.
    + destruct (stop_facts _ Hc) as (h' & E & Hr & Hc' & _).
      unfold bind, call_stop, modify, ret. rewrite E. cbn [snd].
      apply synced_intro; cbn; [congruence|assumption].
    + unfold bind, modify, ret. cbn [snd].
      apply synced_intro; cbn; [congruence|assumption].
Qed.

Lemma bind_hotkeys_synced s : synced s = true -> synced (snd (_bind_hotkeys s)) = true.
Proof.
  intros Hsync. unfold _bind_hotkeys, bind, gets, modify. cbv beta iota.
  set (s1 := set_bound_hotkeys (bind_sequences (clips s)) s).
  assert (Hs1 : synced s1 = true) by exact Hsync.
  destruct (register_global_hotkeys_synced s1 Hs1) as (s' & E & Hs').
  rewrite E. exact Hs'.
Qed.

Lemma write_text_raises store s e s' :
  write_text store s = (Raise e, s') -> raised_by_write (host s) e.
Proof.
  unfold write_text, raised_by_write.
  destruct (write_faults (host s)) as [|[e0|] rest]; intros [= <- _]. left. reflexivity.
Qed.

Lemma write_text_faults store s :
  (forall hs, write_faults (store hs) = write_faults hs) ->
  exists k, write_faults (host (snd (write_text store s))) = skipn k (write_faults (host s)).
Proof.
  intros Hstore. unfold write_text.
  destruct (write_faults (host s)) as [|[e0|] rest] eqn:Hf; cbn [snd host set_host].
  - exists 0%nat. rewrite Hstore. exact Hf.
  - exists 1%nat. reflexivity.
  - exists 1%nat. rewrite Hstore. reflexivity.
Qed.

(** Saving the clips raises only what one of its two writes raises. *)
Lemma save_clips_raises s e s' :
  _save_clips s = (Raise e, s') -> raised_by_write (host s) e.
Proof.
  unfold _save_clips, _save_profiles, _backup_profiles_snapshot, bind, gets.
  set (store1 := fun hs => set_files (write_faults hs) (settings_file hs) (Some (clips s))
                             (snapshots hs) hs).
  destruct (write_text store1 s) as [[[]|e1] s1] eqn:E1.
  - intros E2.
    destruct (write_text_faults store1 s (fun hs => eq_refl)) as [k Hk].
    rewrite E1 in Hk. cbn [snd] in Hk.
    apply write_text_raises in E2. unfold raised_by_write in *.
    rewrite Hk in E2. eapply In_skipn_In. exact E2.
  - intros [= <- _]. eapply write_text_raises. exact E1.
Qed.

Lemma undisturbed_no_run_raise s e :
  undisturbed s = true -> ~ raised_by_run (server (audio s)) e.
Proof.
  unfold undisturbed, runs_return. intros H. apply andb_prop in H as [H _].
  apply andb_prop in H as [Hp Hf]. rewrite forallb_forall in Hf.
  intros [[Ha _]|[Hi|[_ Hi]]].
  - congruence.
  - apply Hf in Hi. discriminate Hi.
  - apply Hf in Hi. discriminate Hi.
Qed.

Lemma undisturbed_no_write_raise s e :
  undisturbed s = true -> ~ raised_by_write (host s) e.
Proof.
  unfold undisturbed, raised_by_write. intros H. apply andb_prop in H as [_ H].
  rewrite forallb_forall in H. intros Hi. apply H in Hi. discriminate Hi.
Qed.

(** The ways in which [_on_close] ends. *)
Lemma on_close_cases s :
  synced s = true ->
  match _on_close s with
  | (Return _, s') =>
      synced s' = true /\ global_hotkeys_active s' = false /\
      running (manager (global_hotkeys s')) = false /\
      (global_hotkeys_active s = true -> registered (manager (global_hotkeys s')) = []) /\
      router_calls s' = router_calls s ++ [CallDisconnect] /\
      player_process s' = None
  | (Raise e, s') =>
      synced s' = true /\ global_hotkeys s' = global_hotkeys s /\
      global_hotkeys_active s' = global_hotkeys_active s /\
      ((raised_by_write (host s) e /\ router_calls s' = router_calls s /\
        audio s' = audio s /\ player_process s' = player_process s) \/
       (raised_by_run (server (audio s)) e /\
        router_calls s' = router_calls s ++ [CallDisconnect] /\
        player_process s' = None))
  end.
Proof.
  intros Hsync. destruct (synced_inv s Hsync) as [Ha Hc].
  unfold _on_close. unfold bind at 1.
  destruct (save_clips_frame s) as (r & hs' & Es).
  pose proof (save_clips_raises s) as Hraise. rewrite Es in Hraise. rewrite Es.
  destruct r as [[]|e].
  2:{ split; [exact Hsync|]. split; [reflexivity|]. split; [reflexivity|].
      left. split; [eapply Hraise; reflexivity|]. repeat split. }
  clear Hraise.
  unfold stop_playback, call_router, bind, gets, modify, ret.
  cbv beta iota. cbn [audio set_router_calls set_status_text set_player_process set_host].
  pose proof (proj2 (proj2 (proj2 (proj2 (proj2 (proj2 (proj2
                router_operations_transparent)))))) (audio s)) as [_ Ht].
  destruct (disconnect_input_source_from_soundpad (audio s)) as [[r|e] a'] eqn:E;
    cbn [fst] in Ht.
  - cbn [global_hotkeys_active set_audio set_router_calls set_status_text
         set_player_process set_host].
    destruct (global_hotkeys_active s) eqn:Hact.
    + destruct (stop_facts _ Hc) as (h' & Est & Hr & Hc' & Hreg).
      unfold call_stop.
      cbn [global_hotkeys set_audio set_router_calls set_status_text
           set_player_process set_host].
      rewrite Est.
      split; [apply synced_intro; cbn; [congruence|assumption]|].
      split; [reflexivity|]. split; [exact Hr|].
      split; [intros _; apply Hreg; congruence|]. split; reflexivity.
    + split; [exact Hsync|]. split; [exact Hact|]. split; [cbn; congruence|].
      split; [discriminate|]. split; reflexivity.
  - split; [exact Hsync|]. split; [reflexivity|]. split; [reflexivity|].
    right. split; [exact Ht|]. split; reflexivity.
Qed.

Lemma run_handler_synced c s : synced s = true -> synced (run_handler c s) = true.
Proof.
  intros Hsync. destruct c as [enabled| |]; cbn [run_handler].
  - apply toggle_synced, Hsync.
  - apply bind_hotkeys_synced, Hsync.
  - pose proof (on_close_cases s Hsync) as H.
    destruct (_on_close s) as [[r|e] s']; cbn [snd]; apply H.
Qed.

(** X29. The application's flag mirrors the manager. If
    [global_hotkeys_active] equals the manager's [running] and the manager
    is coherent, as after [__init__], this stays so through
    [_init_global_hotkeys] run on an inactive application and then through
    any sequence of hotkey toggles, re-bindings and close requests, also
    when a handler is left by an exception. The [running] guard of
    [register] and the [global_hotkeys_active] guard of
    [_register_global_hotkeys] therefore decide the same. *)
Theorem hotkeys_flag_mirrors_manager enabled handlers s :
  synced s = true ->
  global_hotkeys_active s = false ->
  synced (run_handlers handlers (snd (_init_global_hotkeys enabled s))) = true.
Proof.
  intros Hsync Hact.
  assert (Hinit : synced (snd (_init_global_hotkeys enabled s)) = true).
  { destruct (synced_inv s Hsync) as [Ha Hc]. rewrite Hact in Ha. symmetry in Ha.
    unfold _init_global_hotkeys. destruct enabled; cbn [negb]; [|exact Hsync].
    destruct (start_facts _ Hc Ha) as (b & h' & E & Hr & Hc').
    unfold bind at 1. unfold call_start. rewrite E.
    unfold bind at 1. unfold modify at 1.
    set (s1 := set_global_hotkeys_active b (set_global_hotkeys h' s)).
    assert (Hs1 : synced s1 = true).
    { apply synced_intro; subst s1; cbn; [congruence|assumption]. }
    destruct b; cbn [negb].
    - destruct (register_global_hotkeys_synced s1 Hs1) as (s' & E' & Hs').
      rewrite E'. exact Hs'.
    - unfold bind, gets, modify. cbv beta iota.
      destruct (negb (XLIB_AVAILABLE _)); exact Hs1. }
  revert Hinit. generalize (snd (_init_global_hotkeys enabled s)).
  unfold run_handlers. induction handlers as [|c handlers IH]; intros s0 Hs0; [exact Hs0|].
  cbn [fold_left]. apply IH, run_handler_synced, Hs0.
Qed.

Lemma hotkeys_flag_mirrors_manager_witness :
  synced (run_handlers [ToggleGlobalHotkeys false; ToggleGlobalHotkeys true; BindHotkeys;
                        Close; ToggleGlobalHotkeys true]
            (snd (_init_global_hotkeys true fresh_app))) = true.
Proof.
  apply (hotkeys_flag_mirrors_manager true _ fresh_app); reflexivity.
Defined.

(** A second [start] through [_init_global_hotkeys] on an application
    whose hotkeys are already running clears the flag while the manager
    runs on. *)
Example init_on_running_desyncs :
  synced demo_app = true /\
  global_hotkeys_active (snd (_init_global_hotkeys true demo_app)) = false /\
  running (manager (global_hotkeys (snd (_init_global_hotkeys true demo_app)))) = true.
Proof. vm_compute. auto. Qed.

(** X30. Closing the window. [_on_close] saves the clips first, then
    forgets the player and calls disconnect, and stops the manager last.
    On a synced application, when no file write and no call of
    [subprocess.run] raises, it returns, having called disconnect once and
    stopped a running manager: the flag is cleared, the manager no longer
    runs and holds no recorded grab. Nothing on the path handles an
    exception: when a write of the profile file or of its snapshot raises,
    the handler is left before the player, the router and the manager are
    touched; when the run of disconnect raises (as without [pactl]), it is
    left after disconnect has been called and before the manager is
    stopped. In both cases manager and flag are as they were and [destroy]
    is not reached. *)
Theorem on_close_outcome s :
  synced s = true ->
  (undisturbed s = true ->
   exists s', _on_close s = (Return tt, s') /\
     global_hotkeys_active s' = false /\
     running (manager (global_hotkeys s')) = false /\
     (global_hotkeys_active s = true -> registered (manager (global_hotkeys s')) = []) /\
     router_calls s' = router_calls s ++ [CallDisconnect] /\
     player_process s' = None) /\
  (forall e s', _on_close s = (Raise e, s') ->
     global_hotkeys s' = global_hotkeys s /\
     global_hotkeys_active s' = global_hotkeys_active s /\
     ((raised_by_write (host s) e /\ router_calls s' = router_calls s /\
       audio s' = audio s /\ player_process s' = player_process s) \/
      (raised_by_run (server (audio s)) e /\
       router_calls s' = router_calls s ++ [CallDisconnect] /\
       player_process s' = None))).
Proof.
  intros Hsync. pose proof (on_close_cases s Hsync) as H. split.
  - intros Hu. destruct (_on_close s) as [[[]|e] s'].
    + destruct H as (_ & H1 & H2 & H3 & H4 & H5). exists s'. auto 10.
    + destruct H as (_ & _ & _ & [[Hw _]|[Hr _]]).
      * destruct (undisturbed_no_write_raise s e Hu Hw).
      * destruct (undisturbed_no_run_raise s e Hu Hr).
  - intros e s' E. rewrite E in H. destruct H as (_ & H1 & H2 & H3). auto.
Qed.

Lemma on_close_outcome_witness :
  (exists s', _on_close demo_app = (Return tt, s') /\
     global_hotkeys_active s' = false /\
     running (manager (global_hotkeys s')) = false /\
     (global_hotkeys_active demo_app = true ->
      registered (manager (global_hotkeys s')) = []) /\
     router_calls s' = router_calls demo_app ++ [CallDisconnect] /\
     player_process s' = None) /\
  (fst (_on_close bare_app) = Raise FileNotFoundError /\
   global_hotkeys (snd (_on_close bare_app)) = global_hotkeys bare_app /\
   global_hotkeys_active (snd (_on_close bare_app)) = true) /\
  (fst (_on_close full_disk_app) = Raise OSError /\
   global_hotkeys (snd (_on_close full_disk_app)) = global_hotkeys full_disk_app /\
   router_calls (snd (_on_close full_disk_app)) = []).
Proof.
  split; [|split].
  - apply (proj1 (on_close_outcome demo_app eq_refl)). reflexivity.
  - destruct (proj2 (on_close_outcome bare_app eq_refl) FileNotFoundError
                (snd (_on_close bare_app)) eq_refl) as (H1 & H2 & _).
    split; [reflexivity|]. split; [exact H1|exact H2].
  - destruct (proj2 (on_close_outcome full_disk_app eq_refl) OSError
                (snd (_on_close full_disk_app)) eq_refl) as (H1 & _ & _).
    split; [reflexivity|]. split; [exact H1|reflexivity].
Defined.

End Synced.
